(** * Rigid-body simulator: the per-tick orchestration of LocalRigidBodies.cpp
    and the quaternion norm of quaternion.h

  The development embeds the driver of the simulator (scene selection,
  the random shuffle, the collision loop, the contact-graph construction
  and the contact / shock-propagation loops of [idle_func]) as functions
  on an explicit machine state.  The classes [System], [Body] and
  [EulerRBIntegrator] are declared in headers that are not part of the
  sources at hand; their methods appear here as the fields of a class of
  collaborators, or as small data-movement models where the driver
  depends on what they copy. *)

From Stdlib Require Import ZArith QArith Reals Lra String Ascii.
From stdpp Require Import base list.

Local Open Scope Z_scope.

(** ** quaternion.h *)

Module Quaternion.

Local Open Scope R_scope.

(** [class Quaternion { double w, x, y, z; }], with doubles read as reals. *)
Record Quaternion : Type := mkQuaternion { w : R; x : R; y : R; z : R }.

(** [inline double norm(const Quaternion& q)] *)
Definition norm (q : Quaternion) : R :=
  x q * x q + y q * y q + z q * z q + w q * w q.

(** [Quaternion operator*(double s) const] *)
Definition scale (q : Quaternion) (s : R) : Quaternion :=
  mkQuaternion (w q * s) (x q * s) (y q * s) (z q * s).

(** The Euclidean magnitude of a quaternion seen as a vector of R^4. *)
Definition magnitude (q : Quaternion) : R :=
  sqrt (w q ^ 2 + x q ^ 2 + y q ^ 2 + z q ^ 2).


End Quaternion.

(** ** Scene selection: [main] and [init_system] *)

Module Scene.

(** The eight scene builders of the file; each one pushes its bodies on
    [bVector]. *)
Inductive Builder : Type :=
| init_single_box | init_slide | init_small_pile | init_high_pile
| init_big_pile | init_stack | init_combo | init_tall_stack.

(** The last constructor argument ([inv_mass]) of the bodies a builder
    pushes, in push order.  The floor always comes first. *)
Definition pile8 : list Q :=
  [1#2; 1#2; 1; 1; 1#2; 1#2; 1; 1]%Q.

Definition pushed_inv_mass (b : Builder) : list Q :=
  match b with
  | init_single_box => [0; 1]
  | init_slide => [0; 1]
  | init_small_pile => 0 :: pile8
  | init_high_pile =>
      (* iter = 2: three nested loops of two rounds, eight bodies each *)
      0 :: concat (replicate (2 * 2 * 2) pile8)
  | init_big_pile => [0; 1; 1; 1; 1; 1; 1; 1#6; 1#8; 1#4]
  | init_stack => [0; 1; 1; 1; 1; 1000#3375; 1#8; 1#6; 1#32]
  | init_combo => [0; 0; 0] ++ replicate 9 1 ++ replicate 9 1
  | init_tall_stack => 0 :: replicate 3 1
  end%Q.

(** [static void init_system(int i)]: the [switch] over the scene index. *)
Definition init_system (i : Z) : Builder :=
  match i with
  | 0 => init_single_box
  | 1 => init_slide
  | 2 => init_small_pile
  | 3 => init_high_pile
  | 4 => init_big_pile
  | 5 => init_stack
  | 6 => init_combo
  | 7 => init_tall_stack
  | _ => init_small_pile
  end.

(** libc [atoi]: leading white space, an optional sign, then decimal
    digits up to the first other character; no digits give 0.  (Values
    beyond [int] are undefined in C and are left unbounded here.) *)
Definition is_space (c : ascii) : bool :=
  let n := nat_of_ascii c in
  (n =? 32)%nat || ((9 <=? n)%nat && (n <=? 13)%nat).

Definition digit_of (c : ascii) : option Z :=
  let n := nat_of_ascii c in
  if ((48 <=? n)%nat && (n <=? 57)%nat)%bool
  then Some (Z.of_nat (n - 48)) else None.

Fixpoint skip_spaces (s : string) : string :=
  match s with
  | String c s' => if is_space c then skip_spaces s' else s
  | EmptyString => s
  end.

Fixpoint atoi_digits (acc : Z) (s : string) : Z :=
  match s with
  | String c s' =>
      match digit_of c with
      | Some d => atoi_digits (10 * acc + d) s'
      | None => acc
      end
  | EmptyString => acc
  end.

Definition atoi (s : string) : Z :=
  match skip_spaces s with
  | String "-" s' => - atoi_digits 0 s'
  | String "+" s' => atoi_digits 0 s'
  | s' => atoi_digits 0 s'
  end.

(** [main]: [argv] is the argument vector left by [glutInit];
    [argc > 1] selects [atoi(argv[1])], otherwise the index is -1. *)
Definition main (argv : list string) : Builder :=
  match argv with
  | _ :: a :: _ => init_system (atoi a)
  | _ => init_system (-1)
  end.

(** The scenes in index order, as the [case] labels list them. *)
Definition builtin_scenes : list Builder :=
  [init_single_box; init_slide; init_small_pile; init_high_pile;
   init_big_pile; init_stack; init_combo; init_tall_stack].

Definition default_scene : Builder := init_small_pile.

End Scene.

(** ** The simulation driver: data *)

Module Engine.

(** The numeric payload of a body is kept abstract: [Body.h] and
    [gfx/vec3.h] are not at hand, and the driver only moves these values
    around. *)
Class Payload : Type := {
  (** the [POS_STATE_SIZE] doubles of one body (position, orientation) *)
  PosState : Type;
  (** the [VEL_STATE_SIZE] doubles of one body (linear and angular momentum) *)
  VelState : Type;
  (** [Vec3] *)
  Vec3 : Type;
  (** whatever else a [Body] carries: accumulators, shape, material,
      Tarjan scratch fields *)
  Extra : Type;
}.

(** The calls into [System], the integrator and libc that one tick makes,
    in the order it makes them. *)
Inductive Event : Type :=
| EvSwapAttempt (jj kk : nat) (swapped : bool)
| EvGetStatePos (i : nat)
| EvGetStateVel (i : nat)
| EvSetStatePos (i : nat)
| EvSetStateVel (i : nat)
| EvZeroForces
| EvAddGravity
| EvIntegrateVel (i : nat)
| EvIntegratePos (i : nat)
| EvIntersectionTest (k i : nat) (hit : bool)
| EvCollsionDetect (hit : bool)
| EvContactDetect (count : Z) (shock : bool) (hit : bool)
| EvTarjan
| EvGetBodies.

Section Data.
Context {P : Payload}.

(** [struct ContactInfo { Body* b; Vec3 p; Vec3 normal; }]; a [Body*] is
    an index into the heap of body objects. *)
Record ContactInfo : Type := mkContactInfo {
  ci_b : nat;
  ci_p : Vec3;
  ci_normal : Vec3;
}.

(** The members of [Body] that the driver reads or writes. *)
Record Body : Type := mkBody {
  inv_mass : Q;
  pos_state : PosState;
  vel_state : VelState;
  in_contact_list : list ContactInfo;
  extra : Extra;
}.

(** What the methods of [System] can reach: the body objects, the
    system's own [bVector] of pointers, and the globals of Tarjan's
    algorithm. *)
Record SysMem : Type := mkSysMem {
  heap : list Body;
  sys_bVector : list nat;
  top_sorted : list nat;
  SCC_num : Z;
}.

(** The whole program state seen by [idle_func]: the system, the
    file-static [bVector] (a second vector of pointers to the same body
    objects), the two scratch buffers of the tick, the number of [rand()]
    calls made so far, and the log of calls. *)
Record Machine : Type := mkMachine {
  mem : SysMem;
  bVector : list nat;
  prev_pos : list PosState;
  prev_vel : list VelState;
  rand_calls : nat;
  trace : list Event;
}.

Definition set_heap (h : list Body) (s : SysMem) : SysMem :=
  mkSysMem h (sys_bVector s) (top_sorted s) (SCC_num s).

Definition set_sys_bVector (v : list nat) (s : SysMem) : SysMem :=
  mkSysMem (heap s) v (top_sorted s) (SCC_num s).

Definition set_mem (s : SysMem) (m : Machine) : Machine :=
  mkMachine s (bVector m) (prev_pos m) (prev_vel m) (rand_calls m) (trace m).

Definition set_bVector (v : list nat) (m : Machine) : Machine :=
  mkMachine (mem m) v (prev_pos m) (prev_vel m) (rand_calls m) (trace m).

Definition set_prev_pos (b : list PosState) (m : Machine) : Machine :=
  mkMachine (mem m) (bVector m) b (prev_vel m) (rand_calls m) (trace m).

Definition set_prev_vel (b : list VelState) (m : Machine) : Machine :=
  mkMachine (mem m) (bVector m) (prev_pos m) b (rand_calls m) (trace m).

Definition set_rand_calls (n : nat) (m : Machine) : Machine :=
  mkMachine (mem m) (bVector m) (prev_pos m) (prev_vel m) n (trace m).

Definition emit (e : Event) (m : Machine) : Machine :=
  mkMachine (mem m) (bVector m) (prev_pos m) (prev_vel m) (rand_calls m)
            (trace m ++ [e]).

Definition set_pos_state (x : PosState) (b : Body) : Body :=
  mkBody (inv_mass b) x (vel_state b) (in_contact_list b) (extra b).

Definition set_vel_state (v : VelState) (b : Body) : Body :=
  mkBody (inv_mass b) (pos_state b) v (in_contact_list b) (extra b).

Definition set_in_contact_list (l : list ContactInfo) (b : Body) : Body :=
  mkBody (inv_mass b) (pos_state b) (vel_state b) l (extra b).

(** [bVector[i]->inv_mass != 0] *)
Definition movable (b : Body) : bool := negb (Qeq_bool (inv_mass b) 0).

(** [bVector[i]->inv_mass > 0] *)
Definition positive_inv_mass (b : Body) : bool :=
  negb (Qle_bool (inv_mass b) 0).

(** [sys->bVector[i]], dereferenced. *)
Definition sys_body (s : SysMem) (i : nat) : option Body :=
  sys_bVector s !! i ≫= λ p, heap s !! p.

(** [bVector[i]], dereferenced. *)
Definition local_body (m : Machine) (i : nat) : option Body :=
  bVector m !! i ≫= λ p, heap (mem m) !! p.

(** Write through [sys->bVector[i]]. *)
Definition update_sys_body (f : Body → Body) (i : nat) (s : SysMem) : SysMem :=
  match sys_bVector s !! i with
  | Some p => set_heap (alter f p (heap s)) s
  | None => s
  end.

(** Write through [bVector[i]]. *)
Definition update_local_body (f : Body → Body) (i : nat) (m : Machine) : Machine :=
  match bVector m !! i with
  | Some p => set_mem (set_heap (alter f p (heap (mem m))) (mem m)) m
  | None => m
  end.

End Data.

(** The collaborators whose code is not at hand.  Each field stands for
    one method; its type says what the method can reach. *)
Class Externals (P : Payload) : Type := {
  (** the re-normalisation of the orientation that a state write performs *)
  normalize_pos : PosState → PosState;
  (** [EulerRBIntegrator::integrate_vel] on one body, for the fixed [dt] *)
  euler_vel : Body → VelState;
  (** [EulerRBIntegrator::integrate_pos] on one body, for the fixed [dt] *)
  euler_pos : Body → PosState;
  (** [System::zero_forces], [System::add_gravity] *)
  sys_zero_forces : SysMem → SysMem;
  sys_add_gravity : SysMem → SysMem;
  (** [Body::intersection_test(Body*, Vec3& p, Vec3& normal)]: [Some (p,
      normal)] when it returns true *)
  intersection_test : Body → Body → option (Vec3 * Vec3);
  (** [System::collsion_detect(prev_pos, prev_vel)] *)
  sys_collsion_detect :
    SysMem → list PosState → list VelState →
    bool * SysMem * list PosState * list VelState;
  (** [System::contact_detect(count, shock)] *)
  sys_contact_detect : SysMem → Z → bool → bool * SysMem;
  (** [System::topological_tarjan] *)
  sys_topological_tarjan : SysMem → SysMem;
  (** the values that successive calls of [rand()] return *)
  rand_seq : nat → nat;
  (** the contents of a freshly declared, uninitialised buffer slot *)
  uninit_pos : PosState;
  uninit_vel : VelState;
}.

(** ** The simulation driver: operations *)

Definition MAX_COLLISIONS : Z := 5.
Definition MAX_CONTACTS : Z := 10.
Definition MAX_SHOCK_PROP : Z := 1.

(** The number of rounds of the shuffle loop, [for(ii = 0; ii < 15; ii++)]. *)
Definition SHUFFLE_ROUNDS : nat := 15.

Section Driver.
Context {P : Payload} {X : Externals P}.

(** [sys->num_bodies()] *)
Definition num_bodies (m : Machine) : nat := length (sys_bVector (mem m)).

(** [for(int i = 0; i < sys->num_bodies(); ++i) body]; no loop body of the
    driver changes the length of [sys->bVector]. *)
Definition for_each_body (body : nat → Machine → Machine) (m : Machine) : Machine :=
  fold_left (λ acc i, body i acc) (seq 0 (num_bodies m)) m.

(** Modelled from the spec: [System::get_state_pos(dst, i)] is missing; it
    copies the position state of the system's body [i] to [dst], which the
    driver always takes as slot [i] of [prev_pos]. *)
Definition get_state_pos (i : nat) (m : Machine) : Machine :=
  emit (EvGetStatePos i)
    match sys_body (mem m) i with
    | Some b => set_prev_pos (<[i := pos_state b]> (prev_pos m)) m
    | None => m
    end.

(** Modelled from the spec: [System::get_state_vel(dst, i)] is missing;
    the same copy for the velocity state. *)
Definition get_state_vel (i : nat) (m : Machine) : Machine :=
  emit (EvGetStateVel i)
    match sys_body (mem m) i with
    | Some b => set_prev_vel (<[i := vel_state b]> (prev_vel m)) m
    | None => m
    end.

(** Modelled from the spec: [System::set_state_pos(src, i)] is missing; it
    writes slot [i] of the buffer to the system's body [i], re-normalising
    the orientation on the way. *)
Definition set_state_pos (i : nat) (m : Machine) : Machine :=
  emit (EvSetStatePos i)
    match prev_pos m !! i with
    | Some x =>
        set_mem (update_sys_body (set_pos_state (normalize_pos x)) i (mem m)) m
    | None => m
    end.

(** Modelled from the spec: [System::set_state_vel(src, i)] is missing. *)
Definition set_state_vel (i : nat) (m : Machine) : Machine :=
  emit (EvSetStateVel i)
    match prev_vel m !! i with
    | Some v => set_mem (update_sys_body (set_vel_state v) i (mem m)) m
    | None => m
    end.

(** Modelled from the spec: [integrator->integrate_vel( *sys, dt, i)] is
    missing; it advances the momenta of the system's body [i] alone. *)
Definition integrate_vel (i : nat) (m : Machine) : Machine :=
  emit (EvIntegrateVel i)
    (set_mem (update_sys_body (λ b, set_vel_state (euler_vel b) b) i (mem m)) m).

(** Modelled from the spec: [integrator->integrate_pos( *sys, dt, i)] is
    missing; it advances the pose of the system's body [i] alone. *)
Definition integrate_pos (i : nat) (m : Machine) : Machine :=
  emit (EvIntegratePos i)
    (set_mem (update_sys_body (λ b, set_pos_state (euler_pos b) b) i (mem m)) m).

Definition zero_forces (m : Machine) : Machine :=
  emit EvZeroForces (set_mem (sys_zero_forces (mem m)) m).

Definition add_gravity (m : Machine) : Machine :=
  emit EvAddGravity (set_mem (sys_add_gravity (mem m)) m).

(** [sys->collsion_detect(prev_pos, prev_vel)]: the method gets both
    buffers by pointer and may write to them. *)
Definition collsion_detect (m : Machine) : bool * Machine :=
  let '(hit, s, pp, pv) := sys_collsion_detect (mem m) (prev_pos m) (prev_vel m) in
  (hit, emit (EvCollsionDetect hit) (set_prev_vel pv (set_prev_pos pp (set_mem s m)))).

(** [sys->contact_detect(count, shock)] *)
Definition contact_detect (count : Z) (shock : bool) (m : Machine) : bool * Machine :=
  let '(hit, s) := sys_contact_detect (mem m) count shock in
  (hit, emit (EvContactDetect count shock hit) (set_mem s m)).

Definition topological_tarjan (m : Machine) : Machine :=
  emit EvTarjan (set_mem (sys_topological_tarjan (mem m)) m).

(** Modelled from the spec: [System::get_bodies(bVector)] is missing; the
    call site says what it does: it updates the local copy of the
    system's vector of bodies. *)
Definition get_bodies (m : Machine) : Machine :=
  emit EvGetBodies (set_bVector (sys_bVector (mem m)) m).

(** *** [create_contact_graph] *)

(** [bVector[i]->in_contact_list.clear()] *)
Definition clear_contacts (i : nat) (m : Machine) : Machine :=
  update_local_body (set_in_contact_list []) i m.

(** [c.b = bVector[k]; c.p = p; c.normal = normal;
     bVector[i]->in_contact_list.push_back(c)] *)
Definition push_contact (c : ContactInfo) (b : Body) : Body :=
  set_in_contact_list (in_contact_list b ++ [c]) b.

(** One round of the inner loop:
    [if(k != i && bVector[k]->intersection_test(bVector[i], p, normal))]. *)
Definition probe_pair (i k : nat) (m : Machine) : Machine :=
  if (k =? i)%nat then m
  else
    match bVector m !! k, local_body m k, local_body m i with
    | Some pk, Some bk, Some bi =>
        match intersection_test bk bi with
        | Some (p, normal) =>
            emit (EvIntersectionTest k i true)
              (update_local_body (push_contact (mkContactInfo pk p normal)) i m)
        | None => emit (EvIntersectionTest k i false) m
        end
    | _, _, _ => m
    end.

(** The two [get_state] calls that open the probe of body [i]. *)
Definition probe_save (i : nat) (m : Machine) : Machine :=
  get_state_vel i (get_state_pos i m).

(** [if(is_initial) integrate_vel(i); integrate_pos(i);] *)
Definition probe_advance (is_initial : bool) (i : nat) (m : Machine) : Machine :=
  integrate_pos i (if is_initial then integrate_vel i m else m).

(** What [probe_advance] makes of the body it is applied to. *)
Definition advanced (is_initial : bool) (b : Body) : Body :=
  let b1 := if is_initial then set_vel_state (euler_vel b) b else b in
  set_pos_state (euler_pos b1) b1.

(** The two [set_state] calls that close the probe of body [i]. *)
Definition probe_restore (i : nat) (m : Machine) : Machine :=
  set_state_vel i (set_state_pos i m).

(** The body of the outer loop, guarded by [bVector[i]->inv_mass != 0]. *)
Definition probe_body (is_initial : bool) (i : nat) (m : Machine) : Machine :=
  match local_body m i with
  | Some bi =>
      if movable bi then
        probe_restore i
          (for_each_body (probe_pair i)
             (probe_advance is_initial i (probe_save i m)))
      else m
  | None => m
  end.

(** [void create_contact_graph(double *prev_pos, double *prev_vel,
    bool is_initial)]; the two buffers are the machine's. *)
Definition create_contact_graph (is_initial : bool) (m : Machine) : Machine :=
  let m := for_each_body clear_contacts m in
  let m := for_each_body (probe_body is_initial) m in
  let m := topological_tarjan m in
  get_bodies m.

(** *** [idle_func] *)

(** One round of the shuffle loop.  [rand() % sys->num_bodies()] is
    undefined in C when the system is empty; every scene has bodies. *)
Definition swap_attempt (m : Machine) : Machine :=
  let n := num_bodies m in
  let jj := (rand_seq (rand_calls m) mod n)%nat in
  let kk := (rand_seq (S (rand_calls m)) mod n)%nat in
  let m := set_rand_calls (S (S (rand_calls m))) m in
  let v := sys_bVector (mem m) in
  match v !! jj, v !! kk, sys_body (mem m) jj, sys_body (mem m) kk with
  | Some pj, Some pk, Some bj, Some bk =>
      if positive_inv_mass bj && positive_inv_mass bk then
        (* temp = v[jj]; v[jj] = v[kk]; v[kk] = temp; *)
        emit (EvSwapAttempt jj kk true)
          (set_mem (set_sys_bVector (<[kk := pj]> (<[jj := pk]> v)) (mem m)) m)
      else emit (EvSwapAttempt jj kk false) m
  | _, _, _, _ => emit (EvSwapAttempt jj kk false) m
  end.

(** [for(int ii = 0; ii < 15; ii++) { ... }] *)
Definition shuffle (m : Machine) : Machine :=
  fold_left (λ acc _, swap_attempt acc) (seq 0 SHUFFLE_ROUNDS) m.

(** [double prev_pos[sys->size_pos()]; double prev_vel[sys->size_vel()];]
    one slot per body, uninitialised. *)
Definition declare_buffers (m : Machine) : Machine :=
  set_prev_vel (replicate (num_bodies m) uninit_vel)
    (set_prev_pos (replicate (num_bodies m) uninit_pos) m).

(** The loop under the comment "get x and v". *)
Definition snapshot (m : Machine) : Machine :=
  for_each_body (λ i acc, get_state_vel i (get_state_pos i acc)) m.

(** The loops "set the system back to x and v". *)
Definition restore_all (m : Machine) : Machine :=
  for_each_body (λ i acc, set_state_vel i (set_state_pos i acc)) m.

(** [zero_forces(); add_gravity();] followed by the loop that integrates
    velocity then position of every body. *)
Definition integrate_all (m : Machine) : Machine :=
  for_each_body (λ i acc, integrate_pos i (integrate_vel i acc))
    (add_gravity (zero_forces m)).

(** The body of the collision [while] loop after [count++]. *)
Definition collision_pass (m : Machine) : Machine :=
  integrate_all (restore_all m).

(** [while(sys->collsion_detect(prev_pos, prev_vel) && count < MAX_COLLISIONS)
    { count++; ... }].  [fuel] bounds the recursion; [collision_loop_fuel]
    shows that [MAX_COLLISIONS - count] is enough for the last branch never to be
    taken. *)
Fixpoint collision_loop (fuel : nat) (count : Z) (m : Machine) : Z * Machine :=
  let '(hit, m1) := collsion_detect m in
  if hit && (count <? MAX_COLLISIONS) then
    match fuel with
    | S fuel' => collision_loop fuel' (count + 1) (collision_pass m1)
    | O => (count, m1)
    end
  else (count, m1).

(** [for(; sys->contact_detect(count, shock) && count < limit; count++)
    create_contact_graph(prev_pos, prev_vel, false);] which is the shape of
    both the contact loop ([shock = false], [limit = MAX_CONTACTS]) and the
    shock-propagation loop ([shock = true], [limit = MAX_SHOCK_PROP]). *)
Fixpoint contact_loop (shock : bool) (limit : Z) (fuel : nat) (count : Z)
    (m : Machine) : Z * Machine :=
  let '(hit, m1) := contact_detect count shock m in
  if hit && (count <? limit) then
    match fuel with
    | S fuel' =>
        contact_loop shock limit fuel' (count + 1) (create_contact_graph false m1)
    | O => (count, m1)
    end
  else (count, m1).

(** The fuel that a loop entered at [count] with bound [limit] needs. *)
Definition fuel_for (limit count : Z) : nat := Z.to_nat (limit - count).

(** The tick up to the collision loop: shuffle, buffers, snapshot,
    tentative integration. *)
Definition tick_prologue (m : Machine) : Machine :=
  integrate_all (snapshot (declare_buffers (shuffle m))).

(** "find and resolve collisions": [int count = 0; while ...] *)
Definition collision_phase (m : Machine) : Z * Machine :=
  collision_loop (fuel_for MAX_COLLISIONS 0) 0 m.

(** From the restore after the collision loop to the velocity
    integration that precedes the contact loop. *)
Definition contact_setup (m : Machine) : Machine :=
  let m := restore_all m in
  let m := add_gravity (zero_forces m) in
  let m := create_contact_graph true m in
  for_each_body integrate_vel m.

(** "resolve the contacts in the contact graph": [for(count = 0; ...)] *)
Definition contact_phase (m : Machine) : Z * Machine :=
  contact_loop false MAX_CONTACTS (fuel_for MAX_CONTACTS 0) 0 m.

(** [if(count == MAX_CONTACTS){ for(; ...) ... }] *)
Definition shock_phase (count : Z) (m : Machine) : Machine :=
  if count =? MAX_CONTACTS then
    snd (contact_loop true MAX_SHOCK_PROP (fuel_for MAX_SHOCK_PROP count) count m)
  else m.

(** From the contact loop to the end of the tick. *)
Definition contact_resolution (m : Machine) : Machine :=
  let '(count, m) := contact_phase m in
  let m := create_contact_graph false m in
  let m := shock_phase count m in
  for_each_body integrate_pos m.

(** [static void idle_func(int value)], without the timer, frame-rate and
    redisplay calls around the simulation step. *)
Definition idle_func (m : Machine) : Machine :=
  let m := tick_prologue m in
  let '(_, m) := collision_phase m in
  contact_resolution (contact_setup m).

End Driver.

(** The steps of the probe of one body other than the intersection
    tests, and their sequences. *)
Inductive body_op {P : Payload} {X : Externals P} : (Machine → Machine) → Prop :=
| op_get_state_pos i : body_op (get_state_pos i)
| op_get_state_vel i : body_op (get_state_vel i)
| op_set_state_pos i : body_op (set_state_pos i)
| op_set_state_vel i : body_op (set_state_vel i)
| op_integrate_vel i : body_op (integrate_vel i)
| op_integrate_pos i : body_op (integrate_pos i)
| op_skip : body_op (λ m, m)
| op_then F G : body_op F → body_op G → body_op (λ m, G (F m)).

(** *** Reading the heap *)

(** The (x,v) of a body: what the two [get_state] calls copy. *)
Definition body_state {P : Payload} (b : Body) : PosState * VelState :=
  (pos_state b, vel_state b).

(** The (x,v), the [inv_mass] and the contact list of the body object at
    address [p], if there is one. *)
Definition state_at {P : Payload} (m : Machine) (p : nat) :
    option (PosState * VelState) :=
  body_state <$> heap (mem m) !! p.

Definition mass_at {P : Payload} (m : Machine) (p : nat) : option Q :=
  inv_mass <$> heap (mem m) !! p.

Definition contacts_at {P : Payload} (m : Machine) (p : nat) :
    option (list ContactInfo) :=
  in_contact_list <$> heap (mem m) !! p.

(** The object at address [p], if it is a fixed body, is recorded as
    resting on nothing. *)
Definition fixed_without_contacts {P : Payload} (m : Machine) (p : nat) : Prop :=
  ∀ b : Body,
    heap (mem m) !! p = Some b → movable b = false → in_contact_list b = [].

(** The object at address [p] has an empty contact list. *)
Definition without_contacts {P : Payload} (m : Machine) (p : nat) : Prop :=
  ∀ b : Body, heap (mem m) !! p = Some b → in_contact_list b = [].

(** *** Reading the log *)

(** What [m'] has logged beyond [m]. *)
Definition log_since {P : Payload} (m m' : Machine) : list Event :=
  drop (length (trace m)) (trace m').

(** The events of the per-body calls: state copies, integration steps and
    intersection tests. *)
Definition is_body_op (e : Event) : bool :=
  match e with
  | EvGetStatePos _ | EvGetStateVel _ | EvSetStatePos _ | EvSetStateVel _
  | EvIntegrateVel _ | EvIntegratePos _ | EvIntersectionTest _ _ _ => true
  | _ => false
  end.

(** [m'] has the log of [m] followed by further events, of which those
    selected by [keep] are [seen], in this order. *)
Definition grows {P : Payload} (keep : Event → bool) (m m' : Machine)
    (seen : list Event) : Prop :=
  ∃ evs, trace m' = trace m ++ evs ∧ List.filter keep evs = seen.

(** [keep] selects none of the per-body calls. *)
Definition skips_body_ops (keep : Event → bool) : Prop :=
  ∀ e, is_body_op e = true → keep e = false.

(** The calls made by one tick started in [m]. *)
Definition tick_log {P : Payload} {X : Externals P} (m : Machine) : list Event :=
  log_since m (idle_func m).

(** The tick up to the entry of the contact loop. *)
Definition tick_to_contact_loop {P : Payload} {X : Externals P}
    (m : Machine) : Machine :=
  contact_setup (snd (collision_phase (tick_prologue m))).

(** The value of [count] when the contact loop of the tick is left. *)
Definition contact_exit_count {P : Payload} {X : Externals P}
    (m : Machine) : Z :=
  fst (contact_phase (tick_to_contact_loop m)).

Definition is_swap_attempt (e : Event) : bool :=
  match e with EvSwapAttempt _ _ _ => true | _ => false end.

(** A read of a body's state into a buffer slot. *)
Definition is_state_read (e : Event) : bool :=
  match e with EvGetStatePos _ | EvGetStateVel _ => true | _ => false end.

(** A call [contact_detect(count, false)]. *)
Definition is_contact_pass (e : Event) : bool :=
  match e with EvContactDetect _ false _ => true | _ => false end.

(** A call [contact_detect(count, true)]. *)
Definition is_shock_pass (e : Event) : bool :=
  match e with EvContactDetect _ true _ => true | _ => false end.

(** The events by which the contact phase is read: every call of
    [contact_detect], and [topological_tarjan], which ends each call of
    [create_contact_graph]. *)
Definition contact_view (e : Event) : bool :=
  match e with EvContactDetect _ _ _ | EvTarjan => true | _ => false end.

(** The events by which the collision loop is read: [collsion_detect]
    and the two force calls that sit in the middle of each pass. *)
Definition collision_view (e : Event) : bool :=
  match e with
  | EvCollsionDetect _ | EvZeroForces | EvAddGravity => true
  | _ => false
  end.

(** The bodies [k] that a log shows tested against body [i]. *)
Definition tested_against (i : nat) (log : list Event) : list nat :=
  flat_map (λ e, match e with
                 | EvIntersectionTest k i' _ => if (i' =? i)%nat then [k] else []
                 | _ => []
                 end) log.

Fixpoint first_index (f : Event → bool) (log : list Event) : option nat :=
  match log with
  | [] => None
  | e :: log' => if f e then Some O else S <$> first_index f log'
  end.

(** Some event of kind [f] is logged, and it is logged before every event
    of kind [g]. *)
Definition occurs_before (f g : Event → bool) (log : list Event) : bool :=
  match first_index f log, first_index g log with
  | Some a, Some b => (a <? b)%nat
  | Some _, None => true
  | None, _ => false
  end.

(** The log of one pass of the contact loop that applied an impulse at
    [count]: the call and the rebuild of the graph that follows it. *)
Definition contact_round (shock : bool) (count : Z) : list Event :=
  [EvContactDetect count shock true; EvTarjan].

(** [k] such rounds, for [count = from, from + 1, ...]. *)
Definition contact_rounds (shock : bool) (from : Z) (k : nat) : list Event :=
  flat_map (λ j, contact_round shock (from + Z.of_nat j)) (seq 0 k).

(** The log of [k] passes of the collision loop, as seen through
    [collision_view]. *)
Definition collision_rounds (k : nat) : list Event :=
  concat (replicate k [EvCollsionDetect true; EvZeroForces; EvAddGravity]).

(** *** The three statements of the specification that the code does not
    bear out, as the specification words them *)

(** "The outer loop repeats contact_detect up to MAX_CONTACTS = 10 times":
    a tick logs at most ten calls [contact_detect(count, false)]. *)
Definition spec_contact_pass_bound (log : list Event) : Prop :=
  (length (List.filter is_contact_pass log) ≤ Z.to_nat MAX_CONTACTS)%nat.

(** "1. Snapshot (x,v) of all bodies.  2. Random-swap a handful of body
    indices": the snapshot is read before any swap is attempted. *)
Definition spec_snapshot_first (log : list Event) : Prop :=
  occurs_before is_state_read is_swap_attempt log = true.

(** "Restore body i to its pre-tick state.  Integrate body i alone": when
    the integration of body [i] starts, the body holds the (x,v) that slot
    [i] of the two buffers held on entry. *)
Definition spec_probe_from_snapshot {P : Payload} {X : Externals P}
    (i : nat) (m : Machine) : Prop :=
  ∃ b : Body,
    sys_body (mem (probe_save i m)) i = Some b ∧
    prev_pos m !! i = Some (pos_state b) ∧
    prev_vel m !! i = Some (vel_state b).

(** *** Conditions on the collaborators and on the machine *)

(** The part of a body that Tarjan's algorithm has no business with. *)
Definition body_core {P : Payload} (b : Body) :
    Q * PosState * VelState * list ContactInfo :=
  (inv_mass b, pos_state b, vel_state b, in_contact_list b).

(** [topological_tarjan] may reorder the vectors and write its scratch
    fields, but leaves mass, state and contact list of every body alone. *)
Definition tarjan_frame {P : Payload} (X : Externals P) : Prop :=
  ∀ (s : SysMem) (p : nat),
    body_core <$> (heap (sys_topological_tarjan s) !! p) = body_core <$> (heap s !! p).

(** Every orientation is already normalised, so that writing a state
    back does not change it. *)
Definition normalised {P : Payload} {X : Externals P} (m : Machine) : Prop :=
  ∀ (p : nat) (b : Body),
    heap (mem m) !! p = Some b → normalize_pos (pos_state b) = pos_state b.

(** Both buffers have a slot for every body of the system. *)
Definition buffers_fit {P : Payload} (m : Machine) : Prop :=
  (length (sys_bVector (mem m)) ≤ length (prev_pos m))%nat ∧
  (length (sys_bVector (mem m)) ≤ length (prev_vel m))%nat.

End Engine.

(** ** A one-dimensional instance

    Bodies live on a vertical line: the position state is a height, the
    velocity state a vertical momentum.  A movable body loses one unit of
    momentum per velocity step and moves by its momentum per position
    step; the probed body touches another one when it is at most one unit
    above it. *)

Module Toy.
Import Engine.

#[export] Instance line : Payload :=
  {| PosState := Z; VelState := Z; Vec3 := unit; Extra := unit |}.

Definition fall_vel (b : Body) : Z :=
  if movable b then vel_state b - 1 else vel_state b.

Definition fall_pos (b : Body) : Z :=
  if movable b then pos_state b + vel_state b else pos_state b.

Definition touches (bk bi : Body) : option (unit * unit) :=
  let d := pos_state bi - pos_state bk in
  if (0 <=? d) && (d <=? 1) then Some (tt, tt) else None.

(** The collaborators of the instance.  [collide] and [contact] say when
    the two detectors report an impulse (they leave the state alone), and
    [rnd] is the sequence of random numbers. *)
Definition world (collide : bool) (contact : Z → bool → bool)
    (rnd : nat → nat) : Externals line :=
  {| normalize_pos := λ x, x;
     euler_vel := fall_vel;
     euler_pos := fall_pos;
     sys_zero_forces := λ s, s;
     sys_add_gravity := λ s, s;
     intersection_test := touches;
     sys_collsion_detect := λ s pp pv, (collide, s, pp, pv);
     sys_contact_detect := λ s count shock, (contact count shock, s);
     sys_topological_tarjan := λ s, s;
     rand_seq := rnd;
     uninit_pos := 0;
     uninit_vel := 0 |}.

Definition floor : Body := mkBody 0 0 0 [] tt.
Definition box (height momentum : Z) : Body := mkBody 1 height momentum [] tt.

(** A floor and two boxes above it, at rest, before any tick. *)
Definition two_boxes : Machine :=
  {| mem := {| heap := [floor; box 5 0; box 9 0];
               sys_bVector := [0; 1; 2]%nat;
               top_sorted := [];
               SCC_num := 0 |};
     bVector := [0; 1; 2]%nat;
     prev_pos := [];
     prev_vel := [];
     rand_calls := 0;
     trace := [] |}.

(** The same with the first box two units above the floor. *)
Definition low_boxes : Machine :=
  {| mem := {| heap := [floor; box 2 0; box 9 0];
               sys_bVector := [0; 1; 2]%nat;
               top_sorted := [];
               SCC_num := 0 |};
     bVector := [0; 1; 2]%nat;
     prev_pos := [];
     prev_vel := [];
     rand_calls := 0;
     trace := [] |}.

(** The first box of [low_boxes] once the tick has given it momentum -1
    and recorded it as resting on the floor (the object at address 0),
    and the same box advanced by one position step. *)
Definition resting_box : Body := mkBody 1 2 (-1) [mkContactInfo 0 tt tt] tt.
Definition lowered_box : Body := mkBody 1 1 (-1) [mkContactInfo 0 tt tt] tt.

(** [low_boxes] in the middle of its first tick, when the contact loop
    calls [create_contact_graph] for the first time: the buffers hold the
    heights 0, 2, 9 and the momenta 0 of the start of the tick, the
    velocity integration has given both boxes momentum -1, and the
    initial contact graph has the first box resting on the floor. *)
Definition mid_tick : Machine :=
  {| mem := {| heap := [floor; resting_box; box 9 (-1)];
               sys_bVector := [0; 1; 2]%nat;
               top_sorted := [];
               SCC_num := 0 |};
     bVector := [0; 1; 2]%nat;
     prev_pos := [0; 2; 9];
     prev_vel := [0; 0; 0];
     rand_calls := 0;
     trace := [] |}.

(** Random numbers that always pick the floor, so that no swap is made. *)
Definition pick_floor (n : nat) : nat := 0.

(** Random numbers that make the first round of the shuffle pick the two
    boxes (indices 1 and 2) and every later round pick the floor. *)
Definition pick_boxes_once (n : nat) : nat :=
  match n with 0 => 1 | 1 => 2 | _ => 0 end%nat.

(** A detector that always applies an impulse, and one that never does. *)
Definition always : Z → bool → bool := λ _ _, true.
Definition never : Z → bool → bool := λ _ _, false.

End Toy.

(** ** The rounds of the collision loop and of the contact loop *)

Module Rounds.
Import Engine.

Section Rounds.
Context {P : Payload} {X : Externals P}.

(** One round of the collision loop entered in [m]: the call of
    [collsion_detect] and, after it, the body of the loop. *)
Definition collision_round (m : Machine) : Machine :=
  collision_pass (snd (collsion_detect m)).

(** The machine in which call number [j] of [collsion_detect] is made,
    counting from 0, when the loop is entered in [m] and every earlier
    call was followed by a pass. *)
Definition collision_entry (m : Machine) (j : nat) : Machine :=
  Nat.iter j collision_round m.

(** The calls of one pass of the collision loop made in [m]: the
    restore of every body, the two force calls, the integration of every
    body. *)
Definition collision_pass_events (m : Machine) : list Event :=
  flat_map (λ i, [EvSetStatePos i; EvSetStateVel i]) (seq 0 (num_bodies m)) ++
  [EvZeroForces; EvAddGravity] ++
  flat_map (λ i, [EvIntegrateVel i; EvIntegratePos i])
           (seq 0 (num_bodies (add_gravity (zero_forces (restore_all m))))).

(** One round of the contact loop (or of the shock-propagation loop)
    entered in [m] at [count]: the call of [contact_detect] and, after
    it, the rebuild of the contact graph. *)
Definition contact_step (shock : bool) (count : Z) (m : Machine) : Machine :=
  create_contact_graph false (snd (contact_detect count shock m)).

(** The machine in which the call of [contact_detect] at [from + j] is
    made, when the loop is entered in [m] at [from] and every earlier
    call was followed by a rebuild. *)
Fixpoint contact_entry (shock : bool) (from : Z) (m : Machine) (j : nat) : Machine :=
  match j with
  | O => m
  | S j' => contact_step shock (from + Z.of_nat j') (contact_entry shock from m j')
  end.

(** The calls of one rebuild of the contact graph made in [m]. *)
Definition rebuild_events (m : Machine) : list Event :=
  log_since m (create_contact_graph false m).

End Rounds.

End Rounds.

(** * Further code of the two files *)

(** ** The scene builders: their loops *)

Module SceneLoops.
Import Scene.

(** The pushes of [init_high_pile], with the bound [iter] of its three
    nested loops as a parameter (the source sets [iter = 2]): the floor,
    then the eight bodies of the innermost loop body, once per round. *)
Definition init_high_pile_pushes (iter : nat) : list Q :=
  0%Q ::
  flat_map (λ _ : nat,
    flat_map (λ _ : nat,
      flat_map (λ _ : nat, pile8) (seq 0 iter)) (seq 0 iter)) (seq 0 iter).

End SceneLoops.

(** ** The driver: resetting the bodies, and further conditions *)

Module BodyReset.
Import Engine.

Section BodyReset.
Context {P : Payload}.

(** [Body::reset()], whose code is not at hand: what it makes of one
    body. *)
Variable reset : Body → Body.

(** [static void clear_data(void)]:
    [for(ii = 0; ii < sys->num_bodies(); ii++) bVector[ii]->reset();]
    The bound is the system's count of bodies and the vector is the
    file's own; where that vector is shorter the C++ code reads past its
    end, and [update_local_body] leaves the machine alone. *)
Definition clear_data (m : Machine) : Machine :=
  for_each_body (update_local_body reset) m.

(** [static void remap_GUI()]: [int ii, size = sys->num_bodies();
    for(ii = 0; ii < size; ii++) bVector[ii]->reset();] *)
Definition remap_GUI (m : Machine) : Machine :=
  let size := num_bodies m in
  fold_left (λ acc ii, update_local_body reset ii acc) (seq 0 size) m.

End BodyReset.

End BodyReset.

(** ** The driver: further conditions and readings *)

Module Conditions.
Import Engine.

(** [zero_forces] and [add_gravity] write the force accumulators: they
    leave the system's vector of bodies and the (x,v) of every body
    alone. *)
Definition forces_frame {P : Payload} (X : Externals P) : Prop :=
  ∀ (s : SysMem) (p : nat),
    sys_bVector (sys_zero_forces s) = sys_bVector s ∧
    sys_bVector (sys_add_gravity s) = sys_bVector s ∧
    body_state <$> heap (sys_zero_forces s) !! p = body_state <$> heap s !! p ∧
    body_state <$> heap (sys_add_gravity s) !! p = body_state <$> heap s !! p.

(** The start of a tick after the shuffle: buffers, snapshot, tentative
    integration of every body. *)
Definition tentative {P : Payload} {X : Externals P} (m : Machine) : Machine :=
  integrate_all (snapshot (declare_buffers m)).

(** [collsion_detect], called in [m], finds no collision and writes
    neither the system nor the buffers. *)
Definition no_collision {P : Payload} {X : Externals P} (m : Machine) : Prop :=
  sys_collsion_detect (mem m) (prev_pos m) (prev_vel m) =
  (false, mem m, prev_pos m, prev_vel m).

(** The tick from the declaration of the buffers to the loops "set the
    system back to x and v" that follow the collision loop. *)
Definition tentative_step {P : Payload} {X : Externals P} (m : Machine) : Machine :=
  restore_all (snd (collision_phase (tentative m))).

(** At most one index of the system's vector holds a body of positive
    [inv_mass]. *)
Definition single_movable {P : Payload} (m : Machine) : Prop :=
  ∀ i j bi bj,
    sys_body (mem m) i = Some bi → sys_body (mem m) j = Some bj →
    positive_inv_mass bi = true → positive_inv_mass bj = true → i = j.

(** The shuffle may put [p'] where [p] was: they are the same body, or
    two bodies of positive [inv_mass]. *)
Definition exchangeable {P : Payload} (m : Machine) (p p' : nat) : Prop :=
  p' = p ∨
  ∃ b b' : Body,
    heap (mem m) !! p = Some b ∧ heap (mem m) !! p' = Some b' ∧
    positive_inv_mass b = true ∧ positive_inv_mass b' = true.

(** [contact_detect] applies impulses to bodies: it leaves the system's
    vector of bodies as it is. *)
Definition contact_detect_frame {P : Payload} (X : Externals P) : Prop :=
  ∀ (s : SysMem) (count : Z) (shock : bool),
    sys_bVector (snd (sys_contact_detect s count shock)) = sys_bVector s.

(** The file's [bVector] is the system's vector. *)
Definition synchronised {P : Payload} (m : Machine) : Prop :=
  bVector m = sys_bVector (mem m).

(** Every entry of the contact list of the object at address [p] names
    an object that [v] points to, other than [p] itself. *)
Definition contacts_among {P : Payload} (v : list nat) (p : nat) (m : Machine) : Prop :=
  ∀ (b : Body) (c : ContactInfo),
    heap (mem m) !! p = Some b → c ∈ in_contact_list b →
    ci_b c ∈ v ∧ ci_b c ≠ p.

(** The bodies that the contact list of [b] names. *)
Definition contact_targets {P : Payload} (b : Body) : list nat :=
  ci_b <$> in_contact_list b.

(** The contact list of the object at address [p] names no body twice. *)
Definition targets_distinct {P : Payload} (p : nat) (m : Machine) : Prop :=
  ∀ b : Body, heap (mem m) !! p = Some b → NoDup (contact_targets b).

(** The contact list of the object at address [p] names no body twice,
    and every body it names is [v[k]] for an index [k] of [l]. *)
Definition named_from {P : Payload} (v : list nat) (l : list nat) (p : nat)
    (m : Machine) : Prop :=
  ∀ b : Body, heap (mem m) !! p = Some b →
    NoDup (contact_targets b) ∧
    ∀ t, t ∈ contact_targets b → ∃ k, k ∈ l ∧ v !! k = Some t.

End Conditions.

(** ** The mouse callback *)

Module Input.

(** The constants of [<GLUT/glut.h>] that [mouse_func] compares with. *)
Definition GLUT_DOWN : Z := 0.
Definition GLUT_UP : Z := 1.
Definition GLUT_ACTIVE_SHIFT : Z := 1.

(** The file-static variables that [mouse_func] reads and writes; the
    three arrays have one [int] per mouse button. *)
Record Mouse : Type := mkMouse {
  mouse_down : list Z;
  mouse_release : list Z;
  mouse_shiftclick : list Z;
  omx : Z; omy : Z;
  mx : Z; my : Z;
  hmx : Z; hmy : Z;
}.

(** The variables as the program starts: statics are zero. *)
Definition mouse_start : Mouse :=
  mkMouse [0; 0; 0] [0; 0; 0] [0; 0; 0] 0 0 0 0 0 0.

(** The [int] value of a C comparison. *)
Definition c_truth (b : bool) : Z := if b then 1 else 0.

(** [a[i]] read as a condition.  An index outside [a] is undefined in
    C; it reads as 0 here, and a write to it ([<[i := _]>]) does
    nothing. *)
Definition is_set (a : list Z) (i : nat) : bool :=
  negb (default 0 (a !! i) =? 0).

(** [static void mouse_func(int button, int state, int x, int y)];
    [mods] is what [glutGetModifiers()] returns during the callback.
    The three conditions read [mouse_down] before the last statement
    writes it. *)
Definition mouse_func (mods : Z) (button : nat) (state x y : Z) (s : Mouse) : Mouse :=
  let left_held := is_set (mouse_down s) 0 in
  let held := is_set (mouse_down s) button in
  {| mouse_down := <[button := c_truth (state =? GLUT_DOWN)]> (mouse_down s);
     mouse_release :=
       if held then <[button := c_truth (state =? GLUT_UP)]> (mouse_release s)
       else mouse_release s;
     mouse_shiftclick :=
       if held
       then <[button := c_truth (mods =? GLUT_ACTIVE_SHIFT)]> (mouse_shiftclick s)
       else mouse_shiftclick s;
     omx := x; omy := y; mx := x; my := y;
     hmx := if left_held then hmx s else x;
     hmy := if left_held then hmy s else y |}.

(** One call of the callback by GLUT. *)
Record MouseEvent : Type := mkMouseEvent {
  ev_mods : Z;
  ev_button : nat;
  ev_state : Z;
  ev_x : Z;
  ev_y : Z;
}.

Definition deliver (s : Mouse) (e : MouseEvent) : Mouse :=
  mouse_func (ev_mods e) (ev_button e) (ev_state e) (ev_x e) (ev_y e) s.

(** The callbacks of a list of events, in order. *)
Definition deliver_all (evs : list MouseEvent) (s : Mouse) : Mouse :=
  fold_left deliver evs s.

(** An event for one of the three buttons that is not the release of the
    left one. *)
Definition keeps_left_held (e : MouseEvent) : Prop :=
  (ev_button e < 3)%nat ∧ (ev_button e = 0%nat → ev_state e = GLUT_DOWN).

End Input.

(** ** Writing frames to files: [post_display] *)

Module Frames.

Definition FRAME_INTERVAL : Z := 3.

(** [char filename[13]] *)
Definition FILENAME_SIZE : nat := 13.

Definition INT_MAX : Z := 2147483647.

(** The decimal digits of a non-negative number, most significant first;
    one digit per round, and ten rounds cover every [int]. *)
Fixpoint digits (rounds : nat) (n : Z) : list Z :=
  match rounds with
  | O => []
  | S rounds' =>
      if n <? 10 then [n] else digits rounds' (n / 10) ++ [n mod 10]
  end.

Definition digit_char (d : Z) : ascii := ascii_of_nat (48 + Z.to_nat d).

(** The conversion [%.5i] of [printf] on an [int]: a minus sign for a
    negative value, then the digits of the magnitude, with zeros in
    front of them up to five digits. *)
Definition format_5i (v : Z) : list ascii :=
  let ds := digits 10 (Z.abs v) in
  (if v <? 0 then ["-"%char] else []) ++
  replicate (5 - length ds) "0"%char ++ map digit_char ds.

(** What [sprintf(filename, "img%.5i.png", index)] produces. *)
Definition frame_file (index : Z) : list ascii :=
  list_ascii_of_string "img" ++ format_5i index ++ list_ascii_of_string ".png".

(** The bytes that [sprintf] writes: the characters and the final NUL. *)
Definition sprintf_size (name : list ascii) : nat := S (length name).

Definition INT_MIN : Z := -2147483648.

(** [int] arithmetic as the machine does it: a result outside the range
    wraps around (in C the overflow of [frame_number++] is undefined). *)
Definition wrap_int (z : Z) : Z := (z - INT_MIN) mod 4294967296 + INT_MIN.

(** The two counters of the file that [post_display] uses, and the names
    of the files it has written, oldest first. *)
Record Dump : Type := mkDump {
  dump_frames : Z;
  frame_number : Z;
  saved : list (list ascii);
}.

(** How a call of [post_display] ends: it returns, or it leaves the
    program through [exit], or [sprintf] writes more bytes than
    [filename] has, which is undefined behaviour. *)
Inductive Outcome : Type :=
| Continues (s : Dump)
| Exits (code : Z)
| Overruns (name : list ascii).

(** [static void post_display(void)], without the calls into OpenGL;
    [malloc_ok] says whether the [malloc] of the pixel buffer succeeds
    in this call; [%] and [/] on [int] round towards zero. *)
Definition post_display (malloc_ok : bool) (s : Dump) : Outcome :=
  if dump_frames s =? 0 then Continues s
  else if Z.rem (frame_number s) FRAME_INTERVAL =? 0 then
    if malloc_ok then
      let name := frame_file (Z.quot (frame_number s) FRAME_INTERVAL) in
      if (sprintf_size name <=? FILENAME_SIZE)%nat
      then Continues (mkDump (dump_frames s) (wrap_int (frame_number s + 1))
                             (saved s ++ [name]))
      else Overruns name
    else Exits (-1)
  else Continues (mkDump (dump_frames s) (wrap_int (frame_number s + 1)) (saved s)).

(** Successive calls of [post_display], one per element of [oks], as
    long as the calls return. *)
Fixpoint displays (oks : list bool) (s : Dump) : Outcome :=
  match oks with
  | [] => Continues s
  | ok :: oks' =>
      match post_display ok s with
      | Continues s' => displays oks' s'
      | out => out
      end
  end.

End Frames.

(** ** Further machines and inputs of the one-dimensional instance *)

Module Samples.
Import Engine Toy Input Frames.

(** A floor and one box: the bodies of [init_single_box]. *)
Definition one_box : Machine :=
  {| mem := {| heap := [floor; box 5 0];
               sys_bVector := [0; 1]%nat;
               top_sorted := [];
               SCC_num := 0 |};
     bVector := [0; 1]%nat;
     prev_pos := [];
     prev_vel := [];
     rand_calls := 0;
     trace := [] |}.

(** Random numbers that always pick the box of [one_box]. *)
Definition pick_box (n : nat) : nat := 1.

(** [two_boxes] after a shuffle that has exchanged the two boxes in the
    system's vector: the file's [bVector] still has them in the old
    order. *)
Definition swapped_boxes : Machine :=
  {| mem := {| heap := [floor; box 5 0; box 9 0];
               sys_bVector := [0; 2; 1]%nat;
               top_sorted := [];
               SCC_num := 0 |};
     bVector := [0; 1; 2]%nat;
     prev_pos := [0; 0; 0];
     prev_vel := [0; 0; 0];
     rand_calls := 30;
     trace := [] |}.

(** The contact entry of a body that rests on the floor. *)
Definition on_floor : ContactInfo := mkContactInfo 0 tt tt.

(** A [reset] that puts a body back at height 7 with no momentum. *)
Definition to_start (b : Body) : Body := mkBody (inv_mass b) 7 0 [] tt.

(** A press of the right button, and the release of the left one. *)
Definition right_press : MouseEvent := mkMouseEvent 0 2 GLUT_DOWN 30 40.
Definition left_release : MouseEvent := mkMouseEvent 0 0 GLUT_UP 50 60.

(** The counters of [post_display] with frame dumping switched on. *)
Definition dumping : Dump := mkDump 1 0 [].

End Samples.

(** * Properties *)

(** ** quaternion.h *)

Section QuaternionFacts.
Import Quaternion.
Local Open Scope R_scope.



(** [norm] is quadratic in the scale factor, as a squared length is. *)
Lemma norm_scale (q : Quaternion) (s : R) : norm (scale q s) = s ^ 2 * norm q.
Proof. unfold norm, scale. simpl. ring. Qed.

(** The two notions differ: the quaternion (2, 0, 0, 0) has magnitude 2
    and [norm] 4. *)
Example norm_is_not_magnitude :
  norm (mkQuaternion 2 0 0 0) = 4 ∧ magnitude (mkQuaternion 2 0 0 0) = 2.
Proof.
  split.
  - unfold norm. simpl. ring.
  - unfold magnitude. cbn [w x y z].
    replace (2 ^ 2 + 0 ^ 2 + 0 ^ 2 + 0 ^ 2) with (Rsqr 2) by (unfold Rsqr; ring).
    apply sqrt_Rsqr. lra.
Qed.


End QuaternionFacts.

(** ** Scene selection *)

Section SceneFacts.
Import Scene.

Example atoi_digit : atoi "3" = 3. Proof. reflexivity. Qed.
Example atoi_two_digits : atoi "12" = 12. Proof. reflexivity. Qed.
Example atoi_signed : atoi "  -2" = -2. Proof. reflexivity. Qed.
Example atoi_not_a_number : atoi "pile" = 0. Proof. reflexivity. Qed.
Example atoi_trailing : atoi "7th" = 7. Proof. reflexivity. Qed.

Lemma init_system_in_range (i : Z) :
  0 <= i <= 7 → Some (init_system i) = builtin_scenes !! Z.to_nat i.
Proof.
  intros H.
  assert (i = 0 ∨ i = 1 ∨ i = 2 ∨ i = 3 ∨ i = 4 ∨ i = 5 ∨ i = 6 ∨ i = 7)
    as Hcases by lia.
  repeat (destruct Hcases as [-> | Hcases]; [reflexivity|]).
  subst i. reflexivity.
Qed.

Lemma init_system_out_of_range (i : Z) :
  ¬ (0 <= i <= 7) → init_system i = default_scene.
Proof.
  intros H. destruct i as [|p|p]; [lia| |reflexivity].
  do 4 (try destruct p as [p|p|]); try reflexivity; lia.
Qed.

(** Every scene starts with the fixed floor and has at least one movable
    body, so [sys->num_bodies()] is never 0. *)
Lemma scenes_have_bodies (b : Builder) :
  ∃ rest, pushed_inv_mass b = 0%Q :: rest ∧ rest ≠ [].
Proof. destruct b; simpl; eexists; (split; [reflexivity | discriminate]). Qed.

(** C7: with an argument whose integer value is in 0..7 the scene of that
    index is built; with no argument, or a value outside 0..7, the small
    pile is built. *)
Theorem main_selects_scene (argv : list string) :
  main argv =
  match argv with
  | _ :: a :: _ =>
      if (0 <=? atoi a) && (atoi a <=? 7)
      then default default_scene (builtin_scenes !! Z.to_nat (atoi a))
      else init_small_pile
  | _ => init_small_pile
  end.
Proof.
  destruct argv as [|prog [|a rest]]; try reflexivity.
  unfold main.
  destruct ((0 <=? atoi a) && (atoi a <=? 7)) eqn:Hr.
  - apply andb_true_iff in Hr as [H0 H7].
    apply Z.leb_le in H0. apply Z.leb_le in H7.
    rewrite <- init_system_in_range by lia. reflexivity.
  - apply init_system_out_of_range. intros [H0 H7].
    apply Z.leb_le in H0. apply Z.leb_le in H7.
    rewrite H0, H7 in Hr. discriminate.
Qed.

End SceneFacts.

(** ** The log of the driver *)

Section LogFacts.
Import Engine.
Context {P : Payload} {X : Externals P}.

Lemma grows_refl keep (m m' : Machine) :
  trace m' = trace m → grows keep m m' [].
Proof. intros H. exists []. rewrite H, app_nil_r. done. Qed.

Lemma grows_trans keep (m m1 m2 : Machine) l1 l2 :
  grows keep m m1 l1 → grows keep m1 m2 l2 → grows keep m m2 (l1 ++ l2).
Proof.
  intros (e1 & H1 & F1) (e2 & H2 & F2). exists (e1 ++ e2).
  rewrite H2, H1, <- app_assoc, List.filter_app, F1, F2. done.
Qed.

Lemma grows_emit keep (m m' : Machine) l e :
  grows keep m m' l → grows keep m (emit e m') (l ++ List.filter keep [e]).
Proof.
  intros H. eapply grows_trans; [exact H|]. exists [e]. done.
Qed.

Lemma grows_quiet_emit keep (m m' : Machine) e :
  keep e = false → trace m' = trace m → grows keep m (emit e m') [].
Proof.
  intros He H. exists [e]. simpl. rewrite H, He. done.
Qed.

Lemma grows_quiet_step keep (m m1 m2 : Machine) l :
  grows keep m m1 [] → grows keep m1 m2 l → grows keep m m2 l.
Proof. intros H1 H2. exact (grows_trans _ _ _ _ _ _ H1 H2). Qed.

Lemma grows_step_quiet keep (m m1 m2 : Machine) l :
  grows keep m m1 l → grows keep m1 m2 [] → grows keep m m2 l.
Proof.
  intros H1 H2. pose proof (grows_trans _ _ _ _ _ _ H1 H2) as H.
  rewrite app_nil_r in H. exact H.
Qed.

Lemma grows_fold keep (f : nat → Machine → Machine) :
  (∀ i m, grows keep m (f i m) []) →
  ∀ l m, grows keep m (fold_left (λ acc i, f i acc) l m) [].
Proof.
  intros Hf l. induction l as [|i l IH]; intros m; simpl.
  - by apply grows_refl.
  - eapply grows_quiet_step; [apply Hf | apply IH].
Qed.

Lemma grows_for_each_body keep (f : nat → Machine → Machine) (m : Machine) :
  (∀ i m', grows keep m' (f i m') []) → grows keep m (for_each_body f m) [].
Proof. intros Hf. apply grows_fold, Hf. Qed.

Lemma trace_fold_exact (f : nat → Machine → Machine) (g : nat → list Event) l m :
  (∀ i m', trace (f i m') = trace m' ++ g i) →
  trace (fold_left (λ acc i, f i acc) l m) = trace m ++ flat_map g l.
Proof.
  intros Hf. revert m. induction l as [|i l IH]; intros m; simpl.
  - by rewrite app_nil_r.
  - by rewrite IH, Hf, <- app_assoc.
Qed.

Lemma grows_log keep (m m' : Machine) l :
  grows keep m m' l → List.filter keep (log_since m m') = l.
Proof.
  intros (evs & H & F). unfold log_since. rewrite H, drop_app_length. exact F.
Qed.

Lemma grows_all_log (m m' : Machine) l :
  grows (λ _, true) m m' l → log_since m m' = l.
Proof.
  intros (evs & H & F). unfold log_since. rewrite H, drop_app_length.
  rewrite <- F. clear. induction evs as [|e evs IH]; simpl; congruence.
Qed.

End LogFacts.

Section PrimitiveLogs.
Import Engine.
Context {P : Payload} {X : Externals P}.
Variable keep : Event → bool.
Hypothesis Hkeep : skips_body_ops keep.

Lemma filter_pair (a b : Event) :
  List.filter keep [a; b] = List.filter keep [a] ++ List.filter keep [b].
Proof. exact (List.filter_app keep [a] [b]). Qed.

Lemma trace_update_local_body f i (m : Machine) :
  trace (update_local_body f i m) = trace m.
Proof. unfold update_local_body. by destruct (bVector m !! i). Qed.

Lemma quiet_get_state_pos i (m : Machine) : grows keep m (get_state_pos i m) [].
Proof.
  apply grows_quiet_emit; [by apply Hkeep|]. by destruct (sys_body (mem m) i).
Qed.

Lemma quiet_get_state_vel i (m : Machine) : grows keep m (get_state_vel i m) [].
Proof.
  apply grows_quiet_emit; [by apply Hkeep|]. by destruct (sys_body (mem m) i).
Qed.

Lemma quiet_set_state_pos i (m : Machine) : grows keep m (set_state_pos i m) [].
Proof.
  apply grows_quiet_emit; [by apply Hkeep|]. by destruct (prev_pos m !! i).
Qed.

Lemma quiet_set_state_vel i (m : Machine) : grows keep m (set_state_vel i m) [].
Proof.
  apply grows_quiet_emit; [by apply Hkeep|]. by destruct (prev_vel m !! i).
Qed.

Lemma quiet_integrate_vel i (m : Machine) : grows keep m (integrate_vel i m) [].
Proof. apply grows_quiet_emit; [by apply Hkeep|done]. Qed.

Lemma quiet_integrate_pos i (m : Machine) : grows keep m (integrate_pos i m) [].
Proof. apply grows_quiet_emit; [by apply Hkeep|done]. Qed.

Lemma quiet_probe_pair i k (m : Machine) : grows keep m (probe_pair i k m) [].
Proof.
  unfold probe_pair. destruct (k =? i)%nat; [by apply grows_refl|].
  destruct (bVector m !! k); [|by apply grows_refl].
  destruct (local_body m k) as [bk|]; [|by apply grows_refl].
  destruct (local_body m i) as [bi|]; [|by apply grows_refl].
  destruct (intersection_test bk bi) as [[pt nrm]|].
  - apply grows_quiet_emit; [by apply Hkeep | apply trace_update_local_body].
  - apply grows_quiet_emit; [by apply Hkeep | done].
Qed.

Lemma quiet_probe_save i (m : Machine) : grows keep m (probe_save i m) [].
Proof.
  eapply grows_quiet_step; [apply quiet_get_state_pos | apply quiet_get_state_vel].
Qed.

Lemma quiet_probe_advance b i (m : Machine) : grows keep m (probe_advance b i m) [].
Proof.
  unfold probe_advance. destruct b.
  - eapply grows_quiet_step; [apply quiet_integrate_vel | apply quiet_integrate_pos].
  - apply quiet_integrate_pos.
Qed.

Lemma quiet_probe_restore i (m : Machine) : grows keep m (probe_restore i m) [].
Proof.
  eapply grows_quiet_step; [apply quiet_set_state_pos | apply quiet_set_state_vel].
Qed.

Lemma quiet_probe_body b i (m : Machine) : grows keep m (probe_body b i m) [].
Proof.
  unfold probe_body. destruct (local_body m i) as [bi|]; [|by apply grows_refl].
  destruct (movable bi); [|by apply grows_refl].
  eapply grows_quiet_step; [apply quiet_probe_save|].
  eapply grows_quiet_step; [apply quiet_probe_advance|].
  eapply grows_quiet_step; [|apply quiet_probe_restore].
  apply grows_for_each_body. intros k m'. apply quiet_probe_pair.
Qed.

Lemma quiet_clear_contacts i (m : Machine) : grows keep m (clear_contacts i m) [].
Proof. apply grows_refl, trace_update_local_body. Qed.

Lemma grows_create_contact_graph b (m : Machine) :
  grows keep m (create_contact_graph b m) (List.filter keep [EvTarjan; EvGetBodies]).
Proof.
  unfold create_contact_graph.
  eapply grows_quiet_step;
    [apply grows_for_each_body; intros; apply quiet_clear_contacts|].
  eapply grows_quiet_step;
    [apply grows_for_each_body; intros; apply quiet_probe_body|].
  unfold get_bodies, topological_tarjan.
  rewrite filter_pair.
  apply (grows_emit keep _ _ ([] ++ List.filter keep [EvTarjan])). apply (grows_emit keep _ _ []). by apply grows_refl.
Qed.

Lemma quiet_restore_all (m : Machine) : grows keep m (restore_all m) [].
Proof.
  apply grows_for_each_body. intros i m'.
  eapply grows_quiet_step; [apply quiet_set_state_pos | apply quiet_set_state_vel].
Qed.

Lemma quiet_snapshot (m : Machine) : grows keep m (snapshot m) [].
Proof.
  apply grows_for_each_body. intros i m'.
  eapply grows_quiet_step; [apply quiet_get_state_pos | apply quiet_get_state_vel].
Qed.

Lemma grows_forces (m : Machine) :
  grows keep m (add_gravity (zero_forces m))
        (List.filter keep [EvZeroForces; EvAddGravity]).
Proof.
  unfold add_gravity, zero_forces.
  rewrite filter_pair.
  apply (grows_emit keep _ _ ([] ++ List.filter keep [EvZeroForces])). apply (grows_emit keep _ _ []). by apply grows_refl.
Qed.

Lemma grows_integrate_all (m : Machine) :
  grows keep m (integrate_all m) (List.filter keep [EvZeroForces; EvAddGravity]).
Proof.
  unfold integrate_all. eapply grows_step_quiet; [apply grows_forces|].
  apply grows_for_each_body. intros i m'.
  eapply grows_quiet_step; [apply quiet_integrate_vel | apply quiet_integrate_pos].
Qed.

Lemma grows_collision_pass (m : Machine) :
  grows keep m (collision_pass m) (List.filter keep [EvZeroForces; EvAddGravity]).
Proof.
  unfold collision_pass.
  eapply grows_quiet_step; [apply quiet_restore_all | apply grows_integrate_all].
Qed.

Lemma grows_collsion_detect (m : Machine) :
  grows keep m (snd (collsion_detect m))
        (List.filter keep [EvCollsionDetect (fst (collsion_detect m))]).
Proof.
  unfold collsion_detect.
  destruct (sys_collsion_detect (mem m) (prev_pos m) (prev_vel m))
    as [[[hit s] pp] pv].
  cbn [fst snd]. apply (grows_emit keep _ _ []). by apply grows_refl.
Qed.

Lemma grows_contact_detect count shock (m : Machine) :
  grows keep m (snd (contact_detect count shock m))
        (List.filter keep
           [EvContactDetect count shock (fst (contact_detect count shock m))]).
Proof.
  unfold contact_detect.
  destruct (sys_contact_detect (mem m) count shock) as [hit s].
  cbn [fst snd]. apply (grows_emit keep _ _ []). by apply grows_refl.
Qed.

Lemma quiet_integrate_vel_all (m : Machine) :
  grows keep m (for_each_body integrate_vel m) [].
Proof. apply grows_for_each_body. intros. apply quiet_integrate_vel. Qed.

Lemma quiet_integrate_pos_all (m : Machine) :
  grows keep m (for_each_body integrate_pos m) [].
Proof. apply grows_for_each_body. intros. apply quiet_integrate_pos. Qed.

End PrimitiveLogs.

(** ** The bounded loops *)

Section LoopFacts.
Import Engine.
Context {P : Payload} {X : Externals P}.

Lemma skips_contact_view : skips_body_ops contact_view.
Proof. intros [] H; done. Qed.

Lemma skips_collision_view : skips_body_ops collision_view.
Proof. intros [] H; done. Qed.

Lemma skips_all_but_body_ops : skips_body_ops (λ e, negb (is_body_op e)).
Proof. intros e H. by rewrite H. Qed.

Lemma fuel_for_step (limit count : Z) :
  count < limit → fuel_for limit count = S (fuel_for limit (count + 1)).
Proof. unfold fuel_for. lia. Qed.

(** Once the fuel covers the distance to the bound, more fuel changes
    nothing: the loops never stop for lack of it. *)
Lemma collision_loop_fuel (fuel1 fuel2 : nat) (count : Z) (m : Machine) :
  (fuel_for MAX_COLLISIONS count ≤ fuel1)%nat →
  (fuel_for MAX_COLLISIONS count ≤ fuel2)%nat →
  collision_loop fuel1 count m = collision_loop fuel2 count m.
Proof.
  revert fuel2 count m.
  induction fuel1 as [|fuel1 IH]; intros fuel2 count m H1 H2; simpl;
    destruct fuel2 as [|fuel2]; simpl;
    destruct (collsion_detect m) as [hit m1];
    destruct hit; simpl; try reflexivity;
    destruct (count <? MAX_COLLISIONS) eqn:Hc; try reflexivity;
    apply Z.ltb_lt in Hc; rewrite (fuel_for_step _ _ Hc) in H1, H2; try lia.
  apply IH; lia.
Qed.

Lemma contact_loop_fuel shock limit (fuel1 fuel2 : nat) (count : Z) (m : Machine) :
  (fuel_for limit count ≤ fuel1)%nat →
  (fuel_for limit count ≤ fuel2)%nat →
  contact_loop shock limit fuel1 count m = contact_loop shock limit fuel2 count m.
Proof.
  revert fuel2 count m.
  induction fuel1 as [|fuel1 IH]; intros fuel2 count m H1 H2; simpl;
    destruct fuel2 as [|fuel2]; simpl;
    destruct (contact_detect count shock m) as [hit m1];
    destruct hit; simpl; try reflexivity;
    destruct (count <? limit) eqn:Hc; try reflexivity;
    apply Z.ltb_lt in Hc; rewrite (fuel_for_step _ _ Hc) in H1, H2; try lia.
  apply IH; lia.
Qed.

Lemma collision_rounds_S (k : nat) :
  collision_rounds (S k) =
  [EvCollsionDetect true; EvZeroForces; EvAddGravity] ++ collision_rounds k.
Proof. reflexivity. Qed.

Lemma contact_rounds_S shock (from : Z) (k : nat) :
  contact_rounds shock from (S k) =
  contact_round shock from ++ contact_rounds shock (from + 1) k.
Proof.
  unfold contact_rounds. cbn [seq flat_map]. rewrite Z.add_0_r. f_equal.
  rewrite <- seq_shift, flat_map_concat_map, List.map_map, <- flat_map_concat_map.
  apply flat_map_ext. intros j. f_equal. lia.
Qed.

(** The collision loop, read through any selection of events that skips
    the per-body calls: [k] passes, each opened by a detection that
    applied an impulse, then one last detection whose result [b] leaves
    the loop guard false.  The machine that leaves the loop is the one
    that this last detection returned. *)
Lemma collision_loop_log keep (fuel : nat) (count : Z) (m : Machine) :
  skips_body_ops keep →
  (fuel_for MAX_COLLISIONS count ≤ fuel)%nat →
  ∃ (k : nat) (b : bool) (m1 : Machine),
    fst (collision_loop fuel count m) = count + Z.of_nat k ∧
    (k ≤ fuel_for MAX_COLLISIONS count)%nat ∧
    b && (fst (collision_loop fuel count m) <? MAX_COLLISIONS) = false ∧
    collsion_detect m1 = (b, snd (collision_loop fuel count m)) ∧
    grows keep m (snd (collision_loop fuel count m))
          (List.filter keep (collision_rounds k ++ [EvCollsionDetect b])).
Proof.
  intros Hkeep. revert count m.
  induction fuel as [|fuel IH]; intros count m Hfuel; simpl;
    pose proof (grows_collsion_detect keep m) as Hd;
    destruct (collsion_detect m) as [hit m1] eqn:E; cbn [fst snd] in Hd;
    destruct (hit && (count <? MAX_COLLISIONS)) eqn:Hg.
  - apply andb_true_iff in Hg as [_ Hc]. apply Z.ltb_lt in Hc.
    rewrite (fuel_for_step _ _ Hc) in Hfuel. lia.
  - exists 0%nat, hit, m. cbn [fst snd]. rewrite Z.add_0_r.
    repeat split; [lia | done | done | done].
  - apply andb_true_iff in Hg as [-> Hc]. apply Z.ltb_lt in Hc.
    rewrite (fuel_for_step _ _ Hc) in Hfuel.
    destruct (IH (count + 1) (collision_pass m1)) as (k & b & m2 & Hk & Hle & Hb & Hm & Hlog);
      [lia|].
    exists (S k), b, m2. rewrite Hk.
    repeat split; [lia | rewrite (fuel_for_step _ _ Hc); lia | by rewrite <- Hk | done |].
    rewrite collision_rounds_S, <- app_assoc, List.filter_app.
    eapply grows_trans; [|exact Hlog].
    change [EvCollsionDetect true; EvZeroForces; EvAddGravity]
      with ([EvCollsionDetect true] ++ [EvZeroForces; EvAddGravity]).
    rewrite List.filter_app.
    eapply grows_trans; [exact Hd | apply grows_collision_pass, Hkeep].
  - exists 0%nat, hit, m. cbn [fst snd]. rewrite Z.add_0_r.
    repeat split; [lia | done | done | done].
Qed.

(** The same for the contact loop and the shock-propagation loop, read
    through [contact_view]. *)
Lemma contact_loop_log shock limit (fuel : nat) (count : Z) (m : Machine) :
  (fuel_for limit count ≤ fuel)%nat →
  ∃ (k : nat) (b : bool),
    fst (contact_loop shock limit fuel count m) = count + Z.of_nat k ∧
    (k ≤ fuel_for limit count)%nat ∧
    b && (fst (contact_loop shock limit fuel count m) <? limit) = false ∧
    grows contact_view m (snd (contact_loop shock limit fuel count m))
          (contact_rounds shock count k ++
           [EvContactDetect (fst (contact_loop shock limit fuel count m)) shock b]).
Proof.
  revert count m.
  induction fuel as [|fuel IH]; intros count m Hfuel; simpl;
    pose proof (grows_contact_detect contact_view count shock m) as Hd;
    destruct (contact_detect count shock m) as [hit m1] eqn:E; cbn [fst snd] in Hd;
    destruct (hit && (count <? limit)) eqn:Hg.
  - apply andb_true_iff in Hg as [_ Hc]. apply Z.ltb_lt in Hc.
    rewrite (fuel_for_step _ _ Hc) in Hfuel. lia.
  - exists 0%nat, hit. cbn [fst snd]. rewrite Z.add_0_r.
    repeat split; [lia | done | done].
  - apply andb_true_iff in Hg as [-> Hc]. apply Z.ltb_lt in Hc.
    rewrite (fuel_for_step _ _ Hc) in Hfuel.
    destruct (IH (count + 1) (create_contact_graph false m1)) as (k & b & Hk & Hle & Hb & Hlog);
      [lia|].
    exists (S k), b. rewrite Hk.
    repeat split; [lia | rewrite (fuel_for_step _ _ Hc); lia | by rewrite <- Hk |].
    rewrite contact_rounds_S, <- app_assoc. rewrite <- Hk.
    eapply grows_trans; [|exact Hlog].
    change (contact_round shock count)
      with ([EvContactDetect count shock true] ++ [EvTarjan]).
    eapply grows_trans; [exact Hd|].
    apply (grows_create_contact_graph contact_view skips_contact_view).
  - exists 0%nat, hit. cbn [fst snd]. rewrite Z.add_0_r.
    repeat split; [lia | done | done].
Qed.

End LoopFacts.

(** ** The tick, read through its log *)

Section TickFacts.
Import Engine.
Context {P : Payload} {X : Externals P}.

Lemma idle_func_split (m : Machine) :
  idle_func m = contact_resolution (tick_to_contact_loop m).
Proof.
  unfold idle_func, tick_to_contact_loop.
  by destruct (collision_phase (tick_prologue m)).
Qed.

Lemma trace_swap_attempt (m : Machine) :
  ∃ jj kk b, trace (swap_attempt m) = trace m ++ [EvSwapAttempt jj kk b].
Proof.
  unfold swap_attempt. cbn zeta.
  set (jj := (rand_seq (rand_calls m) mod num_bodies m)%nat).
  set (kk := (rand_seq (S (rand_calls m)) mod num_bodies m)%nat).
  set (m' := set_rand_calls _ m).
  destruct (sys_bVector (mem m') !! jj), (sys_bVector (mem m') !! kk),
    (sys_body (mem m') jj) as [bj|], (sys_body (mem m') kk) as [bk|];
    try (by exists jj, kk, false).
  destruct (positive_inv_mass bj && positive_inv_mass bk);
    [by exists jj, kk, true | by exists jj, kk, false].
Qed.

Lemma swap_rounds_log (l : list nat) (m : Machine) :
  ∃ evs, trace (fold_left (λ acc _, swap_attempt acc) l m) = trace m ++ evs ∧
         length evs = length l ∧
         forallb is_swap_attempt evs = true.
Proof.
  revert m. induction l as [|x l IH]; intros m; simpl.
  - exists []. by rewrite app_nil_r.
  - destruct (trace_swap_attempt m) as (jj & kk & b & H1).
    destruct (IH (swap_attempt m)) as (evs & H2 & Hlen & Hall).
    exists (EvSwapAttempt jj kk b :: evs).
    rewrite H2, H1, <- app_assoc. simpl. rewrite Hlen. done.
Qed.

(** The shuffle logs exactly [SHUFFLE_ROUNDS] events, all of them swap
    attempts. *)
Lemma shuffle_log (m : Machine) :
  ∃ evs, trace (shuffle m) = trace m ++ evs ∧
         length evs = SHUFFLE_ROUNDS ∧
         forallb is_swap_attempt evs = true.
Proof.
  destruct (swap_rounds_log (seq 0 SHUFFLE_ROUNDS) m) as (evs & H & Hlen & Hall).
  exists evs. by rewrite length_seq in Hlen.
Qed.

Lemma filter_none (keep f : Event → bool) (evs : list Event) :
  (∀ e, f e = true → keep e = false) →
  forallb f evs = true → List.filter keep evs = [].
Proof.
  intros Hf. induction evs as [|e evs IH]; simpl; [done|].
  intros [He Hall]%andb_true_iff. by rewrite (Hf e He), IH.
Qed.

Lemma quiet_shuffle keep (m : Machine) :
  (∀ e, is_swap_attempt e = true → keep e = false) →
  grows keep m (shuffle m) [].
Proof.
  intros Hk. destruct (shuffle_log m) as (evs & H & _ & Hall).
  exists evs. split; [done|]. by apply (filter_none keep is_swap_attempt).
Qed.

Lemma trace_declare_buffers (m : Machine) :
  trace (declare_buffers m) = trace m.
Proof. reflexivity. Qed.

Lemma quiet_tick_prologue keep (m : Machine) :
  skips_body_ops keep →
  (∀ e, is_swap_attempt e = true → keep e = false) →
  grows keep m (tick_prologue m) (List.filter keep [EvZeroForces; EvAddGravity]).
Proof.
  intros Hb Hs. unfold tick_prologue.
  eapply grows_quiet_step; [apply (quiet_shuffle keep m Hs)|].
  eapply (grows_quiet_step _ _ (declare_buffers (shuffle m)));
    [apply grows_refl, trace_declare_buffers|].
  eapply grows_quiet_step; [apply (quiet_snapshot keep Hb)|].
  apply (grows_integrate_all keep Hb).
Qed.

Lemma filter_contact_view_collision (k : nat) (b : bool) :
  List.filter contact_view (collision_rounds k ++ [EvCollsionDetect b]) = [].
Proof.
  rewrite List.filter_app. simpl. rewrite app_nil_r.
  induction k as [|k IH]; [done|]. rewrite collision_rounds_S, List.filter_app.
  simpl. exact IH.
Qed.

Lemma filter_collision_view_rounds (k : nat) (b : bool) :
  List.filter collision_view (collision_rounds k ++ [EvCollsionDetect b])
  = collision_rounds k ++ [EvCollsionDetect b].
Proof.
  rewrite List.filter_app. simpl. f_equal.
  induction k as [|k IH]; [done|]. rewrite collision_rounds_S, List.filter_app.
  simpl. by rewrite IH.
Qed.

(** From the start of the tick to the entry of the contact loop there is
    no call of [contact_detect] and exactly one rebuild of the contact
    graph, the initial one. *)
Lemma tick_to_contact_loop_log (m : Machine) :
  grows contact_view m (tick_to_contact_loop m) [EvTarjan].
Proof.
  unfold tick_to_contact_loop.
  eapply grows_quiet_step.
  { apply (quiet_tick_prologue contact_view m skips_contact_view).
    by intros []. }
  destruct (collision_loop_log contact_view (fuel_for MAX_COLLISIONS 0) 0
              (tick_prologue m) skips_contact_view)
    as (k & b & m1 & _ & _ & _ & _ & Hlog); [done|].
  rewrite filter_contact_view_collision in Hlog.
  eapply grows_quiet_step; [exact Hlog|].
  unfold contact_setup.
  eapply grows_quiet_step; [apply (quiet_restore_all contact_view skips_contact_view)|].
  eapply grows_quiet_step; [apply (grows_forces contact_view)|].
  eapply grows_step_quiet;
    [apply (grows_create_contact_graph contact_view skips_contact_view)|].
  apply (quiet_integrate_vel_all contact_view skips_contact_view).
Qed.

(** The shock-propagation block entered with [count]: nothing unless
    [count] is [MAX_CONTACTS], else one call [contact_detect(count, true)]
    and no rebuild. *)
Lemma shock_phase_log (count : Z) (m : Machine) :
  ∃ bs, grows contact_view m (shock_phase count m)
          (if count =? MAX_CONTACTS then [EvContactDetect count true bs] else []).
Proof.
  unfold shock_phase. destruct (count =? MAX_CONTACTS) eqn:Hc.
  - apply Z.eqb_eq in Hc. subst count.
    destruct (contact_loop_log true MAX_SHOCK_PROP
                (fuel_for MAX_SHOCK_PROP MAX_CONTACTS) MAX_CONTACTS m)
      as (k & b & Hk & Hle & _ & Hlog); [done|].
    assert (k = 0%nat) as ->
      by (unfold fuel_for, MAX_SHOCK_PROP, MAX_CONTACTS in Hle; lia).
    rewrite Hk in Hlog. rewrite Z.add_0_r in Hlog. by exists b.
  - exists false. by apply grows_refl.
Qed.

(** The whole tick through [contact_view]: the initial rebuild; then the
    contact loop, [c] rounds of a call that applied an impulse followed by
    a rebuild, and the call at [count = c] that left the loop; the rebuild
    after the loop; and, only when [c] is [MAX_CONTACTS], one
    shock-propagation call. *)
Lemma tick_contact_log (m : Machine) :
  ∃ (b bs : bool),
    0 <= contact_exit_count m <= MAX_CONTACTS ∧
    b && (contact_exit_count m <? MAX_CONTACTS) = false ∧
    List.filter contact_view (tick_log m) =
      EvTarjan ::
      contact_rounds false 0 (Z.to_nat (contact_exit_count m)) ++
      [EvContactDetect (contact_exit_count m) false b; EvTarjan] ++
      (if contact_exit_count m =? MAX_CONTACTS
       then [EvContactDetect (contact_exit_count m) true bs] else []).
Proof.
  unfold tick_log, contact_exit_count. rewrite idle_func_split.
  pose proof (tick_to_contact_loop_log m) as H0.
  set (m1 := tick_to_contact_loop m) in *.
  unfold contact_resolution, contact_phase.
  destruct (contact_loop_log false MAX_CONTACTS (fuel_for MAX_CONTACTS 0) 0 m1)
    as (k & b & Hk & Hle & Hb & Hlog); [done|].
  destruct (contact_loop false MAX_CONTACTS (fuel_for MAX_CONTACTS 0) 0 m1)
    as [c m2]. cbn [fst snd] in *.
  destruct (shock_phase_log c (create_contact_graph false m2)) as (bs & Hs).
  exists b, bs. subst c. rewrite Z.add_0_l, Nat2Z.id in *.
  split; [unfold fuel_for, MAX_CONTACTS in *; lia|]. split; [done|].
  apply grows_log.
  set (tail := if Z.of_nat k =? MAX_CONTACTS
               then [EvContactDetect (Z.of_nat k) true bs] else []) in *.
  replace (EvTarjan :: contact_rounds false 0 k ++
           [EvContactDetect (Z.of_nat k) false b; EvTarjan] ++ tail)
    with ([EvTarjan] ++
          ((contact_rounds false 0 k ++ [EvContactDetect (Z.of_nat k) false b]) ++
           [EvTarjan]) ++ tail)
    by (by rewrite <- !app_assoc).
  eapply grows_trans; [exact H0|].
  eapply grows_trans.
  - eapply grows_trans; [exact Hlog|].
    apply (grows_create_contact_graph contact_view skips_contact_view).
  - eapply grows_step_quiet; [exact Hs|].
    apply (quiet_integrate_pos_all contact_view skips_contact_view).
Qed.

End TickFacts.

(** ** The collision loop and the contact loop *)

Section LoopClaims.
Import Engine Rounds.
Context {P : Payload} {X : Externals P}.

Lemma filter_sub (f g : Event → bool) (l : list Event) :
  (∀ e, f e = true → g e = true) →
  List.filter f (List.filter g l) = List.filter f l.
Proof.
  intros Hfg. induction l as [|e l IH]; simpl; [done|].
  destruct (g e) eqn:Hg; simpl.
  - destruct (f e); by rewrite IH.
  - destruct (f e) eqn:Hf; [|done]. apply Hfg in Hf. congruence.
Qed.

Lemma filter_shock_contact_rounds (from : Z) (k : nat) :
  List.filter is_shock_pass (contact_rounds false from k) = [].
Proof.
  revert from. induction k as [|k IH]; intros from; [done|].
  rewrite contact_rounds_S, List.filter_app. simpl. apply IH.
Qed.

Lemma length_contact_passes (from : Z) (k : nat) :
  length (List.filter is_contact_pass (contact_rounds false from k)) = k.
Proof.
  revert from. induction k as [|k IH]; intros from; [done|].
  rewrite contact_rounds_S, List.filter_app, length_app. simpl. by rewrite IH.
Qed.

Lemma trace_restore_round i (m : Machine) :
  trace (set_state_vel i (set_state_pos i m)) =
  trace m ++ [EvSetStatePos i; EvSetStateVel i].
Proof.
  unfold set_state_vel, set_state_pos.
  destruct (prev_pos m !! i); simpl; destruct (prev_vel m !! i); simpl;
    by rewrite <- app_assoc.
Qed.

Lemma trace_integrate_round i (m : Machine) :
  trace (integrate_pos i (integrate_vel i m)) =
  trace m ++ [EvIntegrateVel i; EvIntegratePos i].
Proof. unfold integrate_pos, integrate_vel. simpl. by rewrite <- app_assoc. Qed.

Lemma trace_restore_all (m : Machine) :
  trace (restore_all m) =
  trace m ++ flat_map (λ i, [EvSetStatePos i; EvSetStateVel i])
                      (seq 0 (num_bodies m)).
Proof.
  apply (trace_fold_exact (λ i acc, set_state_vel i (set_state_pos i acc))
           (λ i, [EvSetStatePos i; EvSetStateVel i])).
  apply trace_restore_round.
Qed.

Lemma trace_forces (m : Machine) :
  trace (add_gravity (zero_forces m)) = trace m ++ [EvZeroForces; EvAddGravity].
Proof. unfold add_gravity, zero_forces. simpl. by rewrite <- app_assoc. Qed.

Lemma trace_integrate_all (m : Machine) :
  trace (integrate_all m) =
  trace m ++ [EvZeroForces; EvAddGravity] ++
  flat_map (λ i, [EvIntegrateVel i; EvIntegratePos i])
           (seq 0 (num_bodies (add_gravity (zero_forces m)))).
Proof.
  unfold integrate_all, for_each_body.
  rewrite (trace_fold_exact (λ i acc, integrate_pos i (integrate_vel i acc))
             (λ i, [EvIntegrateVel i; EvIntegratePos i]))
    by apply trace_integrate_round.
  by rewrite trace_forces, <- app_assoc.
Qed.

(** One pass of the collision loop: every body is set back from the two
    buffers, the forces are zeroed, gravity is added, and every body is
    integrated, velocity then position. *)
Lemma collision_pass_log (m : Machine) :
  log_since m (collision_pass m) =
  flat_map (λ i, [EvSetStatePos i; EvSetStateVel i]) (seq 0 (num_bodies m)) ++
  [EvZeroForces; EvAddGravity] ++
  flat_map (λ i, [EvIntegrateVel i; EvIntegratePos i])
           (seq 0 (num_bodies (add_gravity (zero_forces (restore_all m))))).
Proof.
  unfold log_since, collision_pass.
  rewrite trace_integrate_all, trace_restore_all, <- app_assoc.
  by rewrite drop_app_length.
Qed.

Lemma trace_collsion_detect (m : Machine) :
  trace (snd (collsion_detect m)) =
  trace m ++ [EvCollsionDetect (fst (collsion_detect m))].
Proof.
  unfold collsion_detect.
  by destruct (sys_collsion_detect (mem m) (prev_pos m) (prev_vel m))
    as [[[hit s] pp] pv].
Qed.

Lemma trace_collision_pass (m : Machine) :
  trace (collision_pass m) = trace m ++ collision_pass_events m.
Proof.
  unfold collision_pass, collision_pass_events.
  by rewrite trace_integrate_all, trace_restore_all, <- app_assoc.
Qed.

Lemma collision_entry_shift (m : Machine) (j : nat) :
  collision_entry (collision_round m) j = collision_entry m (S j).
Proof. unfold collision_entry. by rewrite Nat.iter_succ_r. Qed.

(** The collision loop, round by round: [k] calls of [collsion_detect]
    that applied an impulse, each followed by a pass, and the call that
    leaves the loop. *)
Lemma collision_loop_rounds (fuel : nat) (count : Z) (m : Machine) :
  (fuel_for MAX_COLLISIONS count ≤ fuel)%nat →
  ∃ (k : nat) (b : bool),
    fst (collision_loop fuel count m) = count + Z.of_nat k ∧
    (k ≤ fuel_for MAX_COLLISIONS count)%nat ∧
    b && (fst (collision_loop fuel count m) <? MAX_COLLISIONS) = false ∧
    (∀ j, (j < k)%nat → fst (collsion_detect (collision_entry m j)) = true) ∧
    collsion_detect (collision_entry m k) = (b, snd (collision_loop fuel count m)).
Proof.
  revert count m.
  induction fuel as [|fuel IH]; intros count m Hfuel; cbn [collision_loop];
    destruct (collsion_detect m) as [hit m1] eqn:E;
    destruct (hit && (count <? MAX_COLLISIONS)) eqn:Hg.
  - apply andb_true_iff in Hg as [_ Hc]. apply Z.ltb_lt in Hc.
    rewrite (fuel_for_step _ _ Hc) in Hfuel. lia.
  - exists 0%nat, hit. cbn [fst snd]. rewrite Z.add_0_r.
    split_and!; [done | lia | done | intros j Hj; lia | exact E].
  - apply andb_true_iff in Hg as [-> Hc]. apply Z.ltb_lt in Hc.
    rewrite (fuel_for_step _ _ Hc) in Hfuel.
    destruct (IH (count + 1) (collision_pass m1)) as (k & b & Hk & Hle & Hb & Hhits & Hlast);
      [lia|].
    assert (collision_pass m1 = collision_round m) as Hround
      by (unfold collision_round; by rewrite E).
    exists (S k), b. rewrite Hk.
    split_and!; [lia | rewrite (fuel_for_step _ _ Hc); lia | by rewrite <- Hk | |].
    + intros [|j] Hj; [cbn; by rewrite E|].
      rewrite <- collision_entry_shift, <- Hround. apply Hhits. lia.
    + by rewrite <- collision_entry_shift, <- Hround.
  - exists 0%nat, hit. cbn [fst snd]. rewrite Z.add_0_r.
    split_and!; [done | lia | done | intros j Hj; lia | exact E].
Qed.

Lemma trace_collision_entry (m : Machine) (k : nat) :
  (∀ j, (j < k)%nat → fst (collsion_detect (collision_entry m j)) = true) →
  trace (collision_entry m k) =
  trace m ++
  flat_map (λ j, EvCollsionDetect true ::
                 collision_pass_events (snd (collsion_detect (collision_entry m j))))
           (seq 0 k).
Proof.
  induction k as [|k IH]; intros Hhits; [cbn; by rewrite app_nil_r|].
  rewrite seq_S, flat_map_app. cbn [flat_map Nat.add]. rewrite app_nil_r, app_assoc.
  rewrite <- IH by (intros j Hj; apply Hhits; lia).
  change (collision_entry m (S k)) with (collision_round (collision_entry m k)).
  unfold collision_round.
  rewrite trace_collision_pass, trace_collsion_detect, (Hhits k) by lia.
  by rewrite <- app_assoc.
Qed.

Lemma filter_collision_pass_events (m : Machine) :
  List.filter collision_view (collision_pass_events m) = [EvZeroForces; EvAddGravity].
Proof.
  unfold collision_pass_events. rewrite !List.filter_app.
  assert (∀ l, List.filter collision_view
                 (flat_map (λ i, [EvSetStatePos i; EvSetStateVel i]) l) = []) as ->
    by (intros l; induction l as [|i l IH]; [done | exact IH]).
  assert (∀ l, List.filter collision_view
                 (flat_map (λ i, [EvIntegrateVel i; EvIntegratePos i]) l) = []) as ->
    by (intros l; induction l as [|i l IH]; [done | exact IH]).
  done.
Qed.

Lemma filter_collision_rounds (f : nat → Machine) (k : nat) :
  List.filter collision_view
    (flat_map (λ j, EvCollsionDetect true :: collision_pass_events (f j)) (seq 0 k))
  = collision_rounds k.
Proof.
  induction k as [|k IH]; [done|].
  rewrite seq_S, flat_map_app, List.filter_app, IH. cbn [flat_map Nat.add].
  rewrite app_nil_r. cbn [List.filter collision_view].
  rewrite filter_collision_pass_events.
  unfold collision_rounds. rewrite replicate_S_end, concat_app. cbn.
  done.
Qed.

(** C2: the collision loop makes at most [MAX_COLLISIONS] = 5 passes,
    each of which restores every body from the snapshot buffers, zeroes
    the forces, adds gravity and integrates every body; every pass follows
    a [collsion_detect] that applied an impulse, and the loop ends with
    one more [collsion_detect], whose result [b] can be [true] only when
    the five passes are used up; the machine that leaves the loop is the
    one this last call returned, so its impulses are kept in either
    case.  The loop is given round by round: the machine in which call
    [j] is made is the one that [j] rounds of call and pass lead to, and
    the whole log of the loop is, for each round, the call and the
    restore, force and integration calls of its pass, then the last
    call. *)
Theorem collision_loop_bounded (m : Machine) :
  (∀ m' : Machine,
     log_since m' (collision_pass m') =
     flat_map (λ i, [EvSetStatePos i; EvSetStateVel i]) (seq 0 (num_bodies m')) ++
     [EvZeroForces; EvAddGravity] ++
     flat_map (λ i, [EvIntegrateVel i; EvIntegratePos i])
              (seq 0 (num_bodies (add_gravity (zero_forces (restore_all m')))))) ∧
  ∃ (k : nat) (b : bool) (m1 : Machine),
    fst (collision_phase m) = Z.of_nat k ∧
    Z.of_nat k <= MAX_COLLISIONS ∧
    b && (Z.of_nat k <? MAX_COLLISIONS) = false ∧
    List.filter collision_view (log_since m (snd (collision_phase m))) =
      collision_rounds k ++ [EvCollsionDetect b] ∧
    collsion_detect m1 = (b, snd (collision_phase m)) ∧
    m1 = collision_entry m k ∧
    (∀ j, (j < k)%nat → fst (collsion_detect (collision_entry m j)) = true) ∧
    (∀ j, collision_entry m (S j) =
          integrate_all (restore_all (snd (collsion_detect (collision_entry m j))))) ∧
    log_since m (snd (collision_phase m)) =
      flat_map (λ j, EvCollsionDetect true ::
                     collision_pass_events
                       (snd (collsion_detect (collision_entry m j))))
               (seq 0 k) ++
      [EvCollsionDetect b].
Proof.
  split; [exact collision_pass_log|].
  unfold collision_phase.
  destruct (collision_loop_rounds (fuel_for MAX_COLLISIONS 0) 0 m)
    as (k & b & Hk & Hle & Hb & Hhits & Hlast); [done|].
  rewrite Z.add_0_l in Hk. rewrite Hk in Hb.
  assert (log_since m (snd (collision_loop (fuel_for MAX_COLLISIONS 0) 0 m)) =
          flat_map (λ j, EvCollsionDetect true ::
                         collision_pass_events
                           (snd (collsion_detect (collision_entry m j))))
                   (seq 0 k) ++ [EvCollsionDetect b]) as Hlog.
  { pose proof (trace_collsion_detect (collision_entry m k)) as Ht.
    rewrite Hlast in Ht. cbn [fst snd] in Ht.
    unfold log_since. rewrite Ht, (trace_collision_entry m k Hhits), <- app_assoc.
    by rewrite drop_app_length. }
  exists k, b, (collision_entry m k).
  split_and!; try done.
  - unfold fuel_for, MAX_COLLISIONS in *. lia.
  - by rewrite Hlog, List.filter_app, filter_collision_rounds.
Qed.

(** C1: a tick makes a call [contact_detect(count, true)] only if the
    contact loop was left with [count] equal to [MAX_CONTACTS] = 10, and
    then it makes exactly one; if the loop was left earlier, which happens
    only when [contact_detect] applied no impulse, it makes none. *)
Theorem shock_pass_only_after_saturation (m : Machine) :
  ∃ b : bool,
    0 <= contact_exit_count m <= MAX_CONTACTS ∧
    last (List.filter is_contact_pass (tick_log m)) =
      Some (EvContactDetect (contact_exit_count m) false b) ∧
    b && (contact_exit_count m <? MAX_CONTACTS) = false ∧
    length (List.filter is_shock_pass (tick_log m)) =
      if contact_exit_count m =? MAX_CONTACTS then 1%nat else 0%nat.
Proof.
  destruct (tick_contact_log m) as (b & bs & Hc & Hb & Hlog).
  exists b. split; [done|].
  rewrite <- (filter_sub is_contact_pass contact_view),
          <- (filter_sub is_shock_pass contact_view), Hlog
    by (by intros [| | | | | | | | | | |? []| |]).
  change (EvTarjan :: ?l) with ([EvTarjan] ++ l).
  rewrite !List.filter_app, filter_shock_contact_rounds.
  split; [|split; [done|]].
  - destruct (contact_exit_count m =? MAX_CONTACTS); simpl; apply last_snoc.
  - by destruct (contact_exit_count m =? MAX_CONTACTS).
Qed.

Lemma trace_contact_detect count shock (m : Machine) :
  trace (snd (contact_detect count shock m)) =
  trace m ++ [EvContactDetect count shock (fst (contact_detect count shock m))].
Proof.
  unfold contact_detect.
  by destruct (sys_contact_detect (mem m) count shock) as [hit s].
Qed.

Lemma trace_rebuild (m : Machine) :
  trace (create_contact_graph false m) = trace m ++ rebuild_events m.
Proof.
  destruct (grows_create_contact_graph contact_view skips_contact_view false m)
    as (evs & Ht & _).
  unfold rebuild_events, log_since. by rewrite Ht, drop_app_length.
Qed.

(** A rebuild is made of per-body calls, then [topological_tarjan] and
    [get_bodies]. *)
Lemma rebuild_events_end (m : Machine) :
  List.filter (λ e, negb (is_body_op e)) (rebuild_events m) = [EvTarjan; EvGetBodies].
Proof.
  unfold rebuild_events.
  apply (grows_log (λ e, negb (is_body_op e))).
  apply (grows_create_contact_graph _ skips_all_but_body_ops).
Qed.

Lemma contact_entry_shift shock (from : Z) (m : Machine) (j : nat) :
  contact_entry shock (from + 1) (contact_step shock from m) j =
  contact_entry shock from m (S j).
Proof.
  induction j as [|j IH].
  - cbn [contact_entry]. by rewrite Z.add_0_r.
  - cbn [contact_entry] in *. rewrite IH.
    by replace (from + 1 + Z.of_nat j) with (from + Z.of_nat (S j)) by lia.
Qed.

(** The contact loop and the shock-propagation loop, round by round:
    [k] calls of [contact_detect] that applied an impulse, each followed
    by a rebuild of the contact graph, and the call that leaves the
    loop. *)
Lemma contact_loop_rounds shock limit (fuel : nat) (count : Z) (m : Machine) :
  (fuel_for limit count ≤ fuel)%nat →
  ∃ (k : nat) (b : bool),
    fst (contact_loop shock limit fuel count m) = count + Z.of_nat k ∧
    (k ≤ fuel_for limit count)%nat ∧
    b && (fst (contact_loop shock limit fuel count m) <? limit) = false ∧
    (∀ j, (j < k)%nat →
          fst (contact_detect (count + Z.of_nat j) shock
                 (contact_entry shock count m j)) = true) ∧
    contact_detect (count + Z.of_nat k) shock (contact_entry shock count m k) =
      (b, snd (contact_loop shock limit fuel count m)).
Proof.
  revert count m.
  induction fuel as [|fuel IH]; intros count m Hfuel; cbn [contact_loop];
    destruct (contact_detect count shock m) as [hit m1] eqn:E;
    destruct (hit && (count <? limit)) eqn:Hg.
  - apply andb_true_iff in Hg as [_ Hc]. apply Z.ltb_lt in Hc.
    rewrite (fuel_for_step _ _ Hc) in Hfuel. lia.
  - exists 0%nat, hit. cbn [fst snd contact_entry]. rewrite Z.add_0_r.
    split_and!; [done | lia | done | intros j Hj; lia | exact E].
  - apply andb_true_iff in Hg as [-> Hc]. apply Z.ltb_lt in Hc.
    rewrite (fuel_for_step _ _ Hc) in Hfuel.
    destruct (IH (count + 1) (create_contact_graph false m1))
      as (k & b & Hk & Hle & Hb & Hhits & Hlast); [lia|].
    assert (create_contact_graph false m1 = contact_step shock count m) as Hround
      by (unfold contact_step; by rewrite E).
    exists (S k), b. rewrite Hk.
    split_and!; [lia | rewrite (fuel_for_step _ _ Hc); lia | by rewrite <- Hk | |].
    + intros [|j] Hj; [cbn [contact_entry]; by rewrite Z.add_0_r, E|].
      rewrite <- contact_entry_shift, <- Hround.
      replace (count + Z.of_nat (S j)) with (count + 1 + Z.of_nat j) by lia.
      apply Hhits. lia.
    + rewrite <- contact_entry_shift, <- Hround.
      by replace (count + Z.of_nat (S k)) with (count + 1 + Z.of_nat k) by lia.
  - exists 0%nat, hit. cbn [fst snd contact_entry]. rewrite Z.add_0_r.
    split_and!; [done | lia | done | intros j Hj; lia | exact E].
Qed.

Lemma trace_contact_entry shock (from : Z) (m : Machine) (k : nat) :
  (∀ j, (j < k)%nat →
        fst (contact_detect (from + Z.of_nat j) shock
               (contact_entry shock from m j)) = true) →
  trace (contact_entry shock from m k) =
  trace m ++
  flat_map (λ j, EvContactDetect (from + Z.of_nat j) shock true ::
                 rebuild_events
                   (snd (contact_detect (from + Z.of_nat j) shock
                           (contact_entry shock from m j))))
           (seq 0 k).
Proof.
  induction k as [|k IH]; intros Hhits; [cbn; by rewrite app_nil_r|].
  rewrite seq_S, flat_map_app. cbn [flat_map Nat.add]. rewrite app_nil_r, app_assoc.
  rewrite <- IH by (intros j Hj; apply Hhits; lia).
  cbn [contact_entry]. unfold contact_step.
  rewrite trace_rebuild, trace_contact_detect, (Hhits k) by lia.
  by rewrite <- app_assoc.
Qed.

Lemma filter_contact_rounds shock (from : Z) (f : nat → Machine) (k : nat) :
  List.filter contact_view
    (flat_map (λ j, EvContactDetect (from + Z.of_nat j) shock true ::
                    rebuild_events (f j)) (seq 0 k))
  = contact_rounds shock from k.
Proof.
  unfold contact_rounds.
  induction (seq 0 k) as [|j l IH]; [done|].
  cbn [flat_map]. rewrite List.filter_app, IH.
  cbn [List.filter contact_view app]. f_equal.
  rewrite <- (filter_sub contact_view (λ e, negb (is_body_op e)))
    by (by intros []).
  by rewrite rebuild_events_end.
Qed.

(** C4, as the code has it: the contact loop calls
    [contact_detect(count, false)] for count = 0, 1, ..., c, where c is at
    most [MAX_CONTACTS] = 10 -- up to eleven calls; the graph is rebuilt
    once between consecutive calls; every call but the last applied an
    impulse, and the last one either applied none or was made at count
    10; one more rebuild follows the loop, before the shock-propagation
    call, if any.  The loop is given round by round: the machine in
    which the call at [j] is made is the one that [j] rounds of call and
    [create_contact_graph] lead to; the whole log of the loop is, for
    each round, the call and the calls of its rebuild, then the last
    call; and the rest of the tick is [create_contact_graph], the
    shock-propagation block and the position update. *)
Theorem contact_loop_passes (m : Machine) :
  ∃ (b bs : bool),
    0 <= contact_exit_count m <= MAX_CONTACTS ∧
    b && (contact_exit_count m <? MAX_CONTACTS) = false ∧
    List.filter contact_view (tick_log m) =
      EvTarjan ::
      contact_rounds false 0 (Z.to_nat (contact_exit_count m)) ++
      [EvContactDetect (contact_exit_count m) false b; EvTarjan] ++
      (if contact_exit_count m =? MAX_CONTACTS
       then [EvContactDetect (contact_exit_count m) true bs] else []) ∧
    length (List.filter is_contact_pass (tick_log m)) =
      S (Z.to_nat (contact_exit_count m)) ∧
    (∀ j, (j < Z.to_nat (contact_exit_count m))%nat →
          fst (contact_detect (Z.of_nat j) false
                 (contact_entry false 0 (tick_to_contact_loop m) j)) = true) ∧
    (∀ j, contact_entry false 0 (tick_to_contact_loop m) (S j) =
          create_contact_graph false
            (snd (contact_detect (Z.of_nat j) false
                    (contact_entry false 0 (tick_to_contact_loop m) j)))) ∧
    contact_detect (contact_exit_count m) false
      (contact_entry false 0 (tick_to_contact_loop m)
         (Z.to_nat (contact_exit_count m))) =
      (b, snd (contact_phase (tick_to_contact_loop m))) ∧
    log_since (tick_to_contact_loop m) (snd (contact_phase (tick_to_contact_loop m))) =
      flat_map (λ j, EvContactDetect (Z.of_nat j) false true ::
                     rebuild_events
                       (snd (contact_detect (Z.of_nat j) false
                               (contact_entry false 0 (tick_to_contact_loop m) j))))
               (seq 0 (Z.to_nat (contact_exit_count m))) ++
      [EvContactDetect (contact_exit_count m) false b] ∧
    (∀ m' : Machine,
       List.filter (λ e, negb (is_body_op e)) (rebuild_events m') =
         [EvTarjan; EvGetBodies]) ∧
    idle_func m =
      for_each_body integrate_pos
        (shock_phase (contact_exit_count m)
           (create_contact_graph false
              (snd (contact_phase (tick_to_contact_loop m))))).
Proof.
  pose proof (tick_to_contact_loop_log m) as H0.
  pose proof (idle_func_split m) as Hsplit.
  unfold contact_exit_count, tick_log. rewrite Hsplit.
  set (m0 := tick_to_contact_loop m) in *. clearbody m0.
  unfold contact_phase.
  destruct (contact_loop_rounds false MAX_CONTACTS (fuel_for MAX_CONTACTS 0) 0 m0)
    as (k & b & Hk & Hle & Hb & Hhits & Hlast); [done|].
  set (loop := contact_loop false MAX_CONTACTS (fuel_for MAX_CONTACTS 0) 0 m0) in *.
  rewrite Z.add_0_l in Hk, Hlast.
  assert (∀ j, (j < k)%nat →
            fst (contact_detect (Z.of_nat j) false (contact_entry false 0 m0 j)) = true)
    as Hhits' by (intros j Hj; by rewrite <- (Hhits j Hj), Z.add_0_l).
  assert (trace (snd loop) =
          trace m0 ++
          flat_map (λ j, EvContactDetect (Z.of_nat j) false true ::
                         rebuild_events
                           (snd (contact_detect (Z.of_nat j) false
                                   (contact_entry false 0 m0 j))))
                   (seq 0 k) ++ [EvContactDetect (Z.of_nat k) false b]) as Htrace.
  { pose proof (trace_contact_detect (Z.of_nat k) false (contact_entry false 0 m0 k)) as Ht.
    rewrite Hlast in Ht. cbn [fst snd] in Ht.
    rewrite Ht, (trace_contact_entry false 0 m0 k Hhits).
    by rewrite <- app_assoc. }
  destruct (shock_phase_log (fst loop) (create_contact_graph false (snd loop)))
    as (bs & Hs).
  assert (List.filter contact_view
            (log_since m (contact_resolution m0)) =
          EvTarjan :: contact_rounds false 0 k ++
          [EvContactDetect (Z.of_nat k) false b; EvTarjan] ++
          (if Z.of_nat k =? MAX_CONTACTS
           then [EvContactDetect (Z.of_nat k) true bs] else [])) as Hview.
  { apply grows_log.
    set (tail := if Z.of_nat k =? MAX_CONTACTS
                 then [EvContactDetect (Z.of_nat k) true bs] else []) in *.
    replace (EvTarjan :: contact_rounds false 0 k ++
             [EvContactDetect (Z.of_nat k) false b; EvTarjan] ++ tail)
      with ([EvTarjan] ++
            ((contact_rounds false 0 k ++ [EvContactDetect (Z.of_nat k) false b]) ++
             [EvTarjan]) ++ tail)
      by (by rewrite <- !app_assoc).
    eapply grows_trans; [exact H0|].
    unfold contact_resolution, contact_phase. fold loop.
    rewrite Hk in Hs. fold tail in Hs.
    destruct loop as [c m2]. cbn [fst snd] in *. subst c.
    eapply grows_trans.
    - eapply grows_trans.
      + exists (flat_map (λ j, EvContactDetect (Z.of_nat j) false true ::
                           rebuild_events
                             (snd (contact_detect (Z.of_nat j) false
                                     (contact_entry false 0 m0 j))))
                  (seq 0 k) ++ [EvContactDetect (Z.of_nat k) false b]).
        split; [exact Htrace|].
        rewrite List.filter_app.
        pose proof (filter_contact_rounds false 0
                      (λ j, snd (contact_detect (Z.of_nat j) false
                                   (contact_entry false 0 m0 j))) k) as Hf.
        cbn beta in Hf. f_equal. exact Hf.
      + apply (grows_create_contact_graph contact_view skips_contact_view).
    - eapply grows_step_quiet; [exact Hs|].
      apply (quiet_integrate_pos_all contact_view skips_contact_view). }
  exists b, bs. rewrite Hk, Nat2Z.id.
  split; [unfold fuel_for, MAX_CONTACTS in *; lia|].
  split; [by rewrite <- Hk|].
  split; [exact Hview|].
  split.
  { rewrite <- (filter_sub is_contact_pass contact_view), Hview
      by (by intros [| | | | | | | | | | |? []| |]).
    change (EvTarjan :: ?l) with ([EvTarjan] ++ l).
    rewrite !List.filter_app, !length_app, length_contact_passes.
    destruct (Z.of_nat k =? MAX_CONTACTS); simpl; lia. }
  split; [exact Hhits'|].
  split; [intros j; reflexivity|].
  split; [exact Hlast|].
  split.
  { unfold log_since. rewrite Htrace. by rewrite drop_app_length. }
  split; [exact rebuild_events_end|].
  unfold contact_resolution, contact_phase. fold loop. rewrite <- Hk.
  by destruct loop.
Qed.

End LoopClaims.

(** ** The shuffle *)

Section ShuffleFacts.
Import Engine.
Context {P : Payload} {X : Externals P}.

Lemma positive_inv_mass_spec (b : Body) :
  positive_inv_mass b = true ↔ (0 < inv_mass b)%Q.
Proof.
  unfold positive_inv_mass. rewrite negb_true_iff.
  destruct (Qle_bool (inv_mass b) 0) eqn:H.
  - apply Qle_bool_iff in H. split; [done|]. intros H'.
    exfalso. exact (Qlt_not_le _ _ H' H).
  - split; [intros _|done]. apply Qnot_le_lt. intros H'.
    apply Qle_bool_iff in H'. congruence.
Qed.

Lemma zero_inv_mass_not_positive (b : Body) :
  (inv_mass b == 0)%Q → positive_inv_mass b = false.
Proof.
  intros H. destruct (positive_inv_mass b) eqn:Hp; [|done].
  apply positive_inv_mass_spec in Hp. rewrite H in Hp.
  exfalso. exact (Qlt_irrefl 0 Hp).
Qed.

(** The two indices that a round of the shuffle draws in machine [m]. *)
Lemma swap_attempt_cases (m : Machine) :
  let jj := (rand_seq (rand_calls m) mod num_bodies m)%nat in
  let kk := (rand_seq (S (rand_calls m)) mod num_bodies m)%nat in
  sys_bVector (mem (swap_attempt m)) = sys_bVector (mem m) ∨
  ∃ pj pk bj bk,
    sys_bVector (mem m) !! jj = Some pj ∧ sys_bVector (mem m) !! kk = Some pk ∧
    heap (mem m) !! pj = Some bj ∧ heap (mem m) !! pk = Some bk ∧
    positive_inv_mass bj = true ∧ positive_inv_mass bk = true ∧
    sys_bVector (mem (swap_attempt m)) =
      <[kk := pj]> (<[jj := pk]> (sys_bVector (mem m))).
Proof.
  intros jj kk. unfold swap_attempt. fold jj kk. cbn zeta.
  cbn [mem set_rand_calls]. unfold sys_body.
  destruct (sys_bVector (mem m) !! jj) as [pj|] eqn:Hj; [|by left].
  destruct (sys_bVector (mem m) !! kk) as [pk|] eqn:Hk; [|by left].
  cbn [mbind option_bind].
  destruct (heap (mem m) !! pj) as [bj|] eqn:Hbj; [|by left].
  destruct (heap (mem m) !! pk) as [bk|] eqn:Hbk; [|by left].
  destruct (positive_inv_mass bj) eqn:Hpj; [|by left].
  destruct (positive_inv_mass bk) eqn:Hpk; [|by left].
  right. by exists pj, pk, bj, bk.
Qed.

Lemma swap_attempt_heap (m : Machine) :
  heap (mem (swap_attempt m)) = heap (mem m).
Proof.
  unfold swap_attempt. cbn zeta. by repeat case_match.
Qed.

Lemma swap_attempt_rand_calls (m : Machine) :
  rand_calls (swap_attempt m) = S (S (rand_calls m)).
Proof.
  unfold swap_attempt. cbn zeta. by repeat case_match.
Qed.

Lemma swap_attempt_perm (m : Machine) :
  sys_bVector (mem (swap_attempt m)) ≡ₚ sys_bVector (mem m).
Proof.
  destruct (swap_attempt_cases m) as [-> | (pj & pk & bj & bk & Hj & Hk & _ & _ & _ & _ & ->)];
    [done|].
  by apply Permutation_insert_swap.
Qed.

(** A body whose [inv_mass] is not positive keeps its index. *)
Lemma swap_attempt_keeps (m : Machine) (i p : nat) (b : Body) :
  sys_bVector (mem m) !! i = Some p →
  heap (mem m) !! p = Some b →
  positive_inv_mass b = false →
  sys_bVector (mem (swap_attempt m)) !! i = Some p.
Proof.
  intros Hi Hp Hb.
  destruct (swap_attempt_cases m)
    as [-> | (pj & pk & bj & bk & Hj & Hk & Hbj & Hbk & Hpj & Hpk & ->)];
    [done|].
  set (jj := (rand_seq (rand_calls m) mod num_bodies m)%nat) in *.
  set (kk := (rand_seq (S (rand_calls m)) mod num_bodies m)%nat) in *.
  assert (i ≠ jj) by (intros ->; congruence).
  assert (i ≠ kk) by (intros ->; congruence).
  by rewrite !list_lookup_insert_ne.
Qed.

Lemma swap_rounds_state (l : list nat) (m : Machine) :
  let m' := fold_left (λ acc _, swap_attempt acc) l m in
  heap (mem m') = heap (mem m) ∧
  rand_calls m' = (rand_calls m + 2 * length l)%nat ∧
  sys_bVector (mem m') ≡ₚ sys_bVector (mem m) ∧
  ∀ i p b, sys_bVector (mem m) !! i = Some p → heap (mem m) !! p = Some b →
           positive_inv_mass b = false → sys_bVector (mem m') !! i = Some p.
Proof.
  revert m. induction l as [|x l IH]; intros m; simpl.
  - repeat split; [lia | done | done].
  - destruct (IH (swap_attempt m)) as (Hh & Hr & Hp & Hk).
    rewrite swap_attempt_heap in Hh, Hk. rewrite swap_attempt_rand_calls in Hr.
    repeat split; [done | lia | by rewrite Hp, swap_attempt_perm |].
    intros i p b Hi Hb Hn. apply (Hk i p b); [|done..].
    by apply (swap_attempt_keeps m i p b).
Qed.

Lemma shuffle_state (m : Machine) :
  heap (mem (shuffle m)) = heap (mem m) ∧
  rand_calls (shuffle m) = (rand_calls m + 2 * SHUFFLE_ROUNDS)%nat ∧
  sys_bVector (mem (shuffle m)) ≡ₚ sys_bVector (mem m) ∧
  ∀ i p b, sys_bVector (mem m) !! i = Some p → heap (mem m) !! p = Some b →
           positive_inv_mass b = false →
           sys_bVector (mem (shuffle m)) !! i = Some p.
Proof.
  pose proof (swap_rounds_state (seq 0 SHUFFLE_ROUNDS) m) as H.
  rewrite length_seq in H. exact H.
Qed.

(** C5: the shuffle makes exactly 15 swap attempts (two calls of [rand]
    each); an attempt changes the system's body array only when both
    drawn bodies have [inv_mass > 0], and then by exchanging the two
    entries; the bodies themselves are untouched, the array after the
    shuffle is a permutation of the array before it, and a body with
    [inv_mass = 0] is found at the index it had. *)
Theorem shuffle_permutes_movable (m : Machine) :
  (∃ evs, trace (shuffle m) = trace m ++ evs ∧
          length evs = 15%nat ∧ forallb is_swap_attempt evs = true) ∧
  rand_calls (shuffle m) = (rand_calls m + 2 * 15)%nat ∧
  (∀ m1 : Machine,
     let jj := (rand_seq (rand_calls m1) mod num_bodies m1)%nat in
     let kk := (rand_seq (S (rand_calls m1)) mod num_bodies m1)%nat in
     sys_bVector (mem (swap_attempt m1)) = sys_bVector (mem m1) ∨
     ∃ pj pk bj bk,
       sys_bVector (mem m1) !! jj = Some pj ∧ sys_bVector (mem m1) !! kk = Some pk ∧
       heap (mem m1) !! pj = Some bj ∧ heap (mem m1) !! pk = Some bk ∧
       (0 < inv_mass bj)%Q ∧ (0 < inv_mass bk)%Q ∧
       sys_bVector (mem (swap_attempt m1)) =
         <[kk := pj]> (<[jj := pk]> (sys_bVector (mem m1)))) ∧
  heap (mem (shuffle m)) = heap (mem m) ∧
  sys_bVector (mem (shuffle m)) ≡ₚ sys_bVector (mem m) ∧
  (∀ i p b, sys_bVector (mem m) !! i = Some p → heap (mem m) !! p = Some b →
            (inv_mass b == 0)%Q → sys_bVector (mem (shuffle m)) !! i = Some p).
Proof.
  destruct (shuffle_state m) as (Hh & Hr & Hp & Hk).
  split; [exact (shuffle_log m)|]. split; [exact Hr|]. split.
  { intros m1 jj kk.
    destruct (swap_attempt_cases m1)
      as [H | (pj & pk & bj & bk & Hj & Hk' & Hbj & Hbk & Hpj & Hpk & H)];
      [by left|right].
    exists pj, pk, bj, bk. by rewrite <- !positive_inv_mass_spec. }
  repeat split; [done | done |].
  intros i p b Hi Hb H0. apply (Hk i p b); [done | done |].
  by apply zero_inv_mass_not_positive.
Qed.

End ShuffleFacts.

(** ** The heap under the per-body calls *)

Section HeapFacts.
Import Engine.
Context {P : Payload} {X : Externals P}.

Lemma lookup_update_sys_body (f : Body → Body) (i : nat) (s : SysMem) (p : nat) :
  heap (update_sys_body f i s) !! p =
  if decide (sys_bVector s !! i = Some p) then f <$> heap s !! p else heap s !! p.
Proof.
  unfold update_sys_body. destruct (sys_bVector s !! i) as [q|] eqn:Hq.
  - cbn [heap set_heap]. case_decide as Hd.
    + injection Hd as ->. apply list_lookup_alter_eq.
    + apply list_lookup_alter_ne. congruence.
  - by case_decide.
Qed.

Lemma lookup_update_local_body (f : Body → Body) (i : nat) (m : Machine) (p : nat) :
  heap (mem (update_local_body f i m)) !! p =
  if decide (bVector m !! i = Some p)
  then f <$> heap (mem m) !! p else heap (mem m) !! p.
Proof.
  unfold update_local_body. destruct (bVector m !! i) as [q|] eqn:Hq.
  - cbn [heap mem set_mem set_heap]. case_decide as Hd.
    + injection Hd as ->. apply list_lookup_alter_eq.
    + apply list_lookup_alter_ne. congruence.
  - by case_decide.
Qed.

Lemma sys_bVector_update_sys_body (f : Body → Body) (i : nat) (s : SysMem) :
  sys_bVector (update_sys_body f i s) = sys_bVector s.
Proof. unfold update_sys_body. by destruct (sys_bVector s !! i). Qed.

Lemma sys_bVector_update_local_body (f : Body → Body) (i : nat) (m : Machine) :
  sys_bVector (mem (update_local_body f i m)) = sys_bVector (mem m).
Proof. unfold update_local_body. by destruct (bVector m !! i). Qed.

Lemma bVector_update_local_body (f : Body → Body) (i : nat) (m : Machine) :
  bVector (update_local_body f i m) = bVector m.
Proof. unfold update_local_body. by destruct (bVector m !! i). Qed.

Lemma prev_pos_update_local_body (f : Body → Body) (i : nat) (m : Machine) :
  prev_pos (update_local_body f i m) = prev_pos m.
Proof. unfold update_local_body. by destruct (bVector m !! i). Qed.

Lemma prev_vel_update_local_body (f : Body → Body) (i : nat) (m : Machine) :
  prev_vel (update_local_body f i m) = prev_vel m.
Proof. unfold update_local_body. by destruct (bVector m !! i). Qed.

(** A view [g] of a body that [f] does not change is not changed by a
    write of [f] through either vector. *)
Lemma view_update_sys_body {A} (g : Body → A) (f : Body → Body) i s p :
  (∀ b, g (f b) = g b) →
  g <$> heap (update_sys_body f i s) !! p = g <$> heap s !! p.
Proof.
  intros Hg. rewrite lookup_update_sys_body. case_decide; [|done].
  destruct (heap s !! p); simpl; [by rewrite Hg | done].
Qed.

Lemma view_update_local_body {A} (g : Body → A) (f : Body → Body) i m p :
  (∀ b, g (f b) = g b) →
  g <$> heap (mem (update_local_body f i m)) !! p = g <$> heap (mem m) !! p.
Proof.
  intros Hg. rewrite lookup_update_local_body. case_decide; [|done].
  destruct (heap (mem m) !! p); simpl; [by rewrite Hg | done].
Qed.

End HeapFacts.

(** ** What the per-body calls leave alone *)

Section FrameFacts.
Import Engine.
Context {P : Payload} {X : Externals P}.

Ltac open_body_op :=
  unfold mass_at, contacts_at, state_at,
    probe_save, probe_advance, probe_restore,
    get_state_pos, get_state_vel, set_state_pos, set_state_vel,
    integrate_vel, integrate_pos, clear_contacts;
  repeat case_match;
  cbn [mem emit set_mem set_prev_pos set_prev_vel bVector prev_pos prev_vel];
  rewrite ?sys_bVector_update_sys_body, ?sys_bVector_update_local_body,
    ?bVector_update_local_body, ?prev_pos_update_local_body,
    ?prev_vel_update_local_body;
  try done.

Ltac close_view :=
  repeat first
    [ done
    | rewrite view_update_sys_body by done
    | rewrite view_update_local_body by done ].

Lemma body_op_bVector F (m : Machine) : body_op F → bVector (F m) = bVector m.
Proof.
  intros H. revert m. induction H; intros m; try by open_body_op.
  by rewrite IHbody_op2, IHbody_op1.
Qed.

Lemma body_op_sys_bVector F (m : Machine) :
  body_op F → sys_bVector (mem (F m)) = sys_bVector (mem m).
Proof.
  intros H. revert m. induction H; intros m; try by open_body_op.
  by rewrite IHbody_op2, IHbody_op1.
Qed.

Lemma body_op_mass_at F (m : Machine) p :
  body_op F → mass_at (F m) p = mass_at m p.
Proof.
  intros H. revert m. induction H; intros m; try solve [open_body_op; close_view].
  by rewrite IHbody_op2, IHbody_op1.
Qed.

Lemma body_op_contacts_at F (m : Machine) p :
  body_op F → contacts_at (F m) p = contacts_at m p.
Proof.
  intros H. revert m. induction H; intros m; try solve [open_body_op; close_view].
  by rewrite IHbody_op2, IHbody_op1.
Qed.

Lemma body_op_probe_save i : body_op (probe_save i).
Proof. apply (op_then (get_state_pos i) (get_state_vel i)); constructor. Qed.

Lemma body_op_probe_advance b i : body_op (probe_advance b i).
Proof.
  destruct b.
  - apply (op_then (integrate_vel i) (integrate_pos i)); constructor.
  - apply (op_then (λ m, m) (integrate_pos i)); constructor.
Qed.

Lemma body_op_probe_restore i : body_op (probe_restore i).
Proof. apply (op_then (set_state_pos i) (set_state_vel i)); constructor. Qed.

(** *** The intersection tests *)

Lemma probe_pair_bVector i k (m : Machine) :
  bVector (probe_pair i k m) = bVector m.
Proof.
  unfold probe_pair. repeat case_match; try done.
  cbn [bVector emit]. apply bVector_update_local_body.
Qed.

Lemma probe_pair_sys_bVector i k (m : Machine) :
  sys_bVector (mem (probe_pair i k m)) = sys_bVector (mem m).
Proof.
  unfold probe_pair. repeat case_match; try done.
  cbn [mem emit]. apply sys_bVector_update_local_body.
Qed.

Lemma probe_pair_prev_pos i k (m : Machine) :
  prev_pos (probe_pair i k m) = prev_pos m.
Proof.
  unfold probe_pair. repeat case_match; try done.
  cbn [prev_pos emit]. apply prev_pos_update_local_body.
Qed.

Lemma probe_pair_prev_vel i k (m : Machine) :
  prev_vel (probe_pair i k m) = prev_vel m.
Proof.
  unfold probe_pair. repeat case_match; try done.
  cbn [prev_vel emit]. apply prev_vel_update_local_body.
Qed.

Lemma probe_pair_mass_at i k (m : Machine) p :
  mass_at (probe_pair i k m) p = mass_at m p.
Proof.
  unfold probe_pair, mass_at. repeat case_match; try done.
  cbn [mem emit]. by apply view_update_local_body.
Qed.

Lemma probe_pair_state_at i k (m : Machine) p :
  state_at (probe_pair i k m) p = state_at m p.
Proof.
  unfold probe_pair, state_at. repeat case_match; try done.
  cbn [mem emit]. by apply view_update_local_body.
Qed.

(** A test of body [i] can only touch the contact list of the object that
    [bVector[i]] points to. *)
Lemma probe_pair_contacts_at i k (m : Machine) p :
  bVector m !! i ≠ Some p →
  contacts_at (probe_pair i k m) p = contacts_at m p.
Proof.
  intros Hp. unfold probe_pair, contacts_at. repeat case_match; try done.
  cbn [mem emit]. rewrite lookup_update_local_body. by case_decide.
Qed.

(** *** Loops *)

Lemma fold_left_view {A} (view : Machine → A) (f : nat → Machine → Machine) l m :
  (∀ i m', view (f i m') = view m') →
  view (fold_left (λ acc i, f i acc) l m) = view m.
Proof.
  intros Hf. revert m. induction l as [|i l IH]; intros m; simpl; [done|].
  by rewrite IH, Hf.
Qed.

Lemma fold_left_inv (Inv : Machine → Prop) (f : nat → Machine → Machine) l m :
  (∀ i m', Inv m' → Inv (f i m')) →
  Inv m → Inv (fold_left (λ acc i, f i acc) l m).
Proof.
  intros Hf. revert m. induction l as [|i l IH]; intros m; simpl; [done|].
  intros Hm. by apply IH, Hf.
Qed.

Lemma probe_tests_bVector i (m : Machine) :
  bVector (for_each_body (probe_pair i) m) = bVector m.
Proof. apply (fold_left_view bVector). intros. apply probe_pair_bVector. Qed.

Lemma probe_tests_sys_bVector i (m : Machine) :
  sys_bVector (mem (for_each_body (probe_pair i) m)) = sys_bVector (mem m).
Proof.
  apply (fold_left_view (λ m, sys_bVector (mem m))). intros.
  apply probe_pair_sys_bVector.
Qed.

Lemma probe_tests_prev_pos i (m : Machine) :
  prev_pos (for_each_body (probe_pair i) m) = prev_pos m.
Proof. apply (fold_left_view prev_pos). intros. apply probe_pair_prev_pos. Qed.

Lemma probe_tests_prev_vel i (m : Machine) :
  prev_vel (for_each_body (probe_pair i) m) = prev_vel m.
Proof. apply (fold_left_view prev_vel). intros. apply probe_pair_prev_vel. Qed.

Lemma probe_tests_mass_at i (m : Machine) p :
  mass_at (for_each_body (probe_pair i) m) p = mass_at m p.
Proof.
  apply (fold_left_view (λ m, mass_at m p)). intros. apply probe_pair_mass_at.
Qed.

Lemma probe_tests_state_at i (m : Machine) p :
  state_at (for_each_body (probe_pair i) m) p = state_at m p.
Proof.
  apply (fold_left_view (λ m, state_at m p)). intros. apply probe_pair_state_at.
Qed.

Lemma probe_tests_contacts_at i (m : Machine) p :
  bVector m !! i ≠ Some p →
  contacts_at (for_each_body (probe_pair i) m) p = contacts_at m p.
Proof.
  intros Hp.
  apply (fold_left_inv
           (λ m', bVector m' = bVector m ∧ contacts_at m' p = contacts_at m p));
    [|done].
  intros k m' [Hv Hc]. rewrite probe_pair_bVector. split; [done|].
  rewrite probe_pair_contacts_at; [done | by rewrite Hv].
Qed.

End FrameFacts.

(** ** The contact graph: what is recorded for fixed bodies *)

Section ContactGraphFacts.
Import Engine.
Context {P : Payload} {X : Externals P}.

Lemma probe_body_bVector b i (m : Machine) :
  bVector (probe_body b i m) = bVector m.
Proof.
  unfold probe_body. repeat case_match; try done.
  rewrite (body_op_bVector _ _ (body_op_probe_restore i)), probe_tests_bVector,
    (body_op_bVector _ _ (body_op_probe_advance b i)),
    (body_op_bVector _ _ (body_op_probe_save i)). done.
Qed.

Lemma probe_body_sys_bVector b i (m : Machine) :
  sys_bVector (mem (probe_body b i m)) = sys_bVector (mem m).
Proof.
  unfold probe_body. repeat case_match; try done.
  rewrite (body_op_sys_bVector _ _ (body_op_probe_restore i)),
    probe_tests_sys_bVector,
    (body_op_sys_bVector _ _ (body_op_probe_advance b i)),
    (body_op_sys_bVector _ _ (body_op_probe_save i)). done.
Qed.

Lemma probe_body_mass_at b i (m : Machine) p :
  mass_at (probe_body b i m) p = mass_at m p.
Proof.
  unfold probe_body. repeat case_match; try done.
  rewrite (body_op_mass_at _ _ _ (body_op_probe_restore i)), probe_tests_mass_at,
    (body_op_mass_at _ _ _ (body_op_probe_advance b i)),
    (body_op_mass_at _ _ _ (body_op_probe_save i)). done.
Qed.

Lemma probe_body_contacts_at b i (m : Machine) p :
  bVector m !! i ≠ Some p →
  contacts_at (probe_body b i m) p = contacts_at m p.
Proof.
  intros Hp. unfold probe_body. repeat case_match; try done.
  rewrite (body_op_contacts_at _ _ _ (body_op_probe_restore i)),
    probe_tests_contacts_at,
    (body_op_contacts_at _ _ _ (body_op_probe_advance b i)),
    (body_op_contacts_at _ _ _ (body_op_probe_save i)); [done|].
  by rewrite (body_op_bVector _ _ (body_op_probe_advance b i)),
    (body_op_bVector _ _ (body_op_probe_save i)).
Qed.

Lemma movable_by_mass (b b' : Body) :
  inv_mass b' = inv_mass b → movable b' = movable b.
Proof. unfold movable. by intros ->. Qed.

(** Contact edges are added only to movable bodies. *)
Lemma probe_body_fixed b i (m : Machine) p :
  fixed_without_contacts m p → fixed_without_contacts (probe_body b i m) p.
Proof.
  intros Hfix b' Hb' Hmov.
  pose proof (probe_body_mass_at b i m p) as Hmass.
  unfold mass_at in Hmass. rewrite Hb' in Hmass.
  destruct (heap (mem m) !! p) as [b0|] eqn:Hb0; [|done].
  injection Hmass as Hmass.
  destruct (decide (bVector m !! i = Some p)) as [Hi|Hi].
  - (* the probed body itself: it was movable, or nothing happened *)
    unfold probe_body, local_body in Hb'. rewrite Hi in Hb'.
    cbn [mbind option_bind] in Hb'. rewrite Hb0 in Hb'.
    destruct (movable b0) eqn:Hm0.
    + rewrite (movable_by_mass b0 b' Hmass) in Hmov. congruence.
    + rewrite Hb0 in Hb'. injection Hb' as <-. by apply Hfix.
  - pose proof (probe_body_contacts_at b i m p Hi) as Hc.
    unfold contacts_at in Hc. rewrite Hb', Hb0 in Hc. injection Hc as ->.
    apply Hfix; [done|]. by rewrite <- (movable_by_mass b0 b' Hmass).
Qed.

Lemma clear_contacts_at i (m : Machine) p :
  bVector m !! i = Some p → without_contacts (clear_contacts i m) p.
Proof.
  intros Hi b. unfold clear_contacts. rewrite lookup_update_local_body.
  rewrite decide_True by done.
  destruct (heap (mem m) !! p); simpl; [|done]. by intros [= <-].
Qed.

Lemma clear_contacts_keeps j (m : Machine) p :
  without_contacts m p → without_contacts (clear_contacts j m) p.
Proof.
  intros Hm b. unfold clear_contacts. rewrite lookup_update_local_body.
  case_decide; [|apply Hm].
  destruct (heap (mem m) !! p); simpl; [|done]. by intros [= <-].
Qed.

Lemma clear_rounds (l : list nat) (m : Machine) p :
  without_contacts m p ∨ (∃ i, i ∈ l ∧ bVector m !! i = Some p) →
  without_contacts (fold_left (λ acc i, clear_contacts i acc) l m) p.
Proof.
  revert m. induction l as [|j l IH]; intros m; simpl.
  - intros [H | (i & Hi & _)]; [done|]. by apply elem_of_nil in Hi.
  - intros [H | (i & Hi & Hp)]; apply IH.
    + left. by apply clear_contacts_keeps.
    + apply elem_of_cons in Hi as [-> | Hi].
      * left. by apply clear_contacts_at.
      * right. exists i. split; [done|].
        unfold clear_contacts. by rewrite bVector_update_local_body.
Qed.

(** After the first loop of [create_contact_graph] every body reachable
    through [bVector] has an empty contact list. *)
Lemma contacts_cleared (m : Machine) p :
  length (bVector m) = num_bodies m → p ∈ bVector m →
  without_contacts (for_each_body clear_contacts m) p.
Proof.
  intros Hlen [i Hi]%list_elem_of_lookup. apply clear_rounds. right.
  exists i. split; [|done]. apply elem_of_seq.
  apply lookup_lt_Some in Hi. lia.
Qed.

(** C6: after [create_contact_graph], every body of the program (every
    object that [bVector] pointed to on entry) that has [inv_mass = 0] has
    an empty [in_contact_list]: all lists are cleared first, and then
    contacts are pushed only on bodies with [inv_mass != 0]. *)
Theorem fixed_bodies_rest_on_nothing (is_initial : bool) (m : Machine)
    (p : nat) (b : Body) :
  tarjan_frame X →
  length (bVector m) = num_bodies m →
  p ∈ bVector m →
  heap (mem (create_contact_graph is_initial m)) !! p = Some b →
  (inv_mass b == 0)%Q →
  in_contact_list b = [].
Proof.
  intros Htarjan Hlen Hp Hb Hzero.
  unfold create_contact_graph, get_bodies, topological_tarjan in Hb.
  cbn [mem emit set_bVector set_mem] in Hb.
  set (m1 := for_each_body clear_contacts m) in *.
  set (m2 := for_each_body (probe_body is_initial) m1) in *.
  assert (fixed_without_contacts m2 p) as Hfix.
  { apply (fold_left_inv (λ m', fixed_without_contacts m' p)).
    - intros i m' Hm'. by apply probe_body_fixed.
    - intros b0 Hb0 _. by apply (contacts_cleared m p Hlen Hp). }
  pose proof (Htarjan (mem m2) p) as Hcore. rewrite Hb in Hcore.
  destruct (heap (mem m2) !! p) as [b2|] eqn:Hb2; [|done].
  injection Hcore as Hmass _ _ Hcontacts. rewrite Hcontacts.
  apply (Hfix b2 Hb2). unfold movable. rewrite <- Hmass.
  apply negb_false_iff, Qeq_bool_iff, Hzero.
Qed.

End ContactGraphFacts.

(** ** The contact graph: states and buffers *)

Section ProbeStateFacts.
Import Engine.
Context {P : Payload} {X : Externals P}.

Ltac open_body_op :=
  unfold mass_at, contacts_at, state_at,
    probe_save, probe_advance, probe_restore,
    get_state_pos, get_state_vel, set_state_pos, set_state_vel,
    integrate_vel, integrate_pos, clear_contacts;
  repeat case_match;
  cbn [mem emit set_mem set_prev_pos set_prev_vel bVector prev_pos prev_vel];
  rewrite ?sys_bVector_update_sys_body, ?sys_bVector_update_local_body,
    ?bVector_update_local_body, ?prev_pos_update_local_body,
    ?prev_vel_update_local_body;
  try done.

(** *** Saving *)

Lemma probe_save_mem i (m : Machine) : mem (probe_save i m) = mem m.
Proof. by open_body_op. Qed.

Lemma probe_save_bVector i (m : Machine) : bVector (probe_save i m) = bVector m.
Proof. by open_body_op. Qed.

Lemma probe_save_prev_pos i (m : Machine) :
  prev_pos (probe_save i m) =
  match sys_body (mem m) i with
  | Some b => <[i := pos_state b]> (prev_pos m)
  | None => prev_pos m
  end.
Proof. by open_body_op. Qed.

Lemma probe_save_prev_vel i (m : Machine) :
  prev_vel (probe_save i m) =
  match sys_body (mem m) i with
  | Some b => <[i := vel_state b]> (prev_vel m)
  | None => prev_vel m
  end.
Proof.
  unfold probe_save, get_state_vel, get_state_pos.
  destruct (sys_body (mem m) i) eqn:H; cbn [mem emit set_prev_pos];
    by rewrite H.
Qed.

(** *** Advancing *)

Lemma probe_advance_prev_pos b i (m : Machine) :
  prev_pos (probe_advance b i m) = prev_pos m.
Proof. by open_body_op. Qed.

Lemma probe_advance_prev_vel b i (m : Machine) :
  prev_vel (probe_advance b i m) = prev_vel m.
Proof. by open_body_op. Qed.

Lemma probe_advance_heap b i (m : Machine) p :
  heap (mem (probe_advance b i m)) !! p =
  if decide (sys_bVector (mem m) !! i = Some p)
  then advanced b <$> heap (mem m) !! p else heap (mem m) !! p.
Proof.
  unfold probe_advance, advanced, integrate_pos, integrate_vel. destruct b;
    cbn [mem emit set_mem]; rewrite !lookup_update_sys_body;
    rewrite ?sys_bVector_update_sys_body; case_decide; try done.
  by destruct (heap (mem m) !! p).
Qed.

(** *** Restoring *)

Lemma probe_restore_prev_pos i (m : Machine) :
  prev_pos (probe_restore i m) = prev_pos m.
Proof. by open_body_op. Qed.

Lemma probe_restore_prev_vel i (m : Machine) :
  prev_vel (probe_restore i m) = prev_vel m.
Proof. by open_body_op. Qed.

Lemma probe_restore_state_other i (m : Machine) p :
  sys_bVector (mem m) !! i ≠ Some p →
  state_at (probe_restore i m) p = state_at m p.
Proof.
  intros Hp. open_body_op; rewrite ?lookup_update_sys_body,
    ?sys_bVector_update_sys_body; by repeat case_decide.
Qed.

Lemma probe_restore_state_self i (m : Machine) p x v :
  sys_bVector (mem m) !! i = Some p →
  prev_pos m !! i = Some x → prev_vel m !! i = Some v →
  state_at (probe_restore i m) p =
  (λ _, (normalize_pos x, v)) <$> heap (mem m) !! p.
Proof.
  intros Hp Hx Hv. unfold probe_restore, set_state_vel, set_state_pos, state_at.
  cbn [prev_vel emit]. rewrite Hx. cbn [prev_vel set_mem]. rewrite Hv.
  cbn [mem emit set_mem].
  rewrite !lookup_update_sys_body, sys_bVector_update_sys_body.
  rewrite !decide_True by done. by destruct (heap (mem m) !! p).
Qed.

(** *** The probe of one body *)

Lemma probe_body_prev_pos_length b i (m : Machine) :
  length (prev_pos (probe_body b i m)) = length (prev_pos m).
Proof.
  unfold probe_body. repeat case_match; try done.
  rewrite probe_restore_prev_pos, probe_tests_prev_pos, probe_advance_prev_pos,
    probe_save_prev_pos.
  case_match; [apply length_insert | done].
Qed.

Lemma probe_body_prev_vel_length b i (m : Machine) :
  length (prev_vel (probe_body b i m)) = length (prev_vel m).
Proof.
  unfold probe_body. repeat case_match; try done.
  rewrite probe_restore_prev_vel, probe_tests_prev_vel, probe_advance_prev_vel,
    probe_save_prev_vel.
  case_match; [apply length_insert | done].
Qed.

(** The probe of body [i] writes no slot but [i]. *)
Lemma probe_body_prev_other b i (m : Machine) j :
  j ≠ i →
  prev_pos (probe_body b i m) !! j = prev_pos m !! j ∧
  prev_vel (probe_body b i m) !! j = prev_vel m !! j.
Proof.
  intros Hj. unfold probe_body. repeat case_match; try done.
  rewrite probe_restore_prev_pos, probe_tests_prev_pos, probe_advance_prev_pos,
    probe_save_prev_pos.
  rewrite probe_restore_prev_vel, probe_tests_prev_vel, probe_advance_prev_vel,
    probe_save_prev_vel.
  case_match; [|done]. by rewrite !list_lookup_insert_ne.
Qed.

(** The probe of a movable body [i] leaves in slot [i] the state that the
    system's body [i] had when the probe began. *)
Lemma probe_body_prev_self b i (m : Machine) bl bs :
  local_body m i = Some bl → movable bl = true →
  sys_body (mem m) i = Some bs →
  (i < length (prev_pos m))%nat → (i < length (prev_vel m))%nat →
  prev_pos (probe_body b i m) !! i = Some (pos_state bs) ∧
  prev_vel (probe_body b i m) !! i = Some (vel_state bs).
Proof.
  intros Hl Hm Hs Hp Hv. unfold probe_body. rewrite Hl, Hm.
  rewrite probe_restore_prev_pos, probe_tests_prev_pos, probe_advance_prev_pos,
    probe_save_prev_pos.
  rewrite probe_restore_prev_vel, probe_tests_prev_vel, probe_advance_prev_vel,
    probe_save_prev_vel.
  rewrite Hs. by rewrite !list_lookup_insert_eq.
Qed.

(** The probe of body [i] gives every body back its (x,v), provided that
    the buffers have the slot [i] and that the orientation of the system's
    body [i] is normalised. *)
Lemma probe_body_state_at b i (m : Machine) p :
  (i < length (prev_pos m))%nat → (i < length (prev_vel m))%nat →
  (∀ bs, sys_body (mem m) i = Some bs →
         normalize_pos (pos_state bs) = pos_state bs) →
  state_at (probe_body b i m) p = state_at m p.
Proof.
  intros Hp Hv Hnorm. unfold probe_body. repeat case_match; try done.
  set (m1 := probe_save i m).
  set (m2 := probe_advance b i m1).
  set (m3 := for_each_body (probe_pair i) m2).
  assert (sys_bVector (mem m3) = sys_bVector (mem m)) as Hvec.
  { unfold m3, m2, m1.
    by rewrite probe_tests_sys_bVector,
      (body_op_sys_bVector _ _ (body_op_probe_advance b i)), probe_save_mem. }
  assert (∀ p', sys_bVector (mem m) !! i ≠ Some p' →
                state_at m3 p' = state_at m p') as Hother.
  { intros p' Hp'. unfold m3. rewrite probe_tests_state_at. unfold state_at, m2.
    rewrite probe_advance_heap. unfold m1. rewrite probe_save_mem.
    by rewrite decide_False. }
  destruct (decide (sys_bVector (mem m) !! i = Some p)) as [Hq|Hq].
  - destruct (heap (mem m) !! p) as [bs|] eqn:Hbs.
    + assert (sys_body (mem m) i = Some bs) as Hs
        by (unfold sys_body; rewrite Hq; exact Hbs).
      rewrite (probe_restore_state_self i m3 p (pos_state bs) (vel_state bs)).
      * assert (is_Some (heap (mem m3) !! p)) as [b3 ->].
        { pose proof (probe_tests_mass_at i m2 p) as H3.
          pose proof (body_op_mass_at _ m1 p (body_op_probe_advance b i)) as H2.
          unfold mass_at in H2, H3. fold m2 in H2. fold m3 in H3.
          unfold m1 in H2. rewrite probe_save_mem, Hbs in H2.
          rewrite H2 in H3. destruct (heap (mem m3) !! p); [by eexists | done]. }
        unfold state_at. rewrite Hbs. simpl. by rewrite (Hnorm bs Hs).
      * by rewrite Hvec.
      * unfold m3, m2, m1.
        rewrite probe_tests_prev_pos, probe_advance_prev_pos, probe_save_prev_pos, Hs.
        by apply list_lookup_insert_eq.
      * unfold m3, m2, m1.
        rewrite probe_tests_prev_vel, probe_advance_prev_vel, probe_save_prev_vel, Hs.
        by apply list_lookup_insert_eq.
    + (* a dangling pointer: there is no body to change *)
      pose proof (body_op_mass_at _ m3 p (body_op_probe_restore i)) as H4.
      pose proof (probe_tests_mass_at i m2 p) as H3.
      pose proof (body_op_mass_at _ m1 p (body_op_probe_advance b i)) as H2.
      unfold mass_at in H2, H3, H4. fold m2 in H2. fold m3 in H3.
      unfold m1 in H2. rewrite probe_save_mem, Hbs in H2.
      rewrite H2 in H3. rewrite H3 in H4. unfold state_at. rewrite Hbs.
      by destruct (heap (mem (probe_restore i m3)) !! p).
  - rewrite probe_restore_state_other by (by rewrite Hvec). by apply Hother.
Qed.

End ProbeStateFacts.

(** ** [create_contact_graph]: every body keeps its state, the buffers do
    not keep theirs *)

Section ContactGraphStates.
Import Engine.
Context {P : Payload} {X : Externals P}.

Lemma sys_body_transfer (m m' : Machine) i bs :
  sys_bVector (mem m') = sys_bVector (mem m) →
  (∀ p, state_at m' p = state_at m p) →
  sys_body (mem m) i = Some bs →
  ∃ bs', sys_body (mem m') i = Some bs' ∧ body_state bs' = body_state bs.
Proof.
  unfold sys_body, state_at. intros -> Hst.
  destruct (sys_bVector (mem m) !! i) as [q|]; [|done]. cbn [mbind option_bind].
  intros Hbs. specialize (Hst q). rewrite Hbs in Hst.
  destruct (heap (mem m') !! q) as [bs'|]; [|done].
  exists bs'. split; [done|]. simpl in Hst. congruence.
Qed.

Lemma local_body_transfer (m m' : Machine) i bl :
  bVector m' = bVector m →
  (∀ p, mass_at m' p = mass_at m p) →
  local_body m i = Some bl →
  ∃ bl', local_body m' i = Some bl' ∧ inv_mass bl' = inv_mass bl.
Proof.
  unfold local_body, mass_at. intros -> Hmass.
  destruct (bVector m !! i) as [q|]; [|done]. cbn [mbind option_bind].
  intros Hbl. specialize (Hmass q). rewrite Hbl in Hmass.
  destruct (heap (mem m') !! q) as [bl'|]; [|done].
  exists bl'. split; [done|]. simpl in Hmass. congruence.
Qed.

Lemma normalised_transfer (m m' : Machine) :
  (∀ p, state_at m' p = state_at m p) → normalised m → normalised m'.
Proof.
  intros Hst Hn p b' Hb'. specialize (Hst p). unfold state_at in Hst.
  rewrite Hb' in Hst. destruct (heap (mem m) !! p) as [b|] eqn:Hb; [|done].
  injection Hst as Hx _. rewrite Hx. by apply (Hn p).
Qed.

Lemma probe_body_state_of_normalised b i (m : Machine) p :
  buffers_fit m → normalised m → (i < num_bodies m)%nat →
  state_at (probe_body b i m) p = state_at m p.
Proof.
  intros [Hp Hv] Hn Hi. unfold num_bodies in Hi.
  apply probe_body_state_at; [lia | lia |].
  unfold sys_body. intros bs Hbs.
  destruct (sys_bVector (mem m) !! i) as [q|]; [|done]. by apply (Hn q).
Qed.

(** The second loop of [create_contact_graph], over any list of indices. *)
Lemma probe_rounds b (m : Machine) (l : list nat) :
  buffers_fit m → normalised m → (∀ i, i ∈ l → (i < num_bodies m)%nat) →
  let m' := fold_left (λ acc i, probe_body b i acc) l m in
  bVector m' = bVector m ∧
  sys_bVector (mem m') = sys_bVector (mem m) ∧
  (∀ p, state_at m' p = state_at m p) ∧
  (∀ p, mass_at m' p = mass_at m p) ∧
  length (prev_pos m') = length (prev_pos m) ∧
  length (prev_vel m') = length (prev_vel m) ∧
  ∀ i bl bs, i ∈ l →
    local_body m i = Some bl → movable bl = true → sys_body (mem m) i = Some bs →
    prev_pos m' !! i = Some (pos_state bs) ∧ prev_vel m' !! i = Some (vel_state bs).
Proof.
  intros Hfit Hn. induction l as [|j l IH] using rev_ind; intros Hl; simpl.
  - split_and!; try done. intros i bl bs Hi. by apply elem_of_nil in Hi.
  - rewrite fold_left_app. simpl.
    destruct IH as (Hb & Hs & Hst & Hmass & Hlp & Hlv & Hslots).
    { intros i Hi. apply Hl, elem_of_app. by left. }
    set (ml := fold_left (λ acc i, probe_body b i acc) l m) in *.
    assert (j < num_bodies m)%nat as Hj
      by (apply Hl, elem_of_app; right; by apply list_elem_of_singleton).
    assert (buffers_fit ml) as Hfit'.
    { destruct Hfit. unfold buffers_fit. rewrite Hs, Hlp, Hlv. done. }
    assert (normalised ml) as Hn' by (by apply (normalised_transfer m)).
    assert (j < num_bodies ml)%nat as Hj' by (unfold num_bodies; by rewrite Hs).
    split; [by rewrite probe_body_bVector|].
    split; [by rewrite probe_body_sys_bVector|].
    split; [intros p; by rewrite probe_body_state_of_normalised|].
    split; [intros p; by rewrite probe_body_mass_at|].
    split; [by rewrite probe_body_prev_pos_length|].
    split; [by rewrite probe_body_prev_vel_length|].
    intros i bl bs Hi Hbl Hmov Hbs.
    destruct (decide (i = j)) as [->|Hij].
    + destruct (local_body_transfer m ml j bl Hb Hmass Hbl) as (bl' & Hbl' & Hm').
      destruct (sys_body_transfer m ml j bs Hs Hst Hbs) as (bs' & Hbs' & Hst').
      injection Hst' as <- <-.
      destruct Hfit' as [Hfp Hfv]. unfold num_bodies in Hj'.
      apply (probe_body_prev_self b j ml bl' bs'); try done; try lia.
      by rewrite (movable_by_mass bl bl').
    + destruct (probe_body_prev_other b j ml i Hij) as [-> ->].
      apply (Hslots i bl bs); try done.
      apply elem_of_app in Hi as [Hi|Hi]; [done|].
      apply list_elem_of_singleton in Hi. done.
Qed.

Lemma clear_contacts_state_at i (m : Machine) p :
  state_at (clear_contacts i m) p = state_at m p.
Proof. unfold clear_contacts, state_at. by apply view_update_local_body. Qed.

Lemma clear_contacts_mass_at i (m : Machine) p :
  mass_at (clear_contacts i m) p = mass_at m p.
Proof. unfold clear_contacts, mass_at. by apply view_update_local_body. Qed.

(** The first loop of [create_contact_graph] touches contact lists only. *)
Lemma clear_all_frame (m : Machine) :
  let m' := for_each_body clear_contacts m in
  bVector m' = bVector m ∧
  sys_bVector (mem m') = sys_bVector (mem m) ∧
  (∀ p, state_at m' p = state_at m p) ∧
  (∀ p, mass_at m' p = mass_at m p) ∧
  prev_pos m' = prev_pos m ∧
  prev_vel m' = prev_vel m.
Proof.
  cbn zeta. unfold for_each_body.
  split; [apply (fold_left_view bVector); intros;
          apply bVector_update_local_body|].
  split; [apply (fold_left_view (λ m, sys_bVector (mem m))); intros;
          apply sys_bVector_update_local_body|].
  split; [intros p; apply (fold_left_view (λ m, state_at m p)); intros;
          apply clear_contacts_state_at|].
  split; [intros p; apply (fold_left_view (λ m, mass_at m p)); intros;
          apply clear_contacts_mass_at|].
  split; [apply (fold_left_view prev_pos); intros;
          apply prev_pos_update_local_body|].
  apply (fold_left_view prev_vel); intros. apply prev_vel_update_local_body.
Qed.

(** C9: [create_contact_graph] gives every body back the position and
    velocity state it had on entry, and for every index [i] whose body is
    movable it leaves in slot [i] of [prev_pos] and [prev_vel] the state
    that the system's body [i] had during the call -- whatever snapshot
    the caller had stored there. *)
Theorem contact_graph_keeps_states_not_buffers (is_initial : bool) (m : Machine) :
  tarjan_frame X → buffers_fit m → normalised m →
  (∀ p b, heap (mem m) !! p = Some b →
     ∃ b', heap (mem (create_contact_graph is_initial m)) !! p = Some b' ∧
           pos_state b' = pos_state b ∧ vel_state b' = vel_state b) ∧
  (∀ i bl bs,
     local_body m i = Some bl → movable bl = true →
     sys_body (mem m) i = Some bs →
     prev_pos (create_contact_graph is_initial m) !! i = Some (pos_state bs) ∧
     prev_vel (create_contact_graph is_initial m) !! i = Some (vel_state bs)).
Proof.
  intros Htarjan Hfit Hn.
  destruct (clear_all_frame m) as (Hb1 & Hs1 & Hst1 & Hm1 & Hp1 & Hv1).
  set (m1 := for_each_body clear_contacts m) in *.
  assert (buffers_fit m1) as Hfit1
    by (unfold buffers_fit; by rewrite Hs1, Hp1, Hv1).
  assert (normalised m1) as Hn1 by (by apply (normalised_transfer m)).
  destruct (probe_rounds is_initial m1 (seq 0 (num_bodies m1)) Hfit1 Hn1)
    as (Hb2 & Hs2 & Hst2 & Hm2 & _ & _ & Hslots).
  { intros i Hi. apply elem_of_seq in Hi. lia. }
  fold (for_each_body (probe_body is_initial) m1) in *.
  set (m2 := for_each_body (probe_body is_initial) m1) in *.
  unfold create_contact_graph. fold m1. fold m2.
  unfold get_bodies, topological_tarjan.
  cbn [mem emit set_bVector set_mem prev_pos prev_vel]. split.
  - intros p b Hb. pose proof (Htarjan (mem m2) p) as Hcore.
    pose proof (Hst2 p) as H2. rewrite Hst1 in H2. unfold state_at in H2.
    rewrite Hb in H2. destruct (heap (mem m2) !! p) as [b2|]; [|done].
    destruct (heap (sys_topological_tarjan (mem m2)) !! p) as [b3|]; [|done].
    exists b3. split; [done|]. injection Hcore as _ Hx Hv _. injection H2 as Hx2 Hv2.
    split; congruence.
  - intros i bl bs Hbl Hmov Hbs.
    destruct (local_body_transfer m m1 i bl Hb1 Hm1 Hbl) as (bl' & Hbl' & Hm').
    destruct (sys_body_transfer m m1 i bs Hs1 Hst1 Hbs) as (bs' & Hbs' & Hst').
    injection Hst' as <- <-.
    apply (Hslots i bl' bs'); try done.
    + apply elem_of_seq. unfold sys_body in Hbs'.
      destruct (sys_bVector (mem m1) !! i) eqn:Hi; [|done].
      apply lookup_lt_Some in Hi. unfold num_bodies. lia.
    + by rewrite (movable_by_mass bl bl').
Qed.

End ContactGraphStates.

(** ** The probe of one body, step by step *)

Section ProbeOrder.
Import Engine.
Context {P : Payload} {X : Externals P}.

Lemma trace_probe_save i (m : Machine) :
  trace (probe_save i m) = trace m ++ [EvGetStatePos i; EvGetStateVel i].
Proof.
  unfold probe_save, get_state_vel, get_state_pos.
  destruct (sys_body (mem m) i) eqn:H; cbn [mem emit set_prev_pos trace];
    rewrite H; simpl; by rewrite <- app_assoc.
Qed.

Lemma trace_probe_advance b i (m : Machine) :
  trace (probe_advance b i m) =
  trace m ++ (if b then [EvIntegrateVel i] else []) ++ [EvIntegratePos i].
Proof.
  unfold probe_advance, integrate_pos, integrate_vel.
  destruct b; simpl; by rewrite <- ?app_assoc.
Qed.

Lemma tested_against_app i l1 l2 :
  tested_against i (l1 ++ l2) = tested_against i l1 ++ tested_against i l2.
Proof. unfold tested_against. apply flat_map_app. Qed.

Lemma local_body_pointer (m : Machine) k :
  is_Some (local_body m k) → is_Some (bVector m !! k).
Proof. unfold local_body. intros [b Hb]. by destruct (bVector m !! k). Qed.

(** With valid pointers, a round of the inner loop logs one test of [k]
    against [i], unless [k] is [i]. *)
Lemma probe_pair_log i k (m : Machine) :
  is_Some (local_body m k) → is_Some (local_body m i) →
  ∃ evs, trace (probe_pair i k m) = trace m ++ evs ∧
         tested_against i evs = if (k =? i)%nat then [] else [k].
Proof.
  intros Hk [bi Hi]. pose proof (local_body_pointer m k Hk) as [pk Hpk].
  destruct Hk as [bk Hk]. unfold probe_pair.
  destruct (k =? i)%nat; [exists []; by rewrite app_nil_r|].
  rewrite Hpk, Hk, Hi. destruct (intersection_test bk bi) as [[pt nrm]|].
  - exists [EvIntersectionTest k i true]. cbn [trace emit].
    rewrite trace_update_local_body. simpl. by rewrite Nat.eqb_refl.
  - exists [EvIntersectionTest k i false]. simpl. by rewrite Nat.eqb_refl.
Qed.

Lemma probe_pair_valid i k (m : Machine) j :
  is_Some (local_body m j) → is_Some (local_body (probe_pair i k m) j).
Proof.
  intros [b Hb].
  destruct (local_body_transfer m (probe_pair i k m) j b) as (b' & Hb' & _);
    [apply probe_pair_bVector | intros; apply probe_pair_mass_at | done |].
  by exists b'.
Qed.

Lemma probe_tests_log i (l : list nat) (m : Machine) :
  (∀ k, k ∈ l → is_Some (local_body m k)) → is_Some (local_body m i) →
  ∃ evs, trace (fold_left (λ acc k, probe_pair i k acc) l m) = trace m ++ evs ∧
         tested_against i evs = List.filter (λ k, negb (k =? i)%nat) l.
Proof.
  revert m. induction l as [|k l IH]; intros m Hl Hi; simpl.
  - exists []. by rewrite app_nil_r.
  - destruct (probe_pair_log i k m) as (e1 & H1 & T1);
      [apply Hl; by left | done |].
    destruct (IH (probe_pair i k m)) as (e2 & H2 & T2).
    { intros k' Hk'. apply probe_pair_valid, Hl. by right. }
    { by apply probe_pair_valid. }
    exists (e1 ++ e2). rewrite H2, H1, <- app_assoc. split; [done|].
    rewrite tested_against_app, T1, T2. by destruct (k =? i)%nat.
Qed.

(** C3, as the code has it: the probe of a movable body [i] starts by
    copying the current (x,v) of the system's body [i] into slot [i] of
    the two buffers, and leaves the system as it is -- the body is saved,
    not restored; then the body is integrated from that current state,
    velocity first and only when [is_initial], nothing else being changed;
    then every other body is tested against body [i] of [bVector], which
    is the advanced body when the two vectors agree at [i]; the two
    [set_state] calls come last. *)
Theorem probe_saves_then_integrates (is_initial : bool) (i q : nat)
    (m : Machine) (bl bs : Body) :
  local_body m i = Some bl → movable bl = true →
  sys_bVector (mem m) !! i = Some q → heap (mem m) !! q = Some bs →
  (i < length (prev_pos m))%nat → (i < length (prev_vel m))%nat →
  let m1 := probe_save i m in
  let m2 := probe_advance is_initial i m1 in
  let m3 := for_each_body (probe_pair i) m2 in
  probe_body is_initial i m = probe_restore i m3 ∧
  mem m1 = mem m ∧
  prev_pos m1 !! i = Some (pos_state bs) ∧
  prev_vel m1 !! i = Some (vel_state bs) ∧
  log_since m m2 =
    [EvGetStatePos i; EvGetStateVel i] ++
    (if is_initial then [EvIntegrateVel i] else []) ++ [EvIntegratePos i] ∧
  heap (mem m2) !! q = Some (advanced is_initial bs) ∧
  (∀ p, p ≠ q → heap (mem m2) !! p = heap (mem m) !! p) ∧
  (bVector m !! i = Some q → local_body m2 i = Some (advanced is_initial bs)) ∧
  ((∀ k, (k < num_bodies m)%nat → is_Some (local_body m k)) →
   tested_against i (log_since m2 m3) =
   List.filter (λ k, negb (k =? i)%nat) (seq 0 (num_bodies m))).
Proof.
  intros Hbl Hmov Hq Hbs Hp Hv m1 m2 m3.
  assert (sys_body (mem m) i = Some bs) as Hs
    by (unfold sys_body; rewrite Hq; exact Hbs).
  split; [unfold probe_body; by rewrite Hbl, Hmov|].
  split; [apply probe_save_mem|].
  split; [unfold m1; rewrite probe_save_prev_pos, Hs;
          by apply list_lookup_insert_eq|].
  split; [unfold m1; rewrite probe_save_prev_vel, Hs;
          by apply list_lookup_insert_eq|].
  split.
  { unfold log_since, m2, m1.
    rewrite trace_probe_advance, trace_probe_save, <- app_assoc.
    by rewrite drop_app_length. }
  split.
  { unfold m2. rewrite probe_advance_heap. unfold m1.
    rewrite probe_save_mem, decide_True by done. by rewrite Hbs. }
  split.
  { intros p Hpq. unfold m2. rewrite probe_advance_heap. unfold m1.
    rewrite probe_save_mem, decide_False; [done | congruence]. }
  assert (bVector m2 = bVector m) as Hb2.
  { unfold m2, m1. by rewrite (body_op_bVector _ _ (body_op_probe_advance _ i)),
      probe_save_bVector. }
  split.
  { intros Hsync. unfold local_body. rewrite Hb2, Hsync. cbn [mbind option_bind].
    unfold m2. rewrite probe_advance_heap. unfold m1.
    rewrite probe_save_mem, decide_True by done. by rewrite Hbs. }
  intros Hvalid.
  assert (∀ p, mass_at m2 p = mass_at m p) as Hm2.
  { intros p. unfold m2, m1.
    by rewrite (body_op_mass_at _ _ _ (body_op_probe_advance _ i)),
      (body_op_mass_at _ _ _ (body_op_probe_save i)). }
  assert (num_bodies m2 = num_bodies m) as Hn2.
  { unfold num_bodies, m2, m1.
    by rewrite (body_op_sys_bVector _ _ (body_op_probe_advance _ i)),
      probe_save_mem. }
  assert (∀ k b, local_body m k = Some b → is_Some (local_body m2 k)) as Hval2.
  { intros k b Hk.
    destruct (local_body_transfer m m2 k b Hb2 Hm2 Hk) as (b' & Hb' & _).
    by exists b'. }
  destruct (probe_tests_log i (seq 0 (num_bodies m2)) m2) as (evs & Ht & Htest).
  { intros k Hk%elem_of_seq. destruct (Hvalid k) as [b Hb]; [lia|].
    by apply (Hval2 k b). }
  { by apply (Hval2 i bl). }
  unfold log_since, m3, for_each_body. rewrite Ht, drop_app_length, Htest.
  by rewrite Hn2.
Qed.

End ProbeOrder.

(** ** The order of shuffle and snapshot *)

Section SnapshotOrder.
Import Engine.
Context {P : Payload} {X : Externals P}.

(** The events of the loop "get x and v" over [n] bodies. *)
Lemma trace_snapshot (m : Machine) :
  trace (snapshot m) =
  trace m ++ flat_map (λ i, [EvGetStatePos i; EvGetStateVel i])
                      (seq 0 (num_bodies m)).
Proof.
  apply (trace_fold_exact
           (λ i acc, get_state_vel i (get_state_pos i acc))
           (λ i, [EvGetStatePos i; EvGetStateVel i])).
  intros i m'. apply (trace_probe_save i m').
Qed.

Lemma snapshot_round_mem i (m : Machine) :
  mem (get_state_vel i (get_state_pos i m)) = mem m.
Proof. apply (probe_save_mem i m). Qed.

(** The snapshot loop, over any list of indices: the system is not
    touched, and each slot visited holds the state of the body of that
    index. *)
Lemma snapshot_rounds (l : list nat) (m : Machine) :
  let m' := fold_left (λ acc i, get_state_vel i (get_state_pos i acc)) l m in
  mem m' = mem m ∧
  length (prev_pos m') = length (prev_pos m) ∧
  length (prev_vel m') = length (prev_vel m) ∧
  ∀ i b, i ∈ l → sys_body (mem m) i = Some b →
         (i < length (prev_pos m))%nat → (i < length (prev_vel m))%nat →
         prev_pos m' !! i = Some (pos_state b) ∧
         prev_vel m' !! i = Some (vel_state b).
Proof.
  induction l as [|j l IH] using rev_ind; cbn zeta in *.
  - cbn [fold_left]. split_and!; try done.
    intros i b Hi. by apply elem_of_nil in Hi.
  - rewrite fold_left_app. cbn [fold_left].
    destruct IH as (Hm & Hlp & Hlv & Hslots).
    set (ml := fold_left (λ acc i, get_state_vel i (get_state_pos i acc)) l m) in *.
    change (get_state_vel j (get_state_pos j ml)) with (probe_save j ml).
    rewrite probe_save_mem, probe_save_prev_pos, probe_save_prev_vel, Hm.
    split; [done|].
    split; [by destruct (sys_body (mem m) j); rewrite ?length_insert|].
    split; [by destruct (sys_body (mem m) j); rewrite ?length_insert|].
    intros i b Hi Hb Hp Hv. destruct (decide (i = j)) as [->|Hij].
    + rewrite Hb. rewrite !list_lookup_insert_eq by lia. done.
    + assert (i ∈ l) as Hil.
      { apply elem_of_app in Hi as [Hi|Hi]; [done|].
        by apply list_elem_of_singleton in Hi. }
      destruct (Hslots i b Hil Hb Hp Hv) as [Hx Hy].
      by destruct (sys_body (mem m) j); rewrite ?list_lookup_insert_ne.
Qed.

(** After the buffers are declared and the snapshot is taken, slot [i]
    holds the state of the body that the system has at index [i] at that
    moment. *)
Lemma snapshot_holds_current_order (m : Machine) i b :
  sys_body (mem m) i = Some b →
  prev_pos (snapshot (declare_buffers m)) !! i = Some (pos_state b) ∧
  prev_vel (snapshot (declare_buffers m)) !! i = Some (vel_state b).
Proof.
  intros Hb.
  destruct (snapshot_rounds (seq 0 (num_bodies (declare_buffers m)))
              (declare_buffers m)) as (_ & _ & _ & Hslots).
  assert (i < num_bodies m)%nat as Hi.
  { unfold sys_body in Hb. destruct (sys_bVector (mem m) !! i) eqn:H; [|done].
    by apply lookup_lt_Some in H. }
  apply (Hslots i b).
  - apply elem_of_seq. unfold num_bodies in *. simpl. lia.
  - exact Hb.
  - unfold declare_buffers. simpl. by rewrite length_replicate.
  - unfold declare_buffers. simpl. by rewrite length_replicate.
Qed.

(** *** No swap is attempted after the shuffle *)

Lemma no_swaps_skip_body_ops : skips_body_ops is_swap_attempt.
Proof. by intros []. Qed.

Lemma filter_swaps_collision (k : nat) (b : bool) :
  List.filter is_swap_attempt (collision_rounds k ++ [EvCollsionDetect b]) = [].
Proof.
  rewrite List.filter_app. simpl. rewrite app_nil_r.
  induction k as [|k IH]; [done|]. rewrite collision_rounds_S, List.filter_app.
  simpl. exact IH.
Qed.

Lemma contact_loop_no_swaps shock limit (fuel : nat) (count : Z) (m : Machine) :
  grows is_swap_attempt m (snd (contact_loop shock limit fuel count m)) [].
Proof.
  revert count m. induction fuel as [|fuel IH]; intros count m; simpl;
    pose proof (grows_contact_detect is_swap_attempt count shock m) as Hd;
    destruct (contact_detect count shock m) as [hit m1]; cbn [fst snd] in Hd;
    destruct (hit && (count <? limit)); try exact Hd.
  eapply grows_quiet_step; [exact Hd|].
  eapply grows_quiet_step; [|apply IH].
  apply (grows_create_contact_graph is_swap_attempt no_swaps_skip_body_ops).
Qed.

Lemma tick_rest_no_swaps (m : Machine) :
  grows is_swap_attempt (snapshot (declare_buffers (shuffle m))) (idle_func m) [].
Proof.
  pose proof no_swaps_skip_body_ops as Hk.
  unfold idle_func, tick_prologue.
  set (m0 := snapshot (declare_buffers (shuffle m))).
  eapply grows_quiet_step; [apply (grows_integrate_all is_swap_attempt Hk)|].
  destruct (collision_loop_log is_swap_attempt (fuel_for MAX_COLLISIONS 0) 0
              (integrate_all m0) Hk)
    as (k & b & m1 & _ & _ & _ & _ & Hlog); [done|].
  rewrite filter_swaps_collision in Hlog. unfold collision_phase.
  destruct (collision_loop (fuel_for MAX_COLLISIONS 0) 0 (integrate_all m0))
    as [c mc]. cbn [snd] in Hlog.
  eapply grows_quiet_step; [exact Hlog|].
  eapply grows_quiet_step.
  { unfold contact_setup.
    eapply grows_quiet_step; [apply (quiet_restore_all is_swap_attempt Hk)|].
    eapply grows_quiet_step; [apply (grows_forces is_swap_attempt)|].
    eapply grows_quiet_step;
      [apply (grows_create_contact_graph is_swap_attempt Hk)|].
    apply (quiet_integrate_vel_all is_swap_attempt Hk). }
  unfold contact_resolution, contact_phase.
  pose proof (contact_loop_no_swaps false MAX_CONTACTS (fuel_for MAX_CONTACTS 0)
                0 (contact_setup mc)) as Hloop.
  destruct (contact_loop false MAX_CONTACTS (fuel_for MAX_CONTACTS 0) 0
              (contact_setup mc)) as [c2 m2]. cbn [snd] in Hloop.
  eapply grows_quiet_step; [exact Hloop|].
  eapply grows_quiet_step;
    [apply (grows_create_contact_graph is_swap_attempt Hk)|].
  eapply grows_quiet_step; [|apply (quiet_integrate_pos_all is_swap_attempt Hk)].
  unfold shock_phase. destruct (c2 =? MAX_CONTACTS); [|by apply grows_refl].
  apply contact_loop_no_swaps.
Qed.

Lemma num_bodies_declare_buffers (m : Machine) :
  num_bodies (declare_buffers m) = num_bodies m.
Proof. reflexivity. Qed.

Lemma first_index_app_hit (f : Event → bool) (e : Event) (l : list Event) :
  f e = true → first_index f (e :: l) = Some O.
Proof. intros H. simpl. by rewrite H. Qed.

(** C8, as the code has it: a tick first makes its 15 swap attempts and
    only then reads the (x,v) of every body into [prev_pos] and
    [prev_vel]; no swap is attempted later in the tick, and the snapshot
    is indexed by the order that the shuffle left. *)
Theorem shuffle_precedes_snapshot (m : Machine) :
  ∃ (swaps rest : list Event),
    tick_log m =
      swaps ++
      flat_map (λ i, [EvGetStatePos i; EvGetStateVel i]) (seq 0 (num_bodies m)) ++
      rest ∧
    length swaps = 15%nat ∧
    forallb is_swap_attempt swaps = true ∧
    List.filter is_swap_attempt rest = [] ∧
    occurs_before is_swap_attempt is_state_read (tick_log m) = true ∧
    ∀ i b, sys_body (mem (shuffle m)) i = Some b →
      prev_pos (snapshot (declare_buffers (shuffle m))) !! i = Some (pos_state b) ∧
      prev_vel (snapshot (declare_buffers (shuffle m))) !! i = Some (vel_state b).
Proof.
  destruct (shuffle_log m) as (swaps & Hswaps & Hlen & Hall).
  destruct (tick_rest_no_swaps m) as (rest & Hrest & Hnone).
  rewrite trace_snapshot in Hrest. rewrite trace_declare_buffers, Hswaps in Hrest.
  assert (num_bodies (declare_buffers (shuffle m)) = num_bodies m) as Hn.
  { rewrite num_bodies_declare_buffers.
    destruct (shuffle_state m) as (_ & _ & Hperm & _).
    apply (Permutation_length Hperm). }
  rewrite Hn in Hrest.
  assert (tick_log m =
          swaps ++ flat_map (λ i, [EvGetStatePos i; EvGetStateVel i])
                            (seq 0 (num_bodies m)) ++ rest) as Hlog.
  { unfold tick_log, log_since. rewrite Hrest, <- !app_assoc.
    by rewrite drop_app_length. }
  exists swaps, rest. split_and!; try done.
  - rewrite Hlog. destruct swaps as [|e swaps]; [done|].
    simpl in Hall. apply andb_true_iff in Hall as [He _].
    unfold occurs_before. rewrite <- app_comm_cons.
    rewrite (first_index_app_hit is_swap_attempt) by done.
    simpl. destruct e; try done.
    simpl. by destruct (first_index is_state_read _).
  - intros i b Hb. by apply snapshot_holds_current_order.
Qed.

End SnapshotOrder.

(** ** The one-dimensional instance at work *)

Section ToyFacts.
Import Engine Toy.

Lemma toy_tarjan_frame collide contact rnd :
  tarjan_frame (world collide contact rnd).
Proof. intros s p. reflexivity. Qed.

Lemma toy_normalised collide contact rnd (m : Machine) :
  normalised (X := world collide contact rnd) m.
Proof. intros p b _. reflexivity. Qed.

(** [mid_tick] is the machine that the first tick of [low_boxes] hands to
    [create_contact_graph] in the contact loop, once [contact_detect] has
    applied an impulse. *)
Example mid_tick_is_reached :
  let W := world false always pick_floor in
  let reached :=
    snd (contact_detect (X := W) 0 false (tick_to_contact_loop (X := W) low_boxes)) in
  mem reached = mem mid_tick ∧ bVector reached = bVector mid_tick ∧
  prev_pos reached = prev_pos mid_tick ∧ prev_vel reached = prev_vel mid_tick ∧
  rand_calls reached = 30%nat.
Proof. vm_compute. done. Qed.

(** What [create_contact_graph] does there: the first box is probed from
    its current momentum -1, is found one unit above the floor, and is
    recorded as resting on it; the momenta in [prev_vel] are overwritten. *)
Example mid_tick_contact_graph :
  let m := create_contact_graph (X := world false always pick_floor) false mid_tick in
  contacts_at m 1 = Some [mkContactInfo 0 tt tt] ∧
  state_at m 1 = Some (2, -1) ∧
  prev_pos m = [0; 2; 9] ∧ prev_vel m = [0; -1; -1].
Proof. vm_compute. done. Qed.

(** C3, counterexample: in [mid_tick] the probe of the first box does not
    start from the snapshot (height 2, momentum 0) held in slot 1 of the
    buffers, but from the current momentum -1. *)
Lemma probe_does_not_restore_snapshot :
  ¬ spec_probe_from_snapshot (X := world false always pick_floor) 1 mid_tick.
Proof.
  intros (b & Hb & Hx & Hv). vm_compute in Hb. injection Hb as <-.
  vm_compute in Hv. discriminate.
Qed.

(** C4, counterexample: when [contact_detect] applies an impulse at every
    call, a tick calls [contact_detect(count, false)] eleven times. *)
Lemma contact_detect_called_eleven_times :
  ¬ spec_contact_pass_bound
      (tick_log (X := world false always pick_boxes_once) two_boxes).
Proof. unfold spec_contact_pass_bound. vm_compute. lia. Qed.

Example saturated_contact_loop :
  let W := world false always pick_boxes_once in
  contact_exit_count (X := W) two_boxes = 10 ∧
  List.filter is_contact_pass (tick_log (X := W) two_boxes) =
    map (λ c, EvContactDetect c false true) [0; 1; 2; 3; 4; 5; 6; 7; 8; 9; 10] ∧
  List.filter is_shock_pass (tick_log (X := W) two_boxes) =
    [EvContactDetect 10 true true].
Proof. vm_compute. done. Qed.

(** The eleventh call may be the one that applies no impulse: the loop
    is left at [count = 10] all the same, and the shock pass runs. *)
Example quiet_eleventh_call :
  let W := world false (λ count _, count <? 10) pick_boxes_once in
  contact_exit_count (X := W) two_boxes = 10 ∧
  last (List.filter is_contact_pass (tick_log (X := W) two_boxes)) =
    Some (EvContactDetect 10 false false) ∧
  List.filter is_shock_pass (tick_log (X := W) two_boxes) =
    [EvContactDetect 10 true false].
Proof. vm_compute. done. Qed.

Example early_contact_exit :
  let W := world false (λ count _, count <? 3) pick_boxes_once in
  contact_exit_count (X := W) two_boxes = 3 ∧
  List.filter is_shock_pass (tick_log (X := W) two_boxes) = [].
Proof. vm_compute. done. Qed.

(** With [collsion_detect] applying an impulse at every call the
    collision loop makes its five passes and calls the detector a sixth
    time. *)
Example saturated_collision_loop :
  let W := world true never pick_floor in
  fst (collision_phase (X := W) two_boxes) = 5 ∧
  List.filter collision_view
    (log_since two_boxes (snd (collision_phase (X := W) two_boxes))) =
  collision_rounds 5 ++ [EvCollsionDetect true].
Proof. vm_compute. done. Qed.

(** C8, counterexample: the log of a tick of [two_boxes] starts with the
    swap attempts; no state is read before them. *)
Lemma snapshot_is_not_first :
  ¬ spec_snapshot_first
      (tick_log (X := world false never pick_boxes_once) two_boxes).
Proof. unfold spec_snapshot_first. vm_compute. discriminate. Qed.

(** The snapshot of that tick is in the order left by the shuffle, which
    has exchanged the two boxes. *)
Example snapshot_after_swap :
  let W := world false never pick_boxes_once in
  let m := snapshot (declare_buffers (X := W) (shuffle (X := W) two_boxes)) in
  sys_bVector (mem m) = [0; 2; 1]%nat ∧ prev_pos m = [0; 9; 5].
Proof. vm_compute. done. Qed.

End ToyFacts.

(** ** The conditional theorems at a concrete machine *)

Section Witnesses.
Import Engine Toy.

(** [fixed_bodies_rest_on_nothing] at [mid_tick], for the floor. *)
Lemma fixed_bodies_rest_on_nothing_witness :
  heap (mem (create_contact_graph (X := world false always pick_floor)
               false mid_tick)) !! 0%nat = Some floor ∧
  in_contact_list floor = [].
Proof.
  split; [vm_compute; reflexivity|].
  apply (fixed_bodies_rest_on_nothing (X := world false always pick_floor)
           false mid_tick 0%nat floor).
  - intros s p. reflexivity.
  - reflexivity.
  - apply list_elem_of_here.
  - vm_compute. reflexivity.
  - reflexivity.
Defined.

(** [contact_graph_keeps_states_not_buffers] at [mid_tick], for the first
    box: its slot of [prev_vel] held the momentum 0 of the start of the
    tick and holds the current momentum -1 after the call. *)
Lemma contact_graph_keeps_states_not_buffers_witness :
  (prev_vel mid_tick : list Z) !! 1%nat = Some 0 ∧
  (prev_pos (create_contact_graph (X := world false always pick_floor)
               false mid_tick) : list Z) !! 1%nat = Some 2 ∧
  (prev_vel (create_contact_graph (X := world false always pick_floor)
               false mid_tick) : list Z) !! 1%nat = Some (-1).
Proof.
  split; [reflexivity|].
  apply (proj2 (contact_graph_keeps_states_not_buffers
                  (X := world false always pick_floor) false mid_tick
                  (λ s p, eq_refl)
                  (conj (le_n 3) (le_n 3))
                  (λ p b _, eq_refl))
               1%nat resting_box resting_box);
    reflexivity.
Defined.

(** [probe_saves_then_integrates] at [mid_tick], for the first box: the
    state saved is the current one, and the box is advanced from it. *)
Lemma probe_saves_then_integrates_witness :
  (prev_vel (probe_save 1 mid_tick) : list Z) !! 1%nat = Some (-1) ∧
  heap (mem (probe_advance (X := world false always pick_floor) false 1
               (probe_save 1 mid_tick))) !! 1%nat =
    Some lowered_box.
Proof.
  pose proof (probe_saves_then_integrates
                (X := world false always pick_floor) false 1 1 mid_tick
                resting_box resting_box
                eq_refl eq_refl eq_refl eq_refl
                (le_n_S _ _ (le_S _ _ (le_n 1)))
                (le_n_S _ _ (le_S _ _ (le_n 1)))) as H.
  cbn zeta in H. destruct H as (_ & _ & _ & Hv & _ & Hh & _).
  split; [exact Hv | exact Hh].
Defined.

End Witnesses.

(** * Further properties *)

(** ** The scenes that [init_system] builds *)

Section SceneContents.
Import Scene SceneLoops Engine.
Context {P : Payload}.

Lemma length_flat_map_const {A} (l : list Q) (xs : list A) :
  length (flat_map (λ _ : A, l) xs) = (length xs * length l)%nat.
Proof. induction xs as [|a xs IH]; simpl; [done|]. rewrite length_app, IH. lia. Qed.

Lemma Forall_flat_map_const {A} (Q0 : Q → Prop) (l : list Q) (xs : list A) :
  Forall Q0 l → Forall Q0 (flat_map (λ _ : A, l) xs).
Proof.
  intros Hl. induction xs as [|a xs IH]; simpl; [constructor|].
  by apply Forall_app.
Qed.

Lemma pile8_positive : Forall (λ q, (0 < q)%Q) pile8.
Proof. repeat constructor. Qed.

(** X4: [init_high_pile] with loop bound [iter] pushes 1 + 8 iter^3
    bodies, the floor with [inv_mass] 0 and movable bodies after it; with
    the [iter = 2] of the source these are the 65 bodies of the scene
    (the 217 of the comment beside it would be [iter = 3]). *)
Theorem high_pile_size (iter : nat) :
  length (init_high_pile_pushes iter) = (1 + 8 * iter ^ 3)%nat ∧
  (∃ rest, init_high_pile_pushes iter = 0%Q :: rest ∧
           Forall (λ q, (0 < q)%Q) rest) ∧
  init_high_pile_pushes 2 = pushed_inv_mass init_high_pile ∧
  length (pushed_inv_mass init_high_pile) = 65%nat ∧
  length (init_high_pile_pushes 3) = 217%nat.
Proof.
  split.
  { unfold init_high_pile_pushes. cbn [length].
    rewrite !length_flat_map_const, length_seq. cbn [length pile8 Nat.pow]. lia. }
  split.
  { eexists. split; [reflexivity|].
    do 3 apply Forall_flat_map_const. apply pile8_positive. }
  split; [reflexivity|]. split; reflexivity.
Qed.

Lemma nonneg_tests_agree (q : Q) :
  (0 <= q)%Q → Qeq_bool q 0 = Qle_bool q 0.
Proof.
  intros Hq. destruct (Qle_bool q 0) eqn:Hle.
  - apply Qeq_bool_iff. apply Qle_bool_iff in Hle. by apply Qle_antisym.
  - destruct (Qeq_bool q 0) eqn:Heq; [|done].
    apply Qeq_bool_iff in Heq. assert (Qle_bool q 0 = true) as H.
    { apply Qle_bool_iff. rewrite Heq. apply Qle_refl. }
    congruence.
Qed.

Lemma builder_masses (b : Builder) :
  ∃ rest, pushed_inv_mass b = 0%Q :: rest ∧
          Forall (λ q, (0 <= q)%Q) rest ∧ Exists (λ q, (0 < q)%Q) rest.
Proof.
  destruct b; cbn; eexists; (split; [reflexivity|]); split;
    try (repeat constructor; discriminate).
  all: try (apply Exists_cons_hd; reflexivity).
  all: try (do 2 apply Exists_cons_tl; apply Exists_cons_hd; reflexivity).
Qed.

(** X5: whatever its argument, [init_system] builds a scene whose first
    body is the fixed floor ([inv_mass] 0), that has at least one body
    of positive [inv_mass], and in which no [inv_mass] is negative; so
    the two guards of the driver, [inv_mass != 0] and [inv_mass > 0],
    agree on every body of every scene. *)
Theorem scene_masses (i : Z) :
  ∃ rest, pushed_inv_mass (init_system i) = 0%Q :: rest ∧
          Forall (λ q, (0 <= q)%Q) rest ∧
          Exists (λ q, (0 < q)%Q) rest ∧
          ∀ b : Body, inv_mass b ∈ pushed_inv_mass (init_system i) →
                      movable b = positive_inv_mass b.
Proof.
  destruct (builder_masses (init_system i)) as (rest & Heq & Hall & Hex).
  exists rest. split_and!; try done.
  intros b Hb. unfold movable, positive_inv_mass. f_equal.
  apply nonneg_tests_agree. rewrite Heq in Hb.
  apply elem_of_cons in Hb as [-> | Hb]; [discriminate|].
  by apply (proj1 (Forall_forall _ _) Hall).
Qed.

End SceneContents.

(** ** [create_contact_graph]: the buffer slots of fixed bodies *)

Section FixedSlots.
Import Engine.
Context {P : Payload} {X : Externals P}.

Lemma fixed_not_movable (b : Body) : (inv_mass b == 0)%Q → movable b = false.
Proof. intros H. unfold movable. by apply Qeq_bool_iff in H as ->. Qed.

(** The probe of a body that is fixed, or of an index without a body,
    does nothing at all. *)
Lemma probe_body_skips b i (m : Machine) :
  (∀ bl, local_body m i = Some bl → (inv_mass bl == 0)%Q) →
  probe_body b i m = m.
Proof.
  intros H. unfold probe_body. destruct (local_body m i) as [bl|]; [|done].
  by rewrite (fixed_not_movable bl (H bl eq_refl)).
Qed.

Lemma probe_rounds_fixed_slot b (l : list nat) (m : Machine) i :
  (∀ bl, local_body m i = Some bl → (inv_mass bl == 0)%Q) →
  let m' := fold_left (λ acc j, probe_body b j acc) l m in
  bVector m' = bVector m ∧
  (∀ p, mass_at m' p = mass_at m p) ∧
  prev_pos m' !! i = prev_pos m !! i ∧
  prev_vel m' !! i = prev_vel m !! i.
Proof.
  intros Hfix. induction l as [|j l IH] using rev_ind; cbn zeta in *.
  - done.
  - rewrite fold_left_app. cbn [fold_left].
    destruct IH as (Hb & Hm & Hp & Hv).
    set (ml := fold_left (λ acc j, probe_body b j acc) l m) in *.
    split; [by rewrite probe_body_bVector|].
    split; [intros p; by rewrite probe_body_mass_at|].
    destruct (decide (i = j)) as [<-|Hij].
    + rewrite probe_body_skips; [done|].
      intros bl Hbl.
      destruct (local_body_transfer ml m i bl) as (bl0 & Hbl0 & Hmass);
        [done | done | done |].
      rewrite <- Hmass. by apply Hfix.
    + by destruct (probe_body_prev_other b j ml i Hij) as [-> ->].
Qed.

(** X6: [create_contact_graph] leaves slot [i] of [prev_pos] and
    [prev_vel] as it found it when [bVector[i]] is a fixed body
    ([inv_mass] 0), and also when the file's vector has no body at
    index [i]: only the slots of movable bodies are overwritten. *)
Theorem contact_graph_skips_fixed_slots (is_initial : bool) (m : Machine) (i : nat) :
  (∀ bl, local_body m i = Some bl → (inv_mass bl == 0)%Q) →
  prev_pos (create_contact_graph is_initial m) !! i = prev_pos m !! i ∧
  prev_vel (create_contact_graph is_initial m) !! i = prev_vel m !! i.
Proof.
  intros Hfix.
  destruct (clear_all_frame m) as (Hb1 & _ & _ & Hm1 & Hp1 & Hv1).
  set (m1 := for_each_body clear_contacts m) in *.
  destruct (probe_rounds_fixed_slot is_initial (seq 0 (num_bodies m1)) m1 i)
    as (_ & _ & Hp2 & Hv2).
  { intros bl Hbl.
    destruct (local_body_transfer m1 m i bl) as (bl0 & Hbl0 & Hmass);
      [done | done | done |].
    rewrite <- Hmass. by apply Hfix. }
  fold (for_each_body (probe_body is_initial) m1) in Hp2, Hv2.
  unfold create_contact_graph. fold m1.
  unfold get_bodies, topological_tarjan.
  cbn [prev_pos prev_vel emit set_bVector set_mem].
  by rewrite Hp2, Hv2, Hp1, Hv1.
Qed.

End FixedSlots.

(** ** [create_contact_graph]: what the contact lists name *)

Section ContactTargets.
Import Engine Conditions.
Context {P : Payload} {X : Externals P}.

Lemma contacts_among_transfer v p (m m' : Machine) :
  contacts_at m' p = contacts_at m p →
  contacts_among v p m → contacts_among v p m'.
Proof.
  unfold contacts_at, contacts_among. intros Heq H b c Hb Hc.
  rewrite Hb in Heq. destruct (heap (mem m) !! p) as [b0|] eqn:Hb0; [|done].
  injection Heq as Heq. apply (H b0 c); [done|]. by rewrite <- Heq.
Qed.

Lemma probe_pair_contacts_among i k (m : Machine) p :
  NoDup (bVector m) →
  contacts_among (bVector m) p m →
  contacts_among (bVector m) p (probe_pair i k m).
Proof.
  intros Hnd H. unfold probe_pair.
  destruct (k =? i)%nat eqn:Hki; [done|]. apply Nat.eqb_neq in Hki.
  destruct (bVector m !! k) as [pk|] eqn:Hk; [|done].
  destruct (local_body m k) as [bk|]; [|done].
  destruct (local_body m i) as [bi|]; [|done].
  destruct (intersection_test bk bi) as [[pt nrm]|]; [|done].
  intros b c Hb Hc. cbn [mem emit] in Hb.
  rewrite lookup_update_local_body in Hb. case_decide as Hi.
  - destruct (heap (mem m) !! p) as [b0|] eqn:Hb0; [|done].
    injection Hb as <-. cbn [push_contact in_contact_list set_in_contact_list] in Hc.
    apply elem_of_app in Hc as [Hc|Hc]; [by apply (H b0 c)|].
    apply list_elem_of_singleton in Hc as ->. cbn [ci_b]. split.
    + by apply (list_elem_of_lookup_2 _ k).
    + intros ->. apply Hki. by apply (NoDup_lookup (bVector m) k i p).
  - by apply (H b c).
Qed.

Lemma probe_body_contacts_among b i (m : Machine) p :
  NoDup (bVector m) →
  contacts_among (bVector m) p m →
  contacts_among (bVector m) p (probe_body b i m).
Proof.
  intros Hnd H. unfold probe_body.
  destruct (local_body m i) as [bi|]; [|done].
  destruct (movable bi); [|done].
  set (m1 := probe_save i m).
  set (m2 := probe_advance b i m1).
  assert (bVector m2 = bVector m) as Hv.
  { unfold m2, m1.
    by rewrite (body_op_bVector _ _ (body_op_probe_advance b i)),
      (body_op_bVector _ _ (body_op_probe_save i)). }
  assert (contacts_among (bVector m) p m2) as H2.
  { apply (contacts_among_transfer _ _ m); [|done]. unfold m2, m1.
    by rewrite (body_op_contacts_at _ _ _ (body_op_probe_advance b i)),
      (body_op_contacts_at _ _ _ (body_op_probe_save i)). }
  apply (contacts_among_transfer _ _ (for_each_body (probe_pair i) m2));
    [apply (body_op_contacts_at _ _ _ (body_op_probe_restore i))|].
  unfold for_each_body.
  apply (fold_left_inv
           (λ m', bVector m' = bVector m ∧ contacts_among (bVector m) p m')).
  - intros k m' [Hv' H']. split; [by rewrite probe_pair_bVector|].
    rewrite <- Hv'. apply probe_pair_contacts_among; by rewrite Hv'.
  - done.
Qed.

Lemma create_contact_graph_contacts_among (is_initial : bool) (m : Machine) (p : nat) :
  tarjan_frame X →
  NoDup (bVector m) →
  length (bVector m) = num_bodies m →
  p ∈ bVector m →
  contacts_among (bVector m) p (create_contact_graph is_initial m).
Proof.
  intros Htarjan Hnd Hlen Hp b c Hb Hc.
  destruct (clear_all_frame m) as (Hb1 & _ & _ & _ & _ & _).
  pose proof (contacts_cleared m p Hlen Hp) as Hclear.
  set (m1 := for_each_body clear_contacts m) in *.
  assert (bVector (for_each_body (probe_body is_initial) m1) = bVector m ∧
          contacts_among (bVector m) p (for_each_body (probe_body is_initial) m1))
    as [_ H2].
  { unfold for_each_body.
    apply (fold_left_inv
             (λ m', bVector m' = bVector m ∧ contacts_among (bVector m) p m')).
    - intros k m' [Hv' H']. split; [by rewrite probe_body_bVector|].
      rewrite <- Hv'. apply probe_body_contacts_among; by rewrite Hv'.
    - split; [done|]. intros b0 c0 Hb0 Hc0.
      rewrite (Hclear b0 Hb0) in Hc0. by apply elem_of_nil in Hc0. }
  set (m2 := for_each_body (probe_body is_initial) m1) in *.
  unfold create_contact_graph in Hb. fold m1 in Hb. fold m2 in Hb.
  unfold get_bodies, topological_tarjan in Hb.
  cbn [mem emit set_bVector set_mem] in Hb.
  pose proof (Htarjan (mem m2) p) as Hcore. rewrite Hb in Hcore.
  destruct (heap (mem m2) !! p) as [b2|] eqn:Hb2; [|done].
  injection Hcore as _ _ _ Hl. apply (H2 b2 c); [done|]. by rewrite <- Hl.
Qed.

(** X7: after [create_contact_graph], every entry of the contact list of
    a body of [bVector] names a body of [bVector], and never the body
    itself, provided that [bVector] holds each body once. *)
Theorem contacts_name_other_bodies (is_initial : bool) (m : Machine)
    (p : nat) (b : Body) (c : ContactInfo) :
  tarjan_frame X →
  NoDup (bVector m) →
  length (bVector m) = num_bodies m →
  p ∈ bVector m →
  heap (mem (create_contact_graph is_initial m)) !! p = Some b →
  c ∈ in_contact_list b →
  ci_b c ∈ bVector m ∧ ci_b c ≠ p.
Proof.
  intros Htarjan Hnd Hlen Hp Hb Hc.
  by apply (create_contact_graph_contacts_among is_initial m p Htarjan Hnd Hlen Hp b c).
Qed.

End ContactTargets.

(** ** The tentative integration of a tick and its rewind *)

Section Rewind.
Import Engine Conditions.
Context {P : Payload} {X : Externals P}.

Lemma state_at_alive (m m' : Machine) p :
  state_at m' p = state_at m p →
  is_Some (heap (mem m') !! p) → is_Some (heap (mem m) !! p).
Proof.
  unfold state_at. intros Heq [b Hb]. rewrite Hb in Heq.
  destruct (heap (mem m) !! p); [by eexists | done].
Qed.

Lemma mass_at_alive (m m' : Machine) p :
  mass_at m' p = mass_at m p →
  is_Some (heap (mem m') !! p) → is_Some (heap (mem m) !! p).
Proof.
  unfold mass_at. intros Heq [b Hb]. rewrite Hb in Heq.
  destruct (heap (mem m) !! p); [by eexists | done].
Qed.

(** The two force calls, under [forces_frame]. *)
Lemma forces_keep_states (m : Machine) :
  forces_frame X →
  sys_bVector (mem (add_gravity (zero_forces m))) = sys_bVector (mem m) ∧
  prev_pos (add_gravity (zero_forces m)) = prev_pos m ∧
  prev_vel (add_gravity (zero_forces m)) = prev_vel m ∧
  ∀ p, state_at (add_gravity (zero_forces m)) p = state_at m p.
Proof.
  intros Hf. unfold add_gravity, zero_forces, state_at.
  cbn [mem emit set_mem prev_pos prev_vel].
  split_and!; try done.
  - destruct (Hf (sys_zero_forces (mem m)) 0%nat) as (_ & -> & _ & _).
    by destruct (Hf (mem m) 0%nat) as (-> & _ & _ & _).
  - intros p. destruct (Hf (sys_zero_forces (mem m)) p) as (_ & _ & _ & ->).
    by destruct (Hf (mem m) p) as (_ & _ & -> & _).
Qed.

(** The integration loop, over any list of indices: it writes to the
    bodies that the system's vector points to at those indices, and to
    nothing else. *)
Lemma integrate_rounds (l : list nat) (m : Machine) :
  let m' := fold_left (λ acc i, integrate_pos i (integrate_vel i acc)) l m in
  sys_bVector (mem m') = sys_bVector (mem m) ∧
  prev_pos m' = prev_pos m ∧
  prev_vel m' = prev_vel m ∧
  (∀ p, mass_at m' p = mass_at m p) ∧
  ∀ p, p ∉ sys_bVector (mem m) → state_at m' p = state_at m p.
Proof.
  induction l as [|j l IH] using rev_ind; cbn zeta in *; [done|].
  rewrite fold_left_app. cbn [fold_left].
  destruct IH as (Hs & Hp & Hv & Hm & Hst).
  set (ml := fold_left (λ acc i, integrate_pos i (integrate_vel i acc)) l m) in *.
  change (integrate_pos j (integrate_vel j ml)) with (probe_advance true j ml).
  split; [by rewrite (body_op_sys_bVector _ _ (body_op_probe_advance true j))|].
  split; [by rewrite probe_advance_prev_pos|].
  split; [by rewrite probe_advance_prev_vel|].
  split; [intros p; by rewrite (body_op_mass_at _ _ _ (body_op_probe_advance true j))|].
  intros p Hp'. rewrite <- (Hst p Hp'). unfold state_at.
  rewrite probe_advance_heap, decide_False; [done|].
  rewrite Hs. intros Hj. apply Hp'. by apply (list_elem_of_lookup_2 _ j).
Qed.

(** The restore loop, over any list of indices [l]: a body that the
    system's vector points to at an index of [l] ends in the state that
    the buffers hold for it, here [T]; every other body is left alone. *)
Lemma restore_rounds (T : nat → option (PosState * VelState))
    (l : list nat) (m : Machine) :
  (∀ i p, i ∈ l → sys_bVector (mem m) !! i = Some p →
     ∃ x v, prev_pos m !! i = Some x ∧ prev_vel m !! i = Some v ∧
            (is_Some (heap (mem m) !! p) → T p = Some (normalize_pos x, v))) →
  (∀ p, heap (mem m) !! p = None → T p = None) →
  let m' := fold_left (λ acc i, set_state_vel i (set_state_pos i acc)) l m in
  sys_bVector (mem m') = sys_bVector (mem m) ∧
  prev_pos m' = prev_pos m ∧
  prev_vel m' = prev_vel m ∧
  (∀ p, mass_at m' p = mass_at m p) ∧
  (∀ p i, i ∈ l → sys_bVector (mem m) !! i = Some p → state_at m' p = T p) ∧
  (∀ p, (∀ i, i ∈ l → sys_bVector (mem m) !! i ≠ Some p) →
        state_at m' p = state_at m p).
Proof.
  intros Hslots Hnone.
  induction l as [|j l IH] using rev_ind; cbn zeta in *.
  - split_and!; try done. intros p i Hi. by apply elem_of_nil in Hi.
  - rewrite fold_left_app. cbn [fold_left].
    destruct IH as (Hs & Hp & Hv & Hm & Hin & Hout).
    { intros i p Hi. apply Hslots, elem_of_app. by left. }
    set (ml := fold_left (λ acc i, set_state_vel i (set_state_pos i acc)) l m) in *.
    change (set_state_vel j (set_state_pos j ml)) with (probe_restore j ml).
    assert (∀ p, sys_bVector (mem m) !! j = Some p →
                 state_at (probe_restore j ml) p = T p) as Hself.
    { intros p Hj.
      destruct (Hslots j p) as (x & v & Hx & Hy & HT);
        [apply elem_of_app; right; by apply list_elem_of_singleton | done |].
      rewrite (probe_restore_state_self j ml p x v);
        [| by rewrite Hs | by rewrite Hp | by rewrite Hv].
      destruct (heap (mem ml) !! p) as [b|] eqn:Hb.
      - cbn. symmetry. apply HT. apply (mass_at_alive m ml p); [by rewrite Hm|].
        by rewrite Hb.
      - cbn. symmetry. apply Hnone.
        destruct (heap (mem m) !! p) as [b|] eqn:Hb0; [|done].
        pose proof (Hm p) as Hmp. unfold mass_at in Hmp.
        by rewrite Hb, Hb0 in Hmp. }
    split; [by rewrite (body_op_sys_bVector _ _ (body_op_probe_restore j))|].
    split; [by rewrite probe_restore_prev_pos|].
    split; [by rewrite probe_restore_prev_vel|].
    split; [intros p; by rewrite (body_op_mass_at _ _ _ (body_op_probe_restore j))|].
    split.
    + intros p i Hi Hip.
      destruct (decide (sys_bVector (mem m) !! j = Some p)) as [Hj|Hj];
        [by apply Hself|].
      rewrite probe_restore_state_other by (by rewrite Hs).
      apply elem_of_app in Hi as [Hi|Hi]; [by apply (Hin p i)|].
      apply list_elem_of_singleton in Hi as ->. done.
    + intros p Hnot.
      rewrite probe_restore_state_other.
      * apply Hout. intros i Hi. apply Hnot, elem_of_app. by left.
      * rewrite Hs. apply Hnot, elem_of_app. right.
        by apply list_elem_of_singleton.
Qed.

(** A collision loop that finds no collision at its first call is left
    at once, with the system and the buffers as they were. *)
Lemma collision_phase_quiet (m : Machine) :
  no_collision m →
  mem (snd (collision_phase m)) = mem m ∧
  prev_pos (snd (collision_phase m)) = prev_pos m ∧
  prev_vel (snd (collision_phase m)) = prev_vel m ∧
  log_since m (snd (collision_phase m)) = [EvCollsionDetect false].
Proof.
  intros Hq. unfold no_collision in Hq.
  unfold collision_phase, log_since.
  destruct (fuel_for MAX_COLLISIONS 0) as [|fuel];
    cbn [collision_loop]; unfold collsion_detect; rewrite Hq; cbn;
    by rewrite drop_app_length.
Qed.

(** X8: in a tick without collisions, the tentative integration with
    which the tick starts is undone by the loops that set the system
    back: after buffers, snapshot, integration of every body, the call
    of [collsion_detect] and the restore, every body has the position
    and velocity state it started with, and the system's vector of
    bodies is the same.  Orientations are taken as normalised, and
    [zero_forces] and [add_gravity] as writing no state. *)
Theorem tentative_step_is_undone (m : Machine) :
  forces_frame X → normalised m → no_collision (tentative m) →
  sys_bVector (mem (tentative_step m)) = sys_bVector (mem m) ∧
  ∀ p, state_at (tentative_step m) p = state_at m p.
Proof.
  intros Hf Hn Hquiet. unfold tentative_step.
  destruct (collision_phase_quiet (tentative m) Hquiet) as (Hcm & Hcp & Hcv & _).
  set (mc := snd (collision_phase (tentative m))) in *. clearbody mc.
  clear Hquiet. unfold tentative in *.
  set (m0 := declare_buffers m) in *.
  assert (mem m0 = mem m) as Hm0 by reflexivity.
  assert (num_bodies m0 = num_bodies m) as Hn0 by reflexivity.
  assert (length (prev_pos m0) = num_bodies m ∧
          length (prev_vel m0) = num_bodies m) as [Hlp0 Hlv0].
  { unfold m0, declare_buffers. cbn [prev_pos prev_vel set_prev_pos set_prev_vel].
    by rewrite !length_replicate. }
  destruct (snapshot_rounds (seq 0 (num_bodies m0)) m0) as (Hm1 & Hlp1 & Hlv1 & Hslot1).
  fold (for_each_body (λ i acc, get_state_vel i (get_state_pos i acc)) m0) in *.
  fold (snapshot m0) in *. set (m1 := snapshot m0) in *.
  destruct (forces_keep_states m1 Hf) as (Hsf & Hpf & Hvf & Hstf).
  set (mf := add_gravity (zero_forces m1)) in *.
  destruct (integrate_rounds (seq 0 (num_bodies mf)) mf) as (Hs2 & Hp2 & Hv2 & Hmass2 & Hst2).
  set (m2 := fold_left (λ acc i, integrate_pos i (integrate_vel i acc))
               (seq 0 (num_bodies mf)) mf) in *.
  change (integrate_all m1) with m2 in *.
  assert (sys_bVector (mem mc) = sys_bVector (mem m)) as Hvec
    by (by rewrite Hcm, Hs2, Hsf, Hm1, Hm0).
  assert (∀ p, is_Some (heap (mem mc) !! p) → is_Some (heap (mem m) !! p)) as Halive.
  { intros p H2. rewrite Hcm in H2. rewrite <- Hm0, <- Hm1.
    apply (state_at_alive m1 mf p); [by apply Hstf|].
    by apply (mass_at_alive mf m2 p). }
  destruct (restore_rounds (state_at m) (seq 0 (num_bodies mc)) mc)
    as (Hs3 & _ & _ & _ & Hin & Hout).
  { intros i p Hi Hip. apply elem_of_seq in Hi.
    assert (i < num_bodies m)%nat as Hi'
      by (unfold num_bodies in *; rewrite <- Hvec; lia).
    destruct (lookup_lt_is_Some_2 (prev_pos mc) i) as [x Hx];
      [rewrite Hcp, Hp2, Hpf, Hlp1; lia|].
    destruct (lookup_lt_is_Some_2 (prev_vel mc) i) as [v Hv];
      [rewrite Hcv, Hv2, Hvf, Hlv1; lia|].
    exists x, v. split; [done|]. split; [done|]. intros Hsome.
    destruct (Halive p Hsome) as [b Hb].
    assert (sys_body (mem m0) i = Some b) as Hsb.
    { unfold sys_body. rewrite Hm0, <- Hvec, Hip. exact Hb. }
    destruct (Hslot1 i b) as [Hx1 Hv1]; [apply elem_of_seq; lia | done | lia | lia |].
    rewrite Hcp, Hp2, Hpf, Hx1 in Hx. rewrite Hcv, Hv2, Hvf, Hv1 in Hv.
    injection Hx as <-. injection Hv as <-.
    unfold state_at. rewrite Hb. cbn. by rewrite (Hn p b Hb). }
  { intros p Hnone. unfold state_at.
    destruct (heap (mem m) !! p) as [b|] eqn:Hb; [|done]. exfalso.
    assert (is_Some (heap (mem mc) !! p)) as [b2 Hb2]; [|congruence].
    rewrite Hcm.
    pose proof (Hmass2 p) as H2. pose proof (Hstf p) as H1.
    unfold mass_at, state_at in H1, H2. rewrite Hm1, Hm0, Hb in H1.
    destruct (heap (mem mf) !! p) as [bf|]; [|done].
    destruct (heap (mem m2) !! p) as [b2|]; [by eexists | done]. }
  fold (for_each_body (λ i acc, set_state_vel i (set_state_pos i acc)) mc) in *.
  fold (restore_all mc) in *.
  split; [by rewrite Hs3|].
  intros p. destruct (decide (p ∈ sys_bVector (mem mc))) as [Hp|Hp].
  - apply list_elem_of_lookup_1 in Hp as [i Hi].
    apply (Hin p i); [|done]. apply elem_of_seq.
    apply lookup_lt_Some in Hi. unfold num_bodies. lia.
  - rewrite Hout.
    + unfold state_at at 1. rewrite Hcm. fold (state_at m2 p).
      rewrite Hst2 by (by rewrite <- Hs2, <- Hcm). rewrite Hstf.
      unfold state_at. by rewrite Hm1, Hm0.
    + intros i _ Hi. apply Hp. by apply (list_elem_of_lookup_2 _ i).
Qed.

End Rewind.

(** ** The shuffle and the two vectors of bodies *)

Section ShuffleVectors.
Import Engine Conditions.
Context {P : Payload} {X : Externals P}.

Lemma swap_attempt_bVector (m : Machine) :
  bVector (swap_attempt m) = bVector m.
Proof. unfold swap_attempt. cbn zeta. by repeat case_match. Qed.

Lemma swap_rounds_bVector (l : list nat) (m : Machine) :
  bVector (fold_left (λ acc _, swap_attempt acc) l m) = bVector m.
Proof.
  apply (fold_left_view bVector (λ _ acc, swap_attempt acc)).
  intros _ m'. apply swap_attempt_bVector.
Qed.

Lemma shuffle_bVector (m : Machine) : bVector (shuffle m) = bVector m.
Proof. exact (swap_rounds_bVector (seq 0 SHUFFLE_ROUNDS) m). Qed.

Lemma positive_movable (b : Body) :
  positive_inv_mass b = true → movable b = true.
Proof.
  intros Hp. unfold movable. destruct (Qeq_bool (inv_mass b) 0) eqn:Heq; [|done].
  apply Qeq_bool_iff in Heq.
  by rewrite (zero_inv_mass_not_positive b Heq) in Hp.
Qed.

Lemma exchangeable_trans (m : Machine) p p1 p' :
  exchangeable m p p1 → exchangeable m p1 p' → exchangeable m p p'.
Proof.
  intros [-> | (b & b1 & Hb & Hb1 & Hp & Hp1)]; [done|].
  intros [-> | (b1' & b' & Hb1' & Hb' & Hp1' & Hp')].
  - right. by exists b, b1.
  - right. by exists b, b'.
Qed.

(** One round of the shuffle puts at an index the body that was there,
    or exchanges two bodies of positive [inv_mass]. *)
Lemma swap_attempt_exchange (m : Machine) i p' :
  sys_bVector (mem (swap_attempt m)) !! i = Some p' →
  ∃ p, sys_bVector (mem m) !! i = Some p ∧ exchangeable m p p'.
Proof.
  destruct (swap_attempt_cases m)
    as [-> | (pj & pk & bj & bk & Hj & Hk & Hbj & Hbk & Hpj & Hpk & ->)].
  { intros Hi. exists p'. split; [done | by left]. }
  set (jj := (rand_seq (rand_calls m) mod num_bodies m)%nat) in *.
  set (kk := (rand_seq (S (rand_calls m)) mod num_bodies m)%nat) in *.
  intros Hi. destruct (decide (i = kk)) as [->|Hik].
  - rewrite list_lookup_insert_eq in Hi
      by (rewrite length_insert; by apply lookup_lt_Some in Hk).
    injection Hi as <-. exists pk. split; [done|]. right. by exists bk, bj.
  - rewrite list_lookup_insert_ne in Hi by done.
    destruct (decide (i = jj)) as [->|Hij].
    + rewrite list_lookup_insert_eq in Hi by (by apply lookup_lt_Some in Hj).
      injection Hi as <-. exists pj. split; [done|]. right. by exists bj, bk.
    + rewrite list_lookup_insert_ne in Hi by done.
      exists p'. split; [done | by left].
Qed.

Lemma exchangeable_heap (m m' : Machine) p p' :
  heap (mem m') = heap (mem m) → exchangeable m' p p' → exchangeable m p p'.
Proof. unfold exchangeable. by intros ->. Qed.

Lemma swap_rounds_exchange (l : list nat) (m : Machine) i p' :
  sys_bVector (mem (fold_left (λ acc _, swap_attempt acc) l m)) !! i = Some p' →
  ∃ p, sys_bVector (mem m) !! i = Some p ∧ exchangeable m p p'.
Proof.
  revert m. induction l as [|x l IH]; intros m; cbn [fold_left].
  - intros Hi. exists p'. split; [done | by left].
  - intros Hi. destruct (IH (swap_attempt m) Hi) as (p1 & Hp1 & Hex1).
    destruct (swap_attempt_exchange m i p1 Hp1) as (p & Hp & Hex).
    exists p. split; [done|]. apply (exchangeable_trans m p p1 p'); [done|].
    apply (exchangeable_heap m (swap_attempt m)); [apply swap_attempt_heap | done].
Qed.

Lemma shuffle_exchange (m : Machine) i p' :
  sys_bVector (mem (shuffle m)) !! i = Some p' →
  ∃ p, sys_bVector (mem m) !! i = Some p ∧ exchangeable m p p'.
Proof. exact (swap_rounds_exchange (seq 0 SHUFFLE_ROUNDS) m i p'). Qed.

(** X9: the shuffle reorders the system's vector and leaves the file's
    own [bVector] as it was, so that the two differ until the next
    [get_bodies]; but at every index they hold the same body or two
    bodies of positive [inv_mass], so that the guards [inv_mass != 0] and
    [inv_mass > 0] give the same answer through either vector. *)
Theorem stale_bVector_same_guard (m : Machine) (i : nat) :
  bVector m = sys_bVector (mem m) →
  bVector (shuffle m) = bVector m ∧
  (∀ p', sys_bVector (mem (shuffle m)) !! i = Some p' →
         ∃ p, bVector (shuffle m) !! i = Some p ∧ exchangeable m p p') ∧
  movable <$> local_body (shuffle m) i = movable <$> sys_body (mem (shuffle m)) i ∧
  positive_inv_mass <$> local_body (shuffle m) i =
    positive_inv_mass <$> sys_body (mem (shuffle m)) i.
Proof.
  intros Hsame. pose proof (shuffle_bVector m) as Hb.
  destruct (shuffle_state m) as (Hheap & _ & Hperm & _).
  assert (∀ p', sys_bVector (mem (shuffle m)) !! i = Some p' →
                ∃ p, bVector (shuffle m) !! i = Some p ∧ exchangeable m p p') as Hex.
  { intros p' Hi. rewrite Hb, Hsame. by apply shuffle_exchange. }
  split; [done|]. split; [done|].
  unfold local_body, sys_body. rewrite Hheap.
  destruct (sys_bVector (mem (shuffle m)) !! i) as [p'|] eqn:Hi.
  - destruct (Hex p' eq_refl) as (p & -> & [-> | (b & b' & Hbp & Hbp' & Hp & Hp')]);
      [done|]. cbn [mbind option_bind]. rewrite Hbp, Hbp'. cbn.
    by rewrite Hp, Hp', (positive_movable b Hp), (positive_movable b' Hp').
  - apply lookup_ge_None in Hi. rewrite Hperm, <- Hsame, <- Hb in Hi.
    apply lookup_ge_None in Hi. by rewrite Hi.
Qed.

Lemma single_movable_swap (m : Machine) :
  single_movable m → sys_bVector (mem (swap_attempt m)) = sys_bVector (mem m).
Proof.
  intros Hone.
  destruct (swap_attempt_cases m)
    as [-> | (pj & pk & bj & bk & Hj & Hk & Hbj & Hbk & Hpj & Hpk & ->)]; [done|].
  set (jj := (rand_seq (rand_calls m) mod num_bodies m)%nat) in *.
  set (kk := (rand_seq (S (rand_calls m)) mod num_bodies m)%nat) in *.
  assert (jj = kk) as Heq.
  { apply (Hone jj kk bj bk); try done; unfold sys_body.
    - by rewrite Hj.
    - by rewrite Hk. }
  rewrite Heq in *. assert (pj = pk) as -> by congruence.
  rewrite (list_insert_id _ kk pk Hj). exact (list_insert_id _ kk pk Hj).
Qed.

Lemma single_movable_rounds (l : list nat) (m : Machine) :
  single_movable m →
  sys_bVector (mem (fold_left (λ acc _, swap_attempt acc) l m)) = sys_bVector (mem m).
Proof.
  revert m. induction l as [|x l IH]; intros m Hone; cbn [fold_left]; [done|].
  pose proof (single_movable_swap m Hone) as Hs.
  rewrite IH; [done|].
  unfold single_movable, sys_body in *. by rewrite Hs, swap_attempt_heap.
Qed.

Lemma shuffle_single_movable (m : Machine) :
  single_movable m → sys_bVector (mem (shuffle m)) = sys_bVector (mem m).
Proof. exact (single_movable_rounds (seq 0 SHUFFLE_ROUNDS) m). Qed.

(** X10: when at most one body of the system has positive [inv_mass], as
    in the scenes of a floor and one box, the fifteen rounds of the
    shuffle leave the system's vector of bodies as it was. *)
Theorem lone_movable_body_keeps_its_index (m : Machine) :
  single_movable m →
  sys_bVector (mem (shuffle m)) = sys_bVector (mem m).
Proof.
  apply shuffle_single_movable.
Qed.

End ShuffleVectors.

(** ** The reset loops *)

Section ResetFacts.
Import Engine BodyReset.
Context {P : Payload}.
Variable reset : Body → Body.

Lemma reset_rounds (l : list nat) (m : Machine) :
  NoDup (bVector m) → NoDup l →
  let m' := fold_left (λ acc ii, update_local_body reset ii acc) l m in
  bVector m' = bVector m ∧
  sys_bVector (mem m') = sys_bVector (mem m) ∧
  prev_pos m' = prev_pos m ∧ prev_vel m' = prev_vel m ∧
  trace m' = trace m ∧
  (∀ p i, i ∈ l → bVector m !! i = Some p →
          heap (mem m') !! p = reset <$> heap (mem m) !! p) ∧
  (∀ p, (∀ i, i ∈ l → bVector m !! i ≠ Some p) →
        heap (mem m') !! p = heap (mem m) !! p).
Proof.
  intros Hnd. induction l as [|j l IH] using rev_ind; intros Hl; cbn zeta in *.
  - split_and!; try done. intros p i Hi. by apply elem_of_nil in Hi.
  - rewrite fold_left_app. cbn [fold_left].
    apply NoDup_app in Hl as (Hl & Hfresh & _).
    destruct (IH Hl) as (Hb & Hs & Hp & Hv & Ht & Hin & Hout).
    set (ml := fold_left (λ acc ii, update_local_body reset ii acc) l m) in *.
    assert (j ∉ l) as Hj.
    { intros Hjl. apply (Hfresh j Hjl). by apply list_elem_of_singleton. }
    split; [by rewrite bVector_update_local_body|].
    split; [by rewrite sys_bVector_update_local_body|].
    split; [by rewrite prev_pos_update_local_body|].
    split; [by rewrite prev_vel_update_local_body|].
    split.
    { rewrite <- Ht. unfold update_local_body. by case_match. }
    split.
    + intros p i Hi Hip. rewrite lookup_update_local_body, Hb.
      case_decide as Hjp.
      * rewrite Hout; [done|]. intros i' Hi' Hi'p.
        assert (i' = j) as -> by (by apply (NoDup_lookup (bVector m) i' j p)).
        done.
      * apply (Hin p i); [|done].
        apply elem_of_app in Hi as [Hi|Hi]; [done|].
        apply list_elem_of_singleton in Hi as ->. done.
    + intros p Hnot. rewrite lookup_update_local_body, Hb.
      rewrite decide_False.
      * apply Hout. intros i Hi. apply Hnot, elem_of_app. by left.
      * apply Hnot, elem_of_app. right. by apply list_elem_of_singleton.
Qed.

(** X11: [remap_GUI] (the space key) applies [reset] once to every body
    of [bVector] and to nothing else, when [bVector] holds each body
    once and has the system's count of bodies; the two vectors, the
    buffers and the log are left alone, and [clear_data] is the same
    loop. *)
Theorem remap_GUI_resets_each_body_once (m : Machine) :
  NoDup (bVector m) → length (bVector m) = num_bodies m →
  (∀ p, heap (mem (remap_GUI reset m)) !! p =
        if decide (p ∈ bVector m) then reset <$> heap (mem m) !! p
        else heap (mem m) !! p) ∧
  bVector (remap_GUI reset m) = bVector m ∧
  sys_bVector (mem (remap_GUI reset m)) = sys_bVector (mem m) ∧
  prev_pos (remap_GUI reset m) = prev_pos m ∧
  prev_vel (remap_GUI reset m) = prev_vel m ∧
  trace (remap_GUI reset m) = trace m ∧
  clear_data reset m = remap_GUI reset m.
Proof.
  intros Hnd Hlen. unfold remap_GUI. cbn zeta.
  destruct (reset_rounds (seq 0 (num_bodies m)) m Hnd (NoDup_seq _ _))
    as (Hb & Hs & Hp & Hv & Ht & Hin & Hout).
  split_and!; try done.
  intros p. case_decide as Hp'.
  - apply list_elem_of_lookup_1 in Hp' as [i Hi]. apply (Hin p i); [|done].
    apply elem_of_seq. apply lookup_lt_Some in Hi. lia.
  - apply Hout. intros i _ Hi. apply Hp'. by apply (list_elem_of_lookup_2 _ i).
Qed.

End ResetFacts.

(** ** The mouse callback *)

Section MouseFacts.
Import Input.

Lemma is_set_insert_eq (a : list Z) (i : nat) (v : Z) :
  (i < length a)%nat → is_set (<[i := v]> a) i = negb (v =? 0).
Proof. intros Hi. unfold is_set. by rewrite list_lookup_insert_eq. Qed.

Lemma is_set_insert_ne (a : list Z) (i j : nat) (v : Z) :
  i ≠ j → is_set (<[i := v]> a) j = is_set a j.
Proof. intros Hij. unfold is_set. by rewrite list_lookup_insert_ne. Qed.

Lemma is_set_in_range (a : list Z) (i : nat) :
  is_set a i = true → (i < length a)%nat.
Proof.
  unfold is_set. intros H. destruct (a !! i) as [v|] eqn:Hv; [|done].
  by apply lookup_lt_Some in Hv.
Qed.

(** An event that is not the release of the left button leaves it held,
    and the anchor where it is. *)
Lemma deliver_keeps_anchor (s : Mouse) (e : MouseEvent) :
  is_set (mouse_down s) 0 = true →
  hmx (deliver s e) = hmx s ∧ hmy (deliver s e) = hmy s ∧
  (keeps_left_held e → is_set (mouse_down (deliver s e)) 0 = true).
Proof.
  intros Hheld. unfold deliver, mouse_func. cbn [hmx hmy mouse_down].
  rewrite Hheld. split_and!; try done.
  intros [_ Hpress]. destruct (decide (ev_button e = 0%nat)) as [H0|H0].
  - rewrite H0, is_set_insert_eq by (by apply is_set_in_range).
    by rewrite (Hpress H0).
  - by rewrite is_set_insert_ne.
Qed.

Lemma deliver_all_keeps_anchor (evs : list MouseEvent) (s : Mouse) :
  is_set (mouse_down s) 0 = true →
  Forall keeps_left_held evs →
  hmx (deliver_all evs s) = hmx s ∧ hmy (deliver_all evs s) = hmy s ∧
  is_set (mouse_down (deliver_all evs s)) 0 = true.
Proof.
  revert s. induction evs as [|e evs IH]; intros s Hheld Hall; [done|].
  apply Forall_cons in Hall as [He Hall].
  destruct (deliver_keeps_anchor s e Hheld) as (Hx & Hy & Hd).
  unfold deliver_all in *. cbn [fold_left].
  destruct (IH (deliver s e) (Hd He) Hall) as (Hx' & Hy' & Hd').
  by rewrite Hx', Hy', Hx, Hy.
Qed.

(** X12: [hmx], [hmy] are the anchor of a drag with the left button: a
    press of the left button that finds it up stores its position
    there, and the position stays through every later event that is not
    the release of the left button, and through the release itself. *)
Theorem drag_anchor_is_kept (s : Mouse) (mods x y : Z)
    (evs : list MouseEvent) (last_ev : MouseEvent) :
  is_set (mouse_down s) 0 = false →
  (0 < length (mouse_down s))%nat →
  Forall keeps_left_held evs →
  let pressed := mouse_func mods 0 GLUT_DOWN x y s in
  let s' := deliver (deliver_all evs pressed) last_ev in
  hmx pressed = x ∧ hmy pressed = y ∧ hmx s' = x ∧ hmy s' = y.
Proof.
  intros Hup Hlen Hall pressed s'.
  assert (hmx pressed = x ∧ hmy pressed = y) as [Hx Hy].
  { unfold pressed, mouse_func. cbn [hmx hmy]. by rewrite Hup. }
  assert (is_set (mouse_down pressed) 0 = true) as Hheld.
  { unfold pressed, mouse_func. cbn [mouse_down].
    by rewrite is_set_insert_eq. }
  destruct (deliver_all_keeps_anchor evs pressed Hheld Hall) as (Hx1 & Hy1 & Hd1).
  destruct (deliver_keeps_anchor (deliver_all evs pressed) last_ev Hd1)
    as (Hx2 & Hy2 & _).
  unfold s'. by rewrite Hx2, Hy2, Hx1, Hy1.
Qed.

(** X13: a click of button [b], its press finding the button up: the
    press leaves [mouse_release] and [mouse_shiftclick] as they were,
    whatever the modifiers, and the release sets [mouse_release[b]] and
    records in [mouse_shiftclick[b]] whether shift alone was held at the
    release. *)
Theorem shift_is_sampled_at_release (s : Mouse) (b : nat)
    (mods1 x1 y1 mods2 x2 y2 : Z) :
  (b < 3)%nat →
  length (mouse_down s) = 3%nat →
  length (mouse_release s) = 3%nat →
  length (mouse_shiftclick s) = 3%nat →
  is_set (mouse_down s) b = false →
  let pressed := mouse_func mods1 b GLUT_DOWN x1 y1 s in
  let released := mouse_func mods2 b GLUT_UP x2 y2 pressed in
  mouse_release pressed = mouse_release s ∧
  mouse_shiftclick pressed = mouse_shiftclick s ∧
  is_set (mouse_down pressed) b = true ∧
  is_set (mouse_down released) b = false ∧
  mouse_release released !! b = Some 1 ∧
  mouse_shiftclick released !! b = Some (c_truth (mods2 =? GLUT_ACTIVE_SHIFT)).
Proof.
  intros Hb Hd Hr Hs Hup pressed released.
  assert (mouse_release pressed = mouse_release s) as Hpr.
  { unfold pressed, mouse_func. cbn [mouse_release]. by rewrite Hup. }
  assert (mouse_shiftclick pressed = mouse_shiftclick s) as Hps.
  { unfold pressed, mouse_func. cbn [mouse_shiftclick]. by rewrite Hup. }
  assert (length (mouse_down pressed) = 3%nat) as Hpd.
  { unfold pressed, mouse_func. cbn [mouse_down]. by rewrite length_insert. }
  assert (is_set (mouse_down pressed) b = true) as Hheld.
  { unfold pressed, mouse_func. cbn [mouse_down].
    rewrite is_set_insert_eq by lia. done. }
  split; [done|]. split; [done|]. split; [done|].
  unfold released, mouse_func. cbn [mouse_down mouse_release mouse_shiftclick].
  rewrite Hheld, Hpr, Hps. split_and!.
  - rewrite is_set_insert_eq by lia. done.
  - rewrite list_lookup_insert_eq by lia. done.
  - rewrite list_lookup_insert_eq by lia. done.
Qed.

End MouseFacts.

(** ** Writing frames to files *)

Section FrameFiles.
Import Frames.

Lemma digits_short (rounds k : nat) (n : Z) :
  0 <= n < 10 ^ Z.of_nat k → (1 ≤ k)%nat → (k ≤ rounds)%nat →
  (length (digits rounds n) ≤ k)%nat.
Proof.
  revert k n. induction rounds as [|rounds IH]; intros k n Hn Hk Hr; [lia|].
  cbn [digits]. destruct (n <? 10) eqn:Hlt; [cbn; lia|].
  apply Z.ltb_ge in Hlt. destruct k as [|k]; [lia|].
  rewrite Nat2Z.inj_succ, Z.pow_succ_r in Hn by lia.
  destruct k as [|k]; [cbn in Hn; lia|].
  rewrite length_app. cbn [length].
  assert (length (digits rounds (n / 10)) ≤ S k)%nat; [|lia].
  apply IH; [|lia|lia].
  set (p := 10 ^ Z.of_nat (S k)) in *. clearbody p.
  Z.to_euclidean_division_equations. lia.
Qed.

Lemma digits_long (rounds k : nat) (n : Z) :
  10 ^ Z.of_nat k <= n → (k < rounds)%nat →
  (k < length (digits rounds n))%nat.
Proof.
  revert k n. induction rounds as [|rounds IH]; intros k n Hn Hr; [lia|].
  cbn [digits]. destruct (n <? 10) eqn:Hlt.
  - apply Z.ltb_lt in Hlt. destruct k as [|k]; [cbn; lia|].
    rewrite Nat2Z.inj_succ, Z.pow_succ_r in Hn by lia.
    assert (0 < 10 ^ Z.of_nat k) by (apply Z.pow_pos_nonneg; lia). lia.
  - apply Z.ltb_ge in Hlt. rewrite length_app. cbn [length].
    destruct k as [|k]; [lia|].
    assert (k < length (digits rounds (n / 10)))%nat; [|lia].
    apply IH; [|lia].
    rewrite Nat2Z.inj_succ, Z.pow_succ_r in Hn by lia.
    set (p := 10 ^ Z.of_nat k) in *. clearbody p.
    Z.to_euclidean_division_equations. lia.
Qed.

Lemma length_frame_file (index : Z) :
  0 <= index →
  length (frame_file index) = (7 + Nat.max 5 (length (digits 10 index)))%nat.
Proof.
  intros H. unfold frame_file, format_5i.
  rewrite Z.abs_eq by done.
  assert ((index <? 0) = false) as -> by (apply Z.ltb_ge; lia).
  rewrite !length_app, length_replicate, length_map. cbn [length app list_ascii_of_string].
  lia.
Qed.

(** X14: the name that [post_display] formats for frame [n] fills the
    13 bytes of [filename] exactly, final NUL included, as long as
    [n < 300000]; from frame 300000 on, the index has six digits and
    [sprintf] writes past the end of the array. *)
Theorem frame_name_fits_buffer (n : Z) :
  0 <= n <= INT_MAX →
  (n < 300000 →
   sprintf_size (frame_file (Z.quot n FRAME_INTERVAL)) = FILENAME_SIZE) ∧
  (300000 <= n →
   (FILENAME_SIZE < sprintf_size (frame_file (Z.quot n FRAME_INTERVAL)))%nat).
Proof.
  intros Hn. unfold sprintf_size, FILENAME_SIZE, FRAME_INTERVAL, INT_MAX in *.
  assert (0 <= Z.quot n 3) as Hq by (Z.to_euclidean_division_equations; lia).
  rewrite length_frame_file by done. split; intros Hb.
  - assert (length (digits 10 (Z.quot n 3)) ≤ 5)%nat; [|lia].
    apply digits_short; [|lia|lia].
    change (10 ^ Z.of_nat 5) with 100000.
    Z.to_euclidean_division_equations. lia.
  - assert (5 < length (digits 10 (Z.quot n 3)))%nat; [|lia].
    apply digits_long; [|lia].
    change (10 ^ Z.of_nat 5) with 100000.
    Z.to_euclidean_division_equations. lia.
Qed.

Lemma frame_file_fits (index : Z) :
  0 <= index < 100000 → sprintf_size (frame_file index) = FILENAME_SIZE.
Proof.
  intros H. unfold sprintf_size, FILENAME_SIZE.
  rewrite length_frame_file by lia.
  assert (length (digits 10 index) ≤ 5)%nat; [|lia].
  apply digits_short; [|lia|lia]. change (10 ^ Z.of_nat 5) with 100000. lia.
Qed.

Lemma frame_file_too_long (index : Z) :
  100000 <= index → (FILENAME_SIZE < sprintf_size (frame_file index))%nat.
Proof.
  intros H. unfold sprintf_size, FILENAME_SIZE.
  rewrite length_frame_file by lia.
  assert (5 < length (digits 10 index))%nat; [|lia].
  apply digits_long; [|lia]. change (10 ^ Z.of_nat 5) with 100000. lia.
Qed.

Lemma wrap_int_in_range (z : Z) : INT_MIN <= z <= INT_MAX → wrap_int z = z.
Proof.
  unfold wrap_int, INT_MIN, INT_MAX. intros H.
  rewrite Z.mod_small by lia. lia.
Qed.

Lemma displays_snoc (oks : list bool) (ok : bool) (s : Dump) :
  displays (oks ++ [ok]) s =
  match displays oks s with
  | Continues s' => post_display ok s'
  | out => out
  end.
Proof.
  revert s. induction oks as [|o oks IH]; intros s; cbn [displays app].
  - by destruct (post_display ok s).
  - destruct (post_display o s); [apply IH | done | done].
Qed.

(** The first 300000 calls, all returning. *)
Lemma displays_return (oks : list bool) (s : Dump) :
  dump_frames s ≠ 0 → frame_number s = 0 →
  Forall (λ ok, ok = true) oks →
  Z.of_nat (length oks) <= 300000 →
  ∃ s', displays oks s = Continues s' ∧
        frame_number s' = Z.of_nat (length oks) ∧
        dump_frames s' = dump_frames s ∧
        saved s' =
          saved s ++ map (λ j, frame_file (Z.of_nat j))
                         (seq 0 (Z.to_nat ((Z.of_nat (length oks) + 2) / 3))).
Proof.
  intros Hd H0. induction oks as [|ok oks IH] using rev_ind; intros Hall Hlen.
  - exists s. cbn. by rewrite app_nil_r.
  - apply Forall_app in Hall as [Hall Hok]. apply Forall_singleton in Hok as ->.
    rewrite length_app in *. cbn [length] in *.
    destruct (IH Hall) as (sk & Hrun & Hn & Hdk & Hs); [lia|].
    set (k := length oks) in *.
    rewrite displays_snoc, Hrun. unfold post_display. rewrite Hdk, Hn.
    assert ((dump_frames s =? 0) = false) as -> by (by apply Z.eqb_neq).
    assert (wrap_int (Z.of_nat k + 1) = Z.of_nat (k + 1)) as Hwrap.
    { rewrite wrap_int_in_range; [lia|]. unfold INT_MIN, INT_MAX. lia. }
    unfold FRAME_INTERVAL.
    destruct (Z.rem (Z.of_nat k) 3 =? 0) eqn:Hr.
    + apply Z.eqb_eq in Hr.
      assert (Z.to_nat ((Z.of_nat (k + 1) + 2) / 3) =
              S (Z.to_nat ((Z.of_nat k + 2) / 3)) ∧
              Z.quot (Z.of_nat k) 3 = Z.of_nat (Z.to_nat ((Z.of_nat k + 2) / 3)) ∧
              0 <= Z.quot (Z.of_nat k) 3 < 100000)
        as (Hnext & Hq & Hrange)
        by (zify; Z.to_euclidean_division_equations; lia).
      rewrite (frame_file_fits _ Hrange), Nat.leb_refl.
      eexists. split; [reflexivity|]. cbn [frame_number dump_frames saved].
      split; [done|]. split; [done|].
      rewrite Hnext, Hq, Hs, seq_S, map_app, app_assoc. done.
    + apply Z.eqb_neq in Hr.
      assert (Z.to_nat ((Z.of_nat (k + 1) + 2) / 3) =
              Z.to_nat ((Z.of_nat k + 2) / 3))
        as Hnext by (zify; Z.to_euclidean_division_equations; lia).
      eexists. split; [reflexivity|]. cbn [frame_number dump_frames saved].
      split; [done|]. split; [done|]. by rewrite Hnext.
Qed.

(** X15: with [dump_frames] set, [frame_number] at 0 and every [malloc]
    succeeding, the first [k] calls of [post_display], for [k] up to
    300000, all return; they leave [frame_number] at [k] and have
    written the frames of the calls 1, 4, 7, ... to the files of index
    0, 1, 2, ... in this order: one file for every three calls, rounded
    up.  After 300000 calls the next one makes [sprintf] write past the
    end of [filename]; and a call that is to write a file and whose
    [malloc] fails leaves the program with [exit(-1)]. *)
Theorem every_third_frame_is_saved (oks : list bool) (s : Dump) :
  dump_frames s ≠ 0 → frame_number s = 0 →
  Forall (λ ok, ok = true) oks →
  Z.of_nat (length oks) <= 300000 →
  ∃ s', displays oks s = Continues s' ∧
        frame_number s' = Z.of_nat (length oks) ∧
        dump_frames s' = dump_frames s ∧
        saved s' =
          saved s ++ map (λ j, frame_file (Z.of_nat j))
                         (seq 0 (Z.to_nat ((Z.of_nat (length oks) + 2) / 3))) ∧
        (Z.of_nat (length oks) = 300000 →
         displays (oks ++ [true]) s = Overruns (frame_file 100000)) ∧
        (Z.rem (Z.of_nat (length oks)) FRAME_INTERVAL = 0 →
         displays (oks ++ [false]) s = Exits (-1)).
Proof.
  intros Hd H0 Hall Hlen.
  destruct (displays_return oks s Hd H0 Hall Hlen) as (s' & Hrun & Hn & Hds & Hs).
  exists s'. split_and!; try done.
  - intros Hk. rewrite displays_snoc, Hrun. unfold post_display.
    rewrite Hds, Hn, Hk.
    assert ((dump_frames s =? 0) = false) as -> by (by apply Z.eqb_neq).
    change (Z.rem 300000 FRAME_INTERVAL =? 0) with true.
    change (Z.quot 300000 FRAME_INTERVAL) with 100000.
    cbn match.
    assert ((sprintf_size (frame_file 100000) <=? FILENAME_SIZE)%nat = false) as ->;
      [|done].
    apply Nat.leb_gt. by apply frame_file_too_long.
  - intros Hr. rewrite displays_snoc, Hrun. unfold post_display.
    rewrite Hds, Hn, Hr.
    by assert ((dump_frames s =? 0) = false) as -> by (by apply Z.eqb_neq).
Qed.

End FrameFiles.

(** ** The two vectors of bodies at the end of a tick *)

Section Synchronised.
Import Engine Conditions.
Context {P : Payload} {X : Externals P}.

Lemma create_contact_graph_synchronised b (m : Machine) :
  synchronised (create_contact_graph b m).
Proof. reflexivity. Qed.

Lemma contact_detect_synchronised count shock (m : Machine) :
  contact_detect_frame X → synchronised m →
  synchronised (snd (contact_detect count shock m)).
Proof.
  intros Hf Hs. unfold contact_detect, synchronised in *.
  pose proof (Hf (mem m) count shock) as Hv.
  destruct (sys_contact_detect (mem m) count shock) as [hit s].
  cbn [snd] in *. cbn [bVector mem emit set_mem]. by rewrite Hv.
Qed.

Lemma contact_loop_synchronised shock limit (fuel : nat) (count : Z) (m : Machine) :
  contact_detect_frame X → synchronised m →
  synchronised (snd (contact_loop shock limit fuel count m)).
Proof.
  intros Hf. revert count m. induction fuel as [|fuel IH]; intros count m Hs;
    cbn [contact_loop];
    pose proof (contact_detect_synchronised count shock m Hf Hs) as Hd;
    destruct (contact_detect count shock m) as [hit m1]; cbn [snd] in Hd;
    destruct (hit && (count <? limit)); try exact Hd.
  apply IH. apply create_contact_graph_synchronised.
Qed.

Lemma integrate_pos_all_synchronised (m : Machine) :
  synchronised m → synchronised (for_each_body integrate_pos m).
Proof.
  intros Hs. unfold for_each_body.
  apply (fold_left_inv synchronised); [|done].
  intros i m' Hs'. unfold synchronised in *.
  by rewrite (body_op_bVector _ _ (op_integrate_pos i)),
    (body_op_sys_bVector _ _ (op_integrate_pos i)).
Qed.

(** X16: at the end of a tick the file's [bVector] is the system's
    vector of bodies again, however the tick started and whatever the
    shuffle did, provided [contact_detect] does not reorder the system's
    vector: the two vectors differ only from the shuffle to the first
    [create_contact_graph] of a tick. *)
Theorem tick_ends_synchronised (m : Machine) :
  contact_detect_frame X →
  bVector (idle_func m) = sys_bVector (mem (idle_func m)).
Proof.
  intros Hf. rewrite idle_func_split.
  generalize (tick_to_contact_loop m). intros m0.
  unfold contact_resolution.
  destruct (contact_phase m0) as [count m1].
  apply integrate_pos_all_synchronised.
  unfold shock_phase. destruct (count =? MAX_CONTACTS).
  - apply contact_loop_synchronised; [done|].
    apply create_contact_graph_synchronised.
  - apply create_contact_graph_synchronised.
Qed.

End Synchronised.

(** ** The probe of an index at which the two vectors differ *)

Section StaleProbe.
Import Engine Conditions.
Context {P : Payload} {X : Externals P}.

(** X17: the probe of index [i] integrates the body that the system's
    vector has at [i] and tests the body that the file's [bVector] has
    at [i].  Where the two differ, as they can between the shuffle and
    the first [get_bodies] of a tick, the body that the intersection
    tests are made with has not been moved: it is as on entry, and the
    body that was advanced is another one. *)
Theorem stale_probe_tests_unmoved_body (is_initial : bool) (i p q : nat)
    (m : Machine) :
  bVector m !! i = Some p → sys_bVector (mem m) !! i = Some q → p ≠ q →
  let m' := probe_advance is_initial i (probe_save i m) in
  local_body m' i = local_body m i ∧
  heap (mem m') !! p = heap (mem m) !! p ∧
  heap (mem m') !! q = advanced is_initial <$> heap (mem m) !! q.
Proof.
  intros Hp Hq Hpq m'.
  assert (heap (mem m') !! p = heap (mem m) !! p) as Hsame.
  { unfold m'. rewrite probe_advance_heap, probe_save_mem.
    rewrite decide_False; [done|]. rewrite Hq. congruence. }
  split_and!.
  - unfold local_body, m'.
    rewrite (body_op_bVector _ _ (body_op_probe_advance is_initial i)),
      (body_op_bVector _ _ (body_op_probe_save i)), Hp.
    cbn [mbind option_bind]. exact Hsame.
  - exact Hsame.
  - unfold m'. rewrite probe_advance_heap, probe_save_mem.
    by rewrite decide_True.
Qed.

End StaleProbe.

(** ** [create_contact_graph]: no body is named twice *)

Section DistinctContacts.
Import Engine Conditions.
Context {P : Payload} {X : Externals P}.

Lemma without_contacts_transfer p (m m' : Machine) :
  contacts_at m' p = contacts_at m p →
  without_contacts m p → without_contacts m' p.
Proof.
  unfold contacts_at, without_contacts. intros Heq H b Hb.
  rewrite Hb in Heq. destruct (heap (mem m) !! p) as [b0|] eqn:Hb0; [|done].
  injection Heq as ->. by apply H.
Qed.

Lemma targets_distinct_transfer p (m m' : Machine) :
  contacts_at m' p = contacts_at m p →
  targets_distinct p m → targets_distinct p m'.
Proof.
  unfold contacts_at, targets_distinct, contact_targets. intros Heq H b Hb.
  rewrite Hb in Heq. destruct (heap (mem m) !! p) as [b0|] eqn:Hb0; [|done].
  injection Heq as ->. by apply H.
Qed.

Lemma named_from_transfer v l p (m m' : Machine) :
  contacts_at m' p = contacts_at m p →
  named_from v l p m → named_from v l p m'.
Proof.
  unfold contacts_at, named_from, contact_targets. intros Heq H b Hb.
  rewrite Hb in Heq. destruct (heap (mem m) !! p) as [b0|] eqn:Hb0; [|done].
  injection Heq as ->. by apply H.
Qed.

Lemma named_from_more v l k p (m : Machine) :
  named_from v l p m → named_from v (l ++ [k]) p m.
Proof.
  intros H b Hb. destruct (H b Hb) as [Hnd Hin]. split; [done|].
  intros t Ht. destruct (Hin t Ht) as (k' & Hk' & Hv).
  exists k'. split; [|done]. apply elem_of_app. by left.
Qed.

Lemma probe_pair_named_from i k l (m : Machine) p :
  NoDup (bVector m) → k ∉ l →
  named_from (bVector m) l p m →
  named_from (bVector m) (l ++ [k]) p (probe_pair i k m).
Proof.
  intros Hnd Hk H. unfold probe_pair.
  destruct (k =? i)%nat; [by apply named_from_more|].
  destruct (bVector m !! k) as [pk|] eqn:Hpk; [|by apply named_from_more].
  destruct (local_body m k) as [bk|]; [|by apply named_from_more].
  destruct (local_body m i) as [bi|]; [|by apply named_from_more].
  destruct (intersection_test bk bi) as [[pt nrm]|]; [|by apply named_from_more].
  intros b Hb. cbn [mem emit] in Hb.
  rewrite lookup_update_local_body in Hb. case_decide as Hi.
  - destruct (heap (mem m) !! p) as [b0|] eqn:Hb0; [|done].
    injection Hb as <-. destruct (H b0 Hb0) as [Hnd0 Hin0].
    unfold contact_targets in *.
    cbn [push_contact in_contact_list set_in_contact_list].
    rewrite fmap_app. cbn [fmap list_fmap ci_b]. split.
    + apply NoDup_app. split; [done|]. split; [|apply NoDup_singleton].
      intros t Ht Ht'. apply list_elem_of_singleton in Ht' as ->.
      destruct (Hin0 pk Ht) as (k' & Hk' & Hv).
      assert (k' = k) as -> by (by apply (NoDup_lookup (bVector m) k' k pk)).
      done.
    + intros t Ht. apply elem_of_app in Ht as [Ht|Ht].
      * destruct (Hin0 t Ht) as (k' & Hk' & Hv). exists k'.
        split; [|done]. apply elem_of_app. by left.
      * apply list_elem_of_singleton in Ht as ->. exists k.
        split; [|done]. apply elem_of_app. right. by apply list_elem_of_singleton.
  - apply (named_from_more _ _ k p m H b Hb).
Qed.

Lemma probe_tests_named_from i (l : list nat) (m : Machine) p :
  NoDup (bVector m) → NoDup l →
  without_contacts m p →
  let m' := fold_left (λ acc k, probe_pair i k acc) l m in
  bVector m' = bVector m ∧ named_from (bVector m) l p m'.
Proof.
  intros Hnd Hl Hempty. induction l as [|k l IH] using rev_ind; cbn zeta in *.
  - split; [done|]. intros b Hb. unfold contact_targets.
    rewrite (Hempty b Hb). split; [apply NoDup_nil; exact I|].
    intros t Ht. by apply elem_of_nil in Ht.
  - rewrite fold_left_app. cbn [fold_left].
    apply NoDup_app in Hl as (Hl & Hfresh & _).
    destruct (IH Hl) as [Hv Hn].
    set (ml := fold_left (λ acc k, probe_pair i k acc) l m) in *.
    split; [by rewrite probe_pair_bVector|].
    rewrite <- Hv. apply probe_pair_named_from; [by rewrite Hv | | by rewrite Hv].
    intros Hkl. apply (Hfresh k Hkl). by apply list_elem_of_singleton.
Qed.

Lemma probe_body_targets_distinct b i (m : Machine) p :
  NoDup (bVector m) →
  without_contacts m p → targets_distinct p (probe_body b i m).
Proof.
  intros Hnd Hempty.
  assert (targets_distinct p m) as Hd.
  { intros b0 Hb0. unfold contact_targets. rewrite (Hempty b0 Hb0).
    apply NoDup_nil. exact I. }
  unfold probe_body. destruct (local_body m i) as [bi|]; [|done].
  destruct (movable bi); [|done].
  set (m1 := probe_save i m).
  set (m2 := probe_advance b i m1).
  assert (bVector m2 = bVector m) as Hv.
  { unfold m2, m1.
    by rewrite (body_op_bVector _ _ (body_op_probe_advance b i)),
      (body_op_bVector _ _ (body_op_probe_save i)). }
  assert (without_contacts m2 p) as H2.
  { apply (without_contacts_transfer _ m); [|done]. unfold m2, m1.
    by rewrite (body_op_contacts_at _ _ _ (body_op_probe_advance b i)),
      (body_op_contacts_at _ _ _ (body_op_probe_save i)). }
  apply (targets_distinct_transfer _ (for_each_body (probe_pair i) m2));
    [apply (body_op_contacts_at _ _ _ (body_op_probe_restore i))|].
  destruct (probe_tests_named_from i (seq 0 (num_bodies m2)) m2 p)
    as [_ Hn]; [by rewrite Hv | apply NoDup_seq | done |].
  intros b0 Hb0. by destruct (Hn b0 Hb0).
Qed.

Lemma probe_rounds_targets_distinct b (l : list nat) (m : Machine) i p :
  NoDup (bVector m) → NoDup l → bVector m !! i = Some p →
  without_contacts m p →
  let m' := fold_left (λ acc j, probe_body b j acc) l m in
  bVector m' = bVector m ∧
  (i ∉ l → without_contacts m' p) ∧
  targets_distinct p m'.
Proof.
  intros Hnd Hl Hi Hempty. induction l as [|j l IH] using rev_ind; cbn zeta in *.
  - split_and!; try done. intros b0 Hb0. unfold contact_targets.
    rewrite (Hempty b0 Hb0). apply NoDup_nil. exact I.
  - rewrite fold_left_app. cbn [fold_left].
    apply NoDup_app in Hl as (Hl & Hfresh & _).
    destruct (IH Hl) as (Hv & Hout & Hd).
    set (ml := fold_left (λ acc j, probe_body b j acc) l m) in *.
    split; [by rewrite probe_body_bVector|].
    destruct (decide (j = i)) as [->|Hji].
    + split.
      * intros Hnot. exfalso. apply Hnot, elem_of_app. right.
        by apply list_elem_of_singleton.
      * apply probe_body_targets_distinct; [by rewrite Hv|].
        apply Hout. intros Hil. apply (Hfresh i Hil).
        by apply list_elem_of_singleton.
    + assert (contacts_at (probe_body b j ml) p = contacts_at ml p) as Hsame.
      { apply probe_body_contacts_at. rewrite Hv. intros Hj.
        apply Hji. by apply (NoDup_lookup (bVector m) j i p). }
      split.
      * intros Hnot. apply (without_contacts_transfer _ ml); [done|].
        apply Hout. intros Hil. apply Hnot, elem_of_app. by left.
      * by apply (targets_distinct_transfer _ ml).
Qed.

(** X18: after [create_contact_graph], the contact list of a body of
    [bVector] names no body twice, and so has fewer entries than there
    are bodies, provided that [bVector] holds each body once. *)
Theorem contact_lists_name_each_body_once (is_initial : bool) (m : Machine)
    (p : nat) (b : Body) :
  tarjan_frame X →
  NoDup (bVector m) →
  length (bVector m) = num_bodies m →
  p ∈ bVector m →
  heap (mem (create_contact_graph is_initial m)) !! p = Some b →
  NoDup (contact_targets b) ∧
  (length (in_contact_list b) < length (bVector m))%nat.
Proof.
  intros Htarjan Hnd Hlen Hp Hb.
  pose proof (create_contact_graph_contacts_among is_initial m p
                Htarjan Hnd Hlen Hp b) as Hamong.
  assert (NoDup (contact_targets b)) as Hdistinct.
  { destruct (clear_all_frame m) as (Hb1 & _ & _ & _ & _ & _).
    pose proof (contacts_cleared m p Hlen Hp) as Hclear.
    set (m1 := for_each_body clear_contacts m) in *.
    pose proof Hp as Hp'. apply list_elem_of_lookup_1 in Hp' as [i Hi].
    destruct (probe_rounds_targets_distinct is_initial (seq 0 (num_bodies m1)) m1 i p)
      as (_ & _ & Hd); [by rewrite Hb1 | apply NoDup_seq | by rewrite Hb1 | done |].
    fold (for_each_body (probe_body is_initial) m1) in Hd.
    set (m2 := for_each_body (probe_body is_initial) m1) in *.
    unfold create_contact_graph in Hb. fold m1 in Hb. fold m2 in Hb.
    unfold get_bodies, topological_tarjan in Hb.
    cbn [mem emit set_bVector set_mem] in Hb.
    pose proof (Htarjan (mem m2) p) as Hcore. rewrite Hb in Hcore.
    destruct (heap (mem m2) !! p) as [b2|] eqn:Hb2; [|done].
    injection Hcore as _ _ _ Hl. unfold contact_targets. rewrite Hl.
    by apply (Hd b2). }
  split; [done|].
  assert (length (p :: contact_targets b) ≤ length (bVector m))%nat as Hle.
  { apply submseteq_length, NoDup_submseteq.
    - apply NoDup_cons. split; [|done]. intros Hin.
      apply list_elem_of_fmap in Hin as (c & Hc & Hin).
      destruct (Hamong c Hb Hin) as [_ Hne]. by apply Hne.
    - intros t Ht. apply elem_of_cons in Ht as [->|Ht]; [done|].
      apply list_elem_of_fmap in Ht as (c & -> & Hin).
      by destruct (Hamong c Hb Hin). }
  unfold contact_targets in Hle. cbn [length] in Hle.
  rewrite length_fmap in Hle. lia.
Qed.

End DistinctContacts.

(** ** The further properties at concrete inputs *)

Section MoreWitnesses.
Import Engine Conditions BodyReset Toy Input Frames Samples.

(** [contact_graph_skips_fixed_slots] at [mid_tick], for the floor: its
    slots keep the snapshot of the start of the tick. *)
Lemma contact_graph_skips_fixed_slots_witness :
  (prev_pos (create_contact_graph (X := world false always pick_floor)
               false mid_tick) : list Z) !! 0%nat = Some 0 ∧
  (prev_vel (create_contact_graph (X := world false always pick_floor)
               false mid_tick) : list Z) !! 0%nat = Some 0.
Proof.
  apply (contact_graph_skips_fixed_slots (X := world false always pick_floor)
           false mid_tick 0%nat).
  intros bl Hbl. vm_compute in Hbl. injection Hbl as <-. reflexivity.
Defined.

(** [contacts_name_other_bodies] at [mid_tick], for the first box: it
    rests on the floor, the object at address 0. *)
Lemma contacts_name_other_bodies_witness :
  heap (mem (create_contact_graph (X := world false always pick_floor)
               false mid_tick)) !! 1%nat = Some resting_box ∧
  (0%nat ∈ bVector mid_tick ∧ 0%nat ≠ 1%nat).
Proof.
  split; [vm_compute; reflexivity|].
  apply (contacts_name_other_bodies (X := world false always pick_floor)
           false mid_tick 1%nat resting_box on_floor).
  - intros s p. reflexivity.
  - apply (bool_decide_unpack _). vm_compute. exact I.
  - reflexivity.
  - apply (bool_decide_unpack _). vm_compute. exact I.
  - vm_compute. reflexivity.
  - apply list_elem_of_here.
Defined.

(** [tentative_step_is_undone] at [low_boxes]: the first box is back at
    height 2 with no momentum, though the integration had moved it. *)
Lemma tentative_step_is_undone_witness :
  state_at (tentative (X := world false always pick_floor) low_boxes) 1 =
    Some (1, -1) ∧
  state_at (tentative_step (X := world false always pick_floor) low_boxes) 1 =
    Some (2, 0).
Proof.
  split; [vm_compute; reflexivity|].
  apply (proj2 (tentative_step_is_undone (X := world false always pick_floor)
                  low_boxes
                  (λ s p, conj eq_refl (conj eq_refl (conj eq_refl eq_refl)))
                  (λ p b _, eq_refl)
                  eq_refl)
               1%nat).
Defined.

(** [stale_bVector_same_guard] at [two_boxes], when the shuffle
    exchanges the two boxes: index 1 holds the first box in the file's
    vector and the second one in the system's. *)
Lemma stale_bVector_same_guard_witness :
  sys_bVector (mem (shuffle (X := world false always pick_boxes_once) two_boxes))
    = [0; 2; 1]%nat ∧
  bVector (shuffle (X := world false always pick_boxes_once) two_boxes)
    = bVector two_boxes.
Proof.
  split; [vm_compute; reflexivity|].
  exact (proj1 (stale_bVector_same_guard
                  (X := world false always pick_boxes_once) two_boxes 1%nat eq_refl)).
Defined.

(** [lone_movable_body_keeps_its_index] at [one_box], with random
    numbers that pick the box in every round. *)
Lemma lone_movable_body_keeps_its_index_witness :
  sys_bVector (mem (shuffle (X := world false always pick_box) one_box))
    = [0; 1]%nat.
Proof.
  apply (lone_movable_body_keeps_its_index (X := world false always pick_box) one_box).
  intros i j bi bj Hi Hj Hpi Hpj.
  destruct i as [|[|i]]; vm_compute in Hi; try discriminate;
    injection Hi as <-; try discriminate Hpi.
  destruct j as [|[|j]]; vm_compute in Hj; try discriminate;
    injection Hj as <-; try discriminate Hpj.
  reflexivity.
Defined.

(** [remap_GUI_resets_each_body_once] at [two_boxes]: the second box is
    put back at height 7. *)
Lemma remap_GUI_resets_each_body_once_witness :
  heap (mem (remap_GUI to_start two_boxes)) !! 2%nat = Some (box 7 0).
Proof.
  assert (NoDup (bVector two_boxes)) as Hnd
    by (apply (bool_decide_unpack _); vm_compute; exact I).
  rewrite (proj1 (remap_GUI_resets_each_body_once to_start two_boxes Hnd eq_refl)
             2%nat).
  reflexivity.
Defined.

(** [drag_anchor_is_kept]: the left button is pressed at (3, 4), the
    right one at (30, 40), and the left one is released at (50, 60). *)
Lemma drag_anchor_is_kept_witness :
  let s' := deliver (deliver_all [right_press]
                       (mouse_func 0 0 GLUT_DOWN 3 4 mouse_start)) left_release in
  hmx s' = 3 ∧ hmy s' = 4 ∧ mx s' = 50 ∧ my s' = 60.
Proof.
  cbn zeta.
  destruct (drag_anchor_is_kept mouse_start 0 3 4 [right_press] left_release)
    as (_ & _ & Hx & Hy).
  - reflexivity.
  - vm_compute. lia.
  - apply Forall_cons. split; [|apply Forall_nil; exact I].
    split; [vm_compute; lia | discriminate].
  - split; [exact Hx|]. split; [exact Hy|]. split; reflexivity.
Defined.

(** [shift_is_sampled_at_release]: a click of the left button with shift
    held at the press only is not a shift-click. *)
Lemma shift_is_sampled_at_release_witness :
  mouse_shiftclick
    (mouse_func 0 0 GLUT_UP 3 4
       (mouse_func GLUT_ACTIVE_SHIFT 0 GLUT_DOWN 3 4 mouse_start)) !! 0%nat
  = Some 0.
Proof.
  apply (shift_is_sampled_at_release mouse_start 0 GLUT_ACTIVE_SHIFT 3 4 0 3 4);
    [vm_compute; lia | reflexivity..].
Defined.

(** [frame_name_fits_buffer] at the last frame whose name fits. *)
Lemma frame_name_fits_buffer_witness :
  frame_file (Z.quot 299999 FRAME_INTERVAL) = list_ascii_of_string "img99999.png" ∧
  sprintf_size (frame_file (Z.quot 299999 FRAME_INTERVAL)) = FILENAME_SIZE.
Proof.
  split; [vm_compute; reflexivity|].
  apply (proj1 (frame_name_fits_buffer 299999 ltac:(vm_compute; split; discriminate))).
  reflexivity.
Defined.

(** [every_third_frame_is_saved] for four calls: two files. *)
Lemma every_third_frame_is_saved_witness :
  ∃ s', displays [true; true; true; true] dumping = Continues s' ∧
        saved s' = [list_ascii_of_string "img00000.png";
                    list_ascii_of_string "img00001.png"].
Proof.
  destruct (every_third_frame_is_saved [true; true; true; true] dumping)
    as (s' & Hrun & _ & _ & Hs & _).
  - discriminate.
  - reflexivity.
  - repeat constructor.
  - vm_compute. discriminate.
  - exists s'. split; [exact Hrun|]. rewrite Hs. vm_compute. reflexivity.
Defined.

(** [tick_ends_synchronised] at [two_boxes], when the shuffle exchanges
    the two boxes. *)
Lemma tick_ends_synchronised_witness :
  bVector (idle_func (X := world false always pick_boxes_once) two_boxes) =
  sys_bVector (mem (idle_func (X := world false always pick_boxes_once) two_boxes)).
Proof.
  apply (tick_ends_synchronised (X := world false always pick_boxes_once) two_boxes).
  intros s count shock. reflexivity.
Defined.

(** [stale_probe_tests_unmoved_body] at [swapped_boxes], for index 1:
    the second box (address 2) is advanced, and the first one (address
    1), which the tests are made with, stays at height 5. *)
Lemma stale_probe_tests_unmoved_body_witness :
  let m' := probe_advance (X := world false always pick_floor) true 1
              (probe_save 1 swapped_boxes) in
  local_body m' 1 = Some (box 5 0) ∧
  heap (mem m') !! 2%nat = Some (box 8 (-1)).
Proof.
  destruct (stale_probe_tests_unmoved_body (X := world false always pick_floor)
              true 1 1 2 swapped_boxes eq_refl eq_refl ltac:(discriminate))
    as (Hl & _ & Hq).
  cbn zeta. split; [rewrite Hl | rewrite Hq]; reflexivity.
Defined.

(** [contact_lists_name_each_body_once] at [mid_tick], for the first
    box: one entry, for three bodies. *)
Lemma contact_lists_name_each_body_once_witness :
  heap (mem (create_contact_graph (X := world false always pick_floor)
               false mid_tick)) !! 1%nat = Some resting_box ∧
  NoDup (contact_targets resting_box) ∧
  (length (in_contact_list resting_box) < length (bVector mid_tick))%nat.
Proof.
  split; [vm_compute; reflexivity|].
  apply (contact_lists_name_each_body_once (X := world false always pick_floor)
           false mid_tick 1%nat resting_box).
  - intros s p. reflexivity.
  - apply (bool_decide_unpack _). vm_compute. exact I.
  - reflexivity.
  - apply (bool_decide_unpack _). vm_compute. exact I.
  - vm_compute. reflexivity.
Defined.

End MoreWitnesses.
